(** * postws: a shallow embedding of main.go and the properties of its specification

    The program is a command line tool: it parses flags and [Name=Value]
    arguments ([parseFlags]), builds the WebSocket URL ([buildURL]), marshals the
    arguments as one JSON object, dials, sends the object once, and prints every
    reply ([printMessage]) until the peer closes or the read timeout fires ([run]).

    Go strings are byte strings: they are modelled by [string], whose characters
    are the 256 values of [ascii].  Go [int] values are modelled by [Z].  The
    functions of the Go standard library that main.go calls ([strings], [net/url],
    [unicode/utf8], [strconv], [encoding/json]) are embedded next to their callers,
    following the Go 1.21 sources the README asks for. *)

From Stdlib Require Import ZArith Ascii String List Bool Lia.
From Stdlib Require Import Numbers.DecimalString.
From stdpp Require Import gmap strings list sorting.

Local Open Scope Z_scope.

(** ** Bytes *)

Definition byte_of (c : ascii) : Z := Z.of_N (N_of_ascii c).
Definition ascii_of (z : Z) : ascii := ascii_of_N (Z.to_N z).

(** [lo <= c <= hi] on the byte value of [c]. *)
Definition between (lo hi : ascii) (c : ascii) : bool :=
  (byte_of lo <=? byte_of c) && (byte_of c <=? byte_of hi).

Definition str (c : ascii) : string := String c EmptyString.

(** The double quote, the backslash, and the control characters that the
    JSON encoder and scanner name. *)
Definition dq : ascii := "034"%char.
Definition bsl : ascii := "092"%char.
Definition ch_tab : ascii := "009"%char.
Definition ch_nl : ascii := "010"%char.
Definition ch_cr : ascii := "013"%char.
Definition nl : string := str ch_nl.

(** ** Package unicode/utf8 and unicode.IsSpace *)

Module utf8.

Definition RuneError : Z := 0xFFFD.
Definition RuneSelf : Z := 0x80.
Definition locb : Z := 0x80.
Definition hicb : Z := 0xBF.

(** The entry of the table [first] for a leading byte: ASCII, invalid, or
    the size of the sequence with the range accepted for its second byte. *)
Inductive firstInfo := FAscii | FInvalid | FLead (sz : Z) (lo hi : Z).

Definition first (b : Z) : firstInfo :=
  if b <? 0x80 then FAscii
  else if b <? 0xC2 then FInvalid
  else if b <? 0xE0 then FLead 2 locb hicb
  else if b =? 0xE0 then FLead 3 0xA0 hicb
  else if b <? 0xED then FLead 3 locb hicb
  else if b =? 0xED then FLead 3 locb 0x9F
  else if b <? 0xF0 then FLead 3 locb hicb
  else if b =? 0xF0 then FLead 4 0x90 hicb
  else if b <? 0xF4 then FLead 4 locb hicb
  else if b =? 0xF4 then FLead 4 locb 0x8F
  else FInvalid.

Definition cont (b : Z) : bool := (locb <=? b) && (b <=? hicb).

(** [DecodeRuneInString s]: the first rune of [s] and its width in bytes;
    [(RuneError, 1)] for an invalid encoding, [(RuneError, 0)] for the empty
    string. *)
Definition DecodeRuneInString (s : string) : Z * Z :=
  match s with
  | EmptyString => (RuneError, 0)
  | String c0 r =>
      let s0 := byte_of c0 in
      match first s0 with
      | FAscii => (s0, 1)
      | FInvalid => (RuneError, 1)
      | FLead sz lo hi =>
          if Z.of_nat (String.length s) <? sz then (RuneError, 1)
          else
            match r with
            | EmptyString => (RuneError, 1)
            | String c1 r1 =>
                let s1 := byte_of c1 in
                if (s1 <? lo) || (hi <? s1) then (RuneError, 1)
                else if sz <=? 2 then
                  (Z.lor (Z.shiftl (Z.land s0 0x1F) 6) (Z.land s1 0x3F), 2)
                else
                  match r1 with
                  | EmptyString => (RuneError, 1)
                  | String c2 r2 =>
                      let s2 := byte_of c2 in
                      if negb (cont s2) then (RuneError, 1)
                      else if sz <=? 3 then
                        (Z.lor (Z.lor (Z.shiftl (Z.land s0 0x0F) 12)
                                      (Z.shiftl (Z.land s1 0x3F) 6))
                               (Z.land s2 0x3F), 3)
                      else
                        match r2 with
                        | EmptyString => (RuneError, 1)
                        | String c3 _ =>
                            let s3 := byte_of c3 in
                            if negb (cont s3) then (RuneError, 1)
                            else
                              (Z.lor (Z.lor (Z.lor
                                 (Z.shiftl (Z.land s0 0x07) 18)
                                 (Z.shiftl (Z.land s1 0x3F) 12))
                                 (Z.shiftl (Z.land s2 0x3F) 6))
                                 (Z.land s3 0x3F), 4)
                        end
                  end
            end
      end
  end.

(** [RuneStart b]: [b] is not a continuation byte. *)
Definition RuneStart (b : Z) : bool := negb (Z.land b 0xC0 =? 0x80).

Definition UTFMax : Z := 4.

End utf8.

Module unicode.

(** [IsSpace r]: the Latin-1 spaces, and the White_Space ranges above
    Latin-1. *)
Definition IsSpace (r : Z) : bool :=
  if (0 <=? r) && (r <=? 0xFF) then
    (r =? 9) || (r =? 10) || (r =? 11) || (r =? 12) || (r =? 13) ||
    (r =? 32) || (r =? 0x85) || (r =? 0xA0)
  else
    (r =? 0x1680) || ((0x2000 <=? r) && (r <=? 0x200A)) ||
    (r =? 0x2028) || (r =? 0x2029) || (r =? 0x202F) || (r =? 0x205F) ||
    (r =? 0x3000).

End unicode.

(** ** Package strings *)

Module strings.

Definition len (s : string) : Z := Z.of_nat (String.length s).

(** [s[:i]] and [s[i:]]. *)
Fixpoint take (n : nat) (s : string) : string :=
  match n, s with
  | O, _ => EmptyString
  | S n', String c r => String c (take n' r)
  | S _, EmptyString => EmptyString
  end.

Fixpoint drop (n : nat) (s : string) : string :=
  match n, s with
  | O, _ => s
  | S n', String _ r => drop n' r
  | S _, EmptyString => EmptyString
  end.

Definition slice_to (s : string) (i : Z) : string := take (Z.to_nat i) s.
Definition slice_from (s : string) (i : Z) : string := drop (Z.to_nat i) s.

Fixpoint HasPrefix (s prefix : string) {struct prefix} : bool :=
  match prefix, s with
  | EmptyString, _ => true
  | String p ps, String c cs => Ascii.eqb c p && HasPrefix cs ps
  | String _ _, EmptyString => false
  end.

(** [Index s substr]: the index of the first instance of [substr] in [s],
    or -1. *)
Fixpoint Index (s substr : string) : Z :=
  if HasPrefix s substr then 0
  else match s with
       | EmptyString => -1
       | String _ r => let i := Index r substr in if i <? 0 then -1 else 1 + i
       end.

(** [LastIndex s substr]: the index of the last instance, or -1. *)
Fixpoint LastIndex (s substr : string) : Z :=
  match s with
  | EmptyString => if HasPrefix s substr then 0 else -1
  | String _ r =>
      let i := LastIndex r substr in
      if 0 <=? i then 1 + i else if HasPrefix s substr then 0 else -1
  end.

Definition Contains (s substr : string) : bool := 0 <=? Index s substr.

Definition HasSuffix (s suffix : string) : bool :=
  (len suffix <=? len s) &&
  String.eqb (slice_from s (len s - len suffix)) suffix.

(** [Count s substr] for a one-byte [substr], the only use in net/url. *)
Fixpoint CountByte (s : string) (c : ascii) : Z :=
  match s with
  | EmptyString => 0
  | String d r => (if Ascii.eqb d c then 1 else 0) + CountByte r c
  end.

(** [Cut s sep]: the text before and after the first [sep], and whether
    [sep] was found. *)
Definition Cut (s sep : string) : string * string * bool :=
  let i := Index s sep in
  if 0 <=? i then (slice_to s i, slice_from s (i + len sep), true)
  else (s, EmptyString, false).

(** [genSplit s sep 0 n] after [n] was clamped and decremented: at most
    [n] cuts. *)
Fixpoint genSplit (s sep : string) (n : nat) : list string :=
  match n with
  | O => [s]
  | S n' =>
      let m := Index s sep in
      if m <? 0 then [s]
      else slice_to s m :: genSplit (slice_from s (m + len sep)) sep n'
  end.

(** [SplitN s sep n] for a non-empty [sep] (main.go splits on [=]); a
    negative [n] means every cut. *)
Definition SplitN (s sep : string) (n : Z) : list string :=
  if n =? 0 then []
  else
    let n := if n <? 0 then len s + 1 else n in
    let n := if len s + 1 <? n then len s + 1 else n in
    genSplit s sep (Z.to_nat (n - 1)).

Definition lower (c : ascii) : ascii :=
  if between "A" "Z" c then ascii_of (byte_of c + 32) else c.

(** [ToLower] on the ASCII strings it is applied to here (a URL scheme). *)
Fixpoint ToLower (s : string) : string :=
  match s with
  | EmptyString => EmptyString
  | String c r => String (lower c) (ToLower r)
  end.

(** The byte [s[i]]; 0 out of range, where Go panics: every use below is
    in range. *)
Definition at_ (s : string) (i : Z) : Z :=
  match String.get (Z.to_nat i) s with
  | Some c => byte_of c
  | None => 0
  end.

Definition slice (s : string) (lo hi : Z) : string :=
  slice_from (slice_to s hi) lo.

(** [for i, r := range s]: the runes of [s] with their byte offsets;
    [skip] counts the bytes of the current rune still to pass. *)
Fixpoint range_runes (s : string) (i : Z) (skip : nat) : list (Z * Z) :=
  match s with
  | EmptyString => []
  | String _ r =>
      match skip with
      | S k => range_runes r (i + 1) k
      | O =>
          let '(rn, w) := utf8.DecodeRuneInString s in
          (i, rn) :: range_runes r (i + 1) (Z.to_nat w - 1)
      end
  end.

Definition indexFunc (s : string) (f : Z -> bool) (truth : bool) : Z :=
  match List.find (fun ir => Bool.eqb (f (snd ir)) truth)
                  (range_runes s 0 0) with
  | Some ir => fst ir
  | None => -1
  end.

(** The backwards scan of [DecodeLastRuneInString] for the start of the
    last rune: from [start] down to [lim]. *)
Fixpoint lookback (fuel : nat) (s : string) (start lim : Z) : Z :=
  match fuel with
  | O => start
  | S fuel' =>
      if start <? lim then start
      else if utf8.RuneStart (at_ s start) then start
      else lookback fuel' s (start - 1) lim
  end.

Definition DecodeLastRuneInString (s : string) : Z * Z :=
  let end_ := len s in
  if end_ =? 0 then (utf8.RuneError, 0)
  else
    let start := end_ - 1 in
    let r := at_ s start in
    if r <? utf8.RuneSelf then (r, 1)
    else
      let lim := Z.max 0 (end_ - utf8.UTFMax) in
      let start := lookback 4 s (start - 1) lim in
      let start := if start <? 0 then 0 else start in
      let '(r, size) := utf8.DecodeRuneInString (slice s start end_) in
      if start + size =? end_ then (r, size) else (utf8.RuneError, 1).

Fixpoint lastIndexFunc_loop (fuel : nat) (s : string) (i : Z)
    (f : Z -> bool) (truth : bool) : Z :=
  match fuel with
  | O => -1
  | S fuel' =>
      if i <=? 0 then -1
      else
        let '(r, size) := DecodeLastRuneInString (slice_to s i) in
        let i := i - size in
        if Bool.eqb (f r) truth then i
        else lastIndexFunc_loop fuel' s i f truth
  end.

Definition lastIndexFunc (s : string) (f : Z -> bool) (truth : bool) : Z :=
  lastIndexFunc_loop (String.length s) s (len s) f truth.

Definition TrimLeftFunc (s : string) (f : Z -> bool) : string :=
  let i := indexFunc s f false in
  if i =? -1 then EmptyString else slice_from s i.

Definition TrimRightFunc (s : string) (f : Z -> bool) : string :=
  let i := lastIndexFunc s f false in
  let i :=
    if (0 <=? i) && (utf8.RuneSelf <=? at_ s i)
    then i + snd (utf8.DecodeRuneInString (slice_from s i))
    else i + 1 in
  slice_to s i.

Definition TrimFunc (s : string) (f : Z -> bool) : string :=
  TrimRightFunc (TrimLeftFunc s f) f.

Definition asciiSpace (c : Z) : bool :=
  (c =? 9) || (c =? 10) || (c =? 11) || (c =? 12) || (c =? 13) || (c =? 32).

(** The first loop of [TrimSpace] over [rest = s[start:]]: it ends with the
    index of the first byte that is not an ASCII space ([inl]), or returns
    from [TrimSpace] at the first byte that is not ASCII ([inr]). *)
Fixpoint TrimSpace_start (rest : string) (start : Z) : Z + string :=
  match rest with
  | EmptyString => inl start
  | String c r =>
      if utf8.RuneSelf <=? byte_of c then inr (TrimFunc rest unicode.IsSpace)
      else if asciiSpace (byte_of c) then TrimSpace_start r (start + 1)
      else inl start
  end.

(** The second loop, from the end. *)
Fixpoint TrimSpace_stop (fuel : nat) (s : string) (start stop : Z) : string :=
  match fuel with
  | O => slice s start stop
  | S fuel' =>
      if stop <=? start then slice s start stop
      else
        let c := at_ s (stop - 1) in
        if utf8.RuneSelf <=? c
        then TrimRightFunc (slice s start stop) unicode.IsSpace
        else if asciiSpace c then TrimSpace_stop fuel' s start (stop - 1)
        else slice s start stop
  end.

Definition TrimSpace (s : string) : string :=
  match TrimSpace_start s 0 with
  | inr r => r
  | inl start => TrimSpace_stop (String.length s) s start (len s)
  end.

End strings.


(** ** Errors

    One constructor for each place where main.go or a library function it
    calls makes an error; the arguments are the values formatted into the
    message. *)

Inductive error : Type :=
  | Errorf_url_required                      (* -url is required *)
  | Errorf_path_required                     (* -path is required *)
  | Errorf_invalid_data (arg : string)       (* invalid data %q (want Name=Value) *)
  | Errorf_missing_name (arg : string)       (* missing name in %q *)
  | Errorf_parse_url (e : error)             (* parse url: %w *)
  | Errorf_no_scheme                         (* url must include scheme, ... *)
  | Errorf_unsupported_scheme (scheme : string) (* unsupported scheme %q ... *)
  | Errorf_no_host                           (* url must include host *)
  | Errorf_insecure                          (* -insecure-skip-verify is only valid with wss:// URLs *)
  | Errorf_marshal (e : error)               (* marshal payload: %w *)
  | Errorf_dial (url : string) (e : error)   (* dial %s: %w *)
  | Errorf_send (e : error)                  (* send message: %w *)
  | url_Error (op url : string) (e : error)  (* net/url: &Error{op, url, err} *)
  | errors_New (msg : string)                (* net/url: errors.New(msg) *)
  | EscapeError (s : string)                 (* net/url: invalid URL escape *)
  | InvalidHostError (s : string)            (* net/url: invalid character in host name *)
  | Errorf_invalid_port (colonPort : string) (* net/url: invalid port %q after host *)
  | SyntaxError (c : option ascii) (context : string) (offset : Z)
      (* encoding/json: invalid character c context, or (without c)
         unexpected end of JSON input *)
  | net_error (code : nat).                  (* an error of the network library *)

(** ** main.go: options and parseFlags *)

Record options := mkOptions {
  baseURL : string;
  path : string;
  port : Z;
  dialTimeout : Z;                    (* time.Duration, in nanoseconds *)
  readTimeout : Z;
  data : option (gmap string string); (* [None] is the nil map *)
  insecureTLS : bool
}.

Definition set_data (opts : options) (d : gmap string string) : options :=
  mkOptions (baseURL opts) (path opts) (port opts) (dialTimeout opts)
            (readTimeout opts) (Some d) (insecureTLS opts).

(** The loop of parseFlags over [flag.Args()] (lines 67-76).  The result is
    the map as the loop leaves it and the error returned from inside the loop,
    if any; [None] is the run-time panic of an index out of range at
    [parts[0]] or [parts[1]]. *)
Fixpoint parseFlags_loop (data : gmap string string) (args : list string)
    : option (gmap string string * option error) :=
  match args with
  | [] => Some (data, None)
  | arg :: rest =>
      if negb (strings.Contains arg "=")
      then Some (data, Some (Errorf_invalid_data arg))
      else
        let parts := strings.SplitN arg "=" 2 in
        match parts !! 0%nat with
        | None => None
        | Some name =>
            if String.eqb (strings.TrimSpace name) EmptyString
            then Some (data, Some (Errorf_missing_name arg))
            else
              match parts !! 1%nat with
              | None => None
              | Some value => parseFlags_loop (<[name := value]> data) rest
              end
        end
  end.

(** [parseFlags]: [opts] holds the flag values as [flag.Parse()] stored them
    (defaults included, [data] still nil), [args] is [flag.Args()]. *)
Definition parseFlags (opts : options) (args : list string)
    : option (options * option error) :=
  if String.eqb (baseURL opts) EmptyString then Some (opts, Some Errorf_url_required)
  else if String.eqb (path opts) EmptyString then Some (opts, Some Errorf_path_required)
  else
    match parseFlags_loop ∅ args with
    | None => None
    | Some (d, err) => Some (set_data opts d, err)
    end.


(** ** Package flag and the flags of parseFlags (lines 44-57)

    [flag.Parse] reads the flags from the front of the command line into the
    options and leaves the other arguments to [flag.Args].  The two parsers of
    numbers that the package calls, [strconv.ParseInt] and
    [time.ParseDuration], are parameters of this part. *)

Module flag.
Import strings.

(** The errors of [parseOne]. *)
Inductive flagError :=
  | BadSyntax (s : string)               (* bad flag syntax: %s *)
  | NotDefined (name : string)           (* flag provided but not defined: -%s *)
  | ErrHelp                              (* flag: help requested *)
  | InvalidBool (value name : string)    (* invalid boolean value %q for -%s *)
  | NeedsArgument (name : string)        (* flag needs an argument: -%s *)
  | InvalidValue (value name : string).  (* invalid value %q for flag -%s *)

(** [strconv.ParseBool]. *)
Definition ParseBool (s : string) : option bool :=
  if existsb (String.eqb s) ["1"; "t"; "T"; "TRUE"; "true"; "True"]%string then Some true
  else if existsb (String.eqb s) ["0"; "f"; "F"; "FALSE"; "false"; "False"]%string
  then Some false
  else None.

(** The kinds of value of the flags. *)
Inductive kind := KString | KInt | KDuration | KBool.

(** The flags that parseFlags defines, by name (lines 46-51). *)
Definition formal (name : string) : option kind :=
  if String.eqb name "url" then Some KString
  else if String.eqb name "path" then Some KString
  else if String.eqb name "port" then Some KInt
  else if String.eqb name "dial-timeout" then Some KDuration
  else if String.eqb name "read-timeout" then Some KDuration
  else if String.eqb name "insecure-skip-verify" then Some KBool
  else None.

Definition set_baseURL (o : options) (x : string) : options :=
  mkOptions x (path o) (port o) (dialTimeout o) (readTimeout o) (data o) (insecureTLS o).
Definition set_path (o : options) (x : string) : options :=
  mkOptions (baseURL o) x (port o) (dialTimeout o) (readTimeout o) (data o) (insecureTLS o).
Definition set_port (o : options) (x : Z) : options :=
  mkOptions (baseURL o) (path o) x (dialTimeout o) (readTimeout o) (data o) (insecureTLS o).
Definition set_dialTimeout (o : options) (x : Z) : options :=
  mkOptions (baseURL o) (path o) (port o) x (readTimeout o) (data o) (insecureTLS o).
Definition set_readTimeout (o : options) (x : Z) : options :=
  mkOptions (baseURL o) (path o) (port o) (dialTimeout o) x (data o) (insecureTLS o).
Definition set_insecureTLS (o : options) (x : bool) : options :=
  mkOptions (baseURL o) (path o) (port o) (dialTimeout o) (readTimeout o) (data o) x.

Section FlagSet.
Variable ParseInt : string -> option Z.        (* strconv.ParseInt(s, 0, strconv.IntSize) *)
Variable ParseDuration : string -> option Z.   (* time.ParseDuration, in nanoseconds *)

(** [flag.Value.Set(value)] through the pointer that the flag [name] was
    defined with; [None] when [Set] returns an error. *)
Definition Value_Set (o : options) (name value : string) : option options :=
  if String.eqb name "url" then Some (set_baseURL o value)
  else if String.eqb name "path" then Some (set_path o value)
  else if String.eqb name "port" then option_map (set_port o) (ParseInt value)
  else if String.eqb name "dial-timeout"
  then option_map (set_dialTimeout o) (ParseDuration value)
  else if String.eqb name "read-timeout"
  then option_map (set_readTimeout o) (ParseDuration value)
  else if String.eqb name "insecure-skip-verify"
  then option_map (set_insecureTLS o) (ParseBool value)
  else None.

(** The loop of [parseOne] that looks for the value in [name], from index
    1: the name before the first [=], and the value after it, if there is
    one. *)
Fixpoint value_loop (name rest : string) (i : Z) : string * option string :=
  match rest with
  | EmptyString => (name, None)
  | String c r =>
      if Ascii.eqb c "=" then (slice_to name i, Some (slice_from name (i + 1)))
      else value_loop name r (i + 1)
  end.

(** [f.parseOne()]: whether a flag was seen, with the options and the
    arguments left, or the error. *)
Definition parseOne (o : options) (args : list string)
    : bool * options * list string + flagError :=
  match args with
  | [] => inl (false, o, args)
  | s :: rest =>
      if (len s <? 2) || negb (at_ s 0 =? byte_of "-") then inl (false, o, args)
      else
        let numMinuses := if at_ s 1 =? byte_of "-" then 2 else 1 in
        if (numMinuses =? 2) && (len s =? 2) then inl (false, o, rest)
        else
          let name := slice_from s numMinuses in
          if (len name =? 0) || (at_ name 0 =? byte_of "-")
             || (at_ name 0 =? byte_of "=")
          then inr (BadSyntax s)
          else
            let '(name, value) := value_loop name (slice_from name 1) 1 in
            match formal name with
            | None =>
                if String.eqb name "help" || String.eqb name "h" then inr ErrHelp
                else inr (NotDefined name)
            | Some KBool =>
                match value with
                | Some v =>
                    match Value_Set o name v with
                    | Some o' => inl (true, o', rest)
                    | None => inr (InvalidBool v name)
                    end
                | None =>
                    match Value_Set o name "true" with
                    | Some o' => inl (true, o', rest)
                    | None => inr (InvalidBool "true" name)
                    end
                end
            | Some _ =>
                match value, rest with
                | Some v, _ =>
                    match Value_Set o name v with
                    | Some o' => inl (true, o', rest)
                    | None => inr (InvalidValue v name)
                    end
                | None, v :: rest' =>
                    match Value_Set o name v with
                    | Some o' => inl (true, o', rest')
                    | None => inr (InvalidValue v name)
                    end
                | None, [] => inr (NeedsArgument name)
                end
            end
  end.

(** The loop of [f.Parse(arguments)]; every round that goes on has taken an
    argument, so [fuel] above the number of arguments is never used up. *)
Fixpoint Parse_loop (fuel : nat) (o : options) (args : list string)
    : option (options * list string + flagError) :=
  match fuel with
  | O => None
  | S fuel' =>
      match parseOne o args with
      | inl (true, o', args') => Parse_loop fuel' o' args'
      | inl (false, o', args') => Some (inl (o', args'))
      | inr e => Some (inr e)
      end
  end.

(** [flag.Parse()] on the arguments after the program name: the options and
    [flag.Args()], or the error with which the process exits. *)
Definition Parse (o : options) (args : list string)
    : option (options * list string + flagError) :=
  Parse_loop (S (length args)) o args.

End FlagSet.

(** The exit status of [flag.Parse] under [ExitOnError]. *)
Definition exit_code (e : flagError) : Z :=
  match e with
  | ErrHelp => 0
  | _ => 2
  end.

End flag.

(** ** Results of the library functions that return [(T, error)] *)

Inductive result (A : Type) : Type :=
  | Ok (a : A)
  | Err (e : error).
Arguments Ok {A} a.
Arguments Err {A} e.

Definition bind {A B : Type} (r : result A) (k : A -> result B) : result B :=
  match r with
  | Ok a => k a
  | Err e => Err e
  end.

Notation "x <- r ;; k" := (bind r (fun x => k))
  (at level 100, r at next level, k at level 200, right associativity).

(** ** Package strconv and net *)

(** [strconv.Itoa]: the decimal digits, with a leading minus sign for a
    negative number. *)
Definition Itoa (i : Z) : string := NilZero.string_of_int (Z.to_int i).

(** [one_of c set]: the byte [c] is one of the bytes of [set]. *)
Fixpoint one_of (c : ascii) (set : string) : bool :=
  match set with
  | EmptyString => false
  | String d r => Ascii.eqb c d || one_of c r
  end.

(** [net.JoinHostPort]: a host with a colon is taken to be a literal IPv6
    address and put in brackets. *)
Definition JoinHostPort (host port : string) : string :=
  if 0 <=? strings.Index host ":" then "[" +:+ host +:+ "]:" +:+ port
  else host +:+ ":" +:+ port.

(** ** Package net/url *)

Module url.
Import strings.

Record Userinfo := mkUserinfo {
  username : string;
  password : string;
  passwordSet : bool
}.

Record URL := mkURL {
  Scheme : string;
  Opaque : string;
  User : option Userinfo;     (* [None] is the nil pointer *)
  Host : string;
  Path : string;
  RawPath : string;
  OmitHost : bool;
  ForceQuery : bool;
  RawQuery : string;
  Fragment : string;
  RawFragment : string
}.

(** [new(URL)]. *)
Definition empty : URL :=
  mkURL EmptyString EmptyString None EmptyString EmptyString EmptyString
        false false EmptyString EmptyString EmptyString.

Definition set_Scheme (u : URL) (x : string) : URL :=
  mkURL x (Opaque u) (User u) (Host u) (Path u) (RawPath u) (OmitHost u)
        (ForceQuery u) (RawQuery u) (Fragment u) (RawFragment u).
Definition set_Opaque (u : URL) (x : string) : URL :=
  mkURL (Scheme u) x (User u) (Host u) (Path u) (RawPath u) (OmitHost u)
        (ForceQuery u) (RawQuery u) (Fragment u) (RawFragment u).
Definition set_User_Host (u : URL) (usr : option Userinfo) (h : string) : URL :=
  mkURL (Scheme u) (Opaque u) usr h (Path u) (RawPath u) (OmitHost u)
        (ForceQuery u) (RawQuery u) (Fragment u) (RawFragment u).
Definition set_Host (u : URL) (x : string) : URL :=
  mkURL (Scheme u) (Opaque u) (User u) x (Path u) (RawPath u) (OmitHost u)
        (ForceQuery u) (RawQuery u) (Fragment u) (RawFragment u).
Definition set_Path (u : URL) (x : string) : URL :=
  mkURL (Scheme u) (Opaque u) (User u) (Host u) x (RawPath u) (OmitHost u)
        (ForceQuery u) (RawQuery u) (Fragment u) (RawFragment u).
Definition set_RawPath (u : URL) (x : string) : URL :=
  mkURL (Scheme u) (Opaque u) (User u) (Host u) (Path u) x (OmitHost u)
        (ForceQuery u) (RawQuery u) (Fragment u) (RawFragment u).
Definition set_OmitHost (u : URL) (x : bool) : URL :=
  mkURL (Scheme u) (Opaque u) (User u) (Host u) (Path u) (RawPath u) x
        (ForceQuery u) (RawQuery u) (Fragment u) (RawFragment u).
Definition set_ForceQuery (u : URL) (x : bool) : URL :=
  mkURL (Scheme u) (Opaque u) (User u) (Host u) (Path u) (RawPath u) (OmitHost u)
        x (RawQuery u) (Fragment u) (RawFragment u).
Definition set_RawQuery (u : URL) (x : string) : URL :=
  mkURL (Scheme u) (Opaque u) (User u) (Host u) (Path u) (RawPath u) (OmitHost u)
        (ForceQuery u) x (Fragment u) (RawFragment u).
Definition set_Fragment (u : URL) (f raw : string) : URL :=
  mkURL (Scheme u) (Opaque u) (User u) (Host u) (Path u) (RawPath u) (OmitHost u)
        (ForceQuery u) (RawQuery u) f raw.

Inductive encoding :=
  | encodePath
  | encodePathSegment
  | encodeHost
  | encodeZone
  | encodeUserPassword
  | encodeQueryComponent
  | encodeFragment.

Definition encoding_eqb (a b : encoding) : bool :=
  match a, b with
  | encodePath, encodePath | encodePathSegment, encodePathSegment
  | encodeHost, encodeHost | encodeZone, encodeZone
  | encodeUserPassword, encodeUserPassword
  | encodeQueryComponent, encodeQueryComponent
  | encodeFragment, encodeFragment => true
  | _, _ => false
  end.

Definition upperhex : string := "0123456789ABCDEF".

Definition ishex (c : ascii) : bool :=
  between "0" "9" c || between "a" "f" c || between "A" "F" c.

Definition unhex (c : ascii) : Z :=
  if between "0" "9" c then byte_of c - byte_of "0"
  else if between "a" "f" c then byte_of c - byte_of "a" + 10
  else if between "A" "F" c then byte_of c - byte_of "A" + 10
  else 0.

Definition isAlnum (c : ascii) : bool :=
  between "a" "z" c || between "A" "Z" c || between "0" "9" c.

(** [shouldEscape c mode]: whether [c] must be escaped in the part of the
    URL that [mode] names. *)
Definition shouldEscape (c : ascii) (mode : encoding) : bool :=
  if isAlnum c then false
  else if (encoding_eqb mode encodeHost || encoding_eqb mode encodeZone)
          && one_of c ("!$&'()*+,;=:[]<>" +:+ str dq) then false
  else if one_of c "-_.~" then false
  else if one_of c "$&+,/:;=?@" then
    match mode with
    | encodePath => Ascii.eqb c "?"
    | encodePathSegment => one_of c "/;,?"
    | encodeUserPassword => one_of c "@/?:"
    | encodeQueryComponent => true
    | encodeFragment => false
    | encodeHost | encodeZone => true
    end
  else if encoding_eqb mode encodeFragment && one_of c "!()*" then false
  else true.

(** The byte [unhex(h1)<<4 | unhex(h2)]. *)
Definition unhex2 (h1 h2 : ascii) : ascii :=
  ascii_of (Z.lor (Z.shiftl (unhex h1) 4) (unhex h2)).

(** The first loop of [unescape]: it counts the [%] and checks that they
    are well-formed; the result is the count and [hasPlus]. *)
Fixpoint unescape_scan (s : string) (mode : encoding) (n : Z) (hasPlus : bool)
    : result (Z * bool) :=
  match s with
  | EmptyString => Ok (n, hasPlus)
  | String c r =>
      if Ascii.eqb c "%" then
        match r with
        | String h1 (String h2 r') =>
            if negb (ishex h1) || negb (ishex h2) then Err (EscapeError (take 3 s))
            else if encoding_eqb mode encodeHost && (unhex h1 <? 8)
                    && negb (String.eqb (take 3 s) "%25")
            then Err (EscapeError (take 3 s))
            else if encoding_eqb mode encodeZone
                    && negb (String.eqb (take 3 s) "%25")
                    && negb (Ascii.eqb (unhex2 h1 h2) " ")
                    && shouldEscape (unhex2 h1 h2) encodeHost
            then Err (EscapeError (take 3 s))
            else unescape_scan r' mode (n + 1) hasPlus
        | _ => Err (EscapeError (take 3 s))
        end
      else if Ascii.eqb c "+" then
        unescape_scan r mode n (encoding_eqb mode encodeQueryComponent)
      else if (encoding_eqb mode encodeHost || encoding_eqb mode encodeZone)
              && (byte_of c <? 0x80) && shouldEscape c encodeHost
      then Err (InvalidHostError (str c))
      else unescape_scan r mode n hasPlus
  end.

(** The second loop of [unescape]. *)
Fixpoint unescape_build (s : string) (mode : encoding) : string :=
  match s with
  | EmptyString => EmptyString
  | String c r =>
      if Ascii.eqb c "%" then
        match r with
        | String h1 (String h2 r') => String (unhex2 h1 h2) (unescape_build r' mode)
        | _ => EmptyString   (* excluded by the first loop *)
        end
      else if Ascii.eqb c "+" then
        String (if encoding_eqb mode encodeQueryComponent then " "%char else "+"%char)
               (unescape_build r mode)
      else String c (unescape_build r mode)
  end.

Definition unescape (s : string) (mode : encoding) : result string :=
  nh <- unescape_scan s mode 0 false ;;
  if (fst nh =? 0) && negb (snd nh) then Ok s
  else Ok (unescape_build s mode).

(** The first loop of [escape]: [(spaceCount, hexCount)]. *)
Fixpoint escape_count (s : string) (mode : encoding) : Z * Z :=
  match s with
  | EmptyString => (0, 0)
  | String c r =>
      let '(sp, hx) := escape_count r mode in
      if shouldEscape c mode then
        if Ascii.eqb c " " && encoding_eqb mode encodeQueryComponent
        then (sp + 1, hx) else (sp, hx + 1)
      else (sp, hx)
  end.

Definition hexdigit (i : Z) : ascii :=
  match String.get (Z.to_nat i) upperhex with
  | Some c => c
  | None => "0"%char
  end.

(** The second loop of [escape]. *)
Fixpoint escape_build (s : string) (mode : encoding) : string :=
  match s with
  | EmptyString => EmptyString
  | String c r =>
      if Ascii.eqb c " " && encoding_eqb mode encodeQueryComponent
      then String "+" (escape_build r mode)
      else if shouldEscape c mode then
        String "%" (String (hexdigit (Z.shiftr (byte_of c) 4))
                   (String (hexdigit (Z.land (byte_of c) 15))
                           (escape_build r mode)))
      else String c (escape_build r mode)
  end.

Definition escape (s : string) (mode : encoding) : string :=
  let '(spaceCount, hexCount) := escape_count s mode in
  if (spaceCount =? 0) && (hexCount =? 0) then s
  else escape_build s mode.

(** [getScheme rawURL]: [(scheme, path)]. *)
Fixpoint getScheme_loop (rest : string) (i : Z) (rawURL : string)
    : result (string * string) :=
  match rest with
  | EmptyString => Ok (EmptyString, rawURL)
  | String c r =>
      if between "a" "z" c || between "A" "Z" c then getScheme_loop r (i + 1) rawURL
      else if between "0" "9" c || one_of c "+-." then
        if i =? 0 then Ok (EmptyString, rawURL)
        else getScheme_loop r (i + 1) rawURL
      else if Ascii.eqb c ":" then
        if i =? 0 then Err (errors_New "missing protocol scheme")
        else Ok (slice_to rawURL i, slice_from rawURL (i + 1))
      else Ok (EmptyString, rawURL)
  end.

Definition getScheme (rawURL : string) : result (string * string) :=
  getScheme_loop rawURL 0 rawURL.

Fixpoint stringContainsCTLByte (s : string) : bool :=
  match s with
  | EmptyString => false
  | String c r =>
      (byte_of c <? byte_of " ") || (byte_of c =? 0x7f) || stringContainsCTLByte r
  end.

Fixpoint all_digits (s : string) : bool :=
  match s with
  | EmptyString => true
  | String c r => between "0" "9" c && all_digits r
  end.

(** [validOptionalPort port]: [port] is empty or a colon and digits. *)
Definition validOptionalPort (port : string) : bool :=
  match port with
  | EmptyString => true
  | String c r => if negb (Ascii.eqb c ":") then false else all_digits r
  end.

Fixpoint validUserinfo (s : string) : bool :=
  match s with
  | EmptyString => true
  | String c r =>
      (isAlnum c || one_of c "-._:~!$&'()*+,;=%@") && validUserinfo r
  end.

Definition parseHost (host : string) : result string :=
  if HasPrefix host "[" then
    let i := LastIndex host "]" in
    if i <? 0 then Err (errors_New "missing ']' in host")
    else
      let colonPort := slice_from host (i + 1) in
      if negb (validOptionalPort colonPort) then Err (Errorf_invalid_port colonPort)
      else
        let zone := Index (slice_to host i) "%25" in
        if 0 <=? zone then
          host1 <- unescape (slice_to host zone) encodeHost ;;
          host2 <- unescape (slice host zone i) encodeZone ;;
          host3 <- unescape (slice_from host i) encodeHost ;;
          Ok (host1 +:+ host2 +:+ host3)
        else unescape host encodeHost
  else
    let i := LastIndex host ":" in
    if negb (i =? -1) && negb (validOptionalPort (slice_from host i))
    then Err (Errorf_invalid_port (slice_from host i))
    else unescape host encodeHost.

Definition parseAuthority (authority : string)
    : result (option Userinfo * string) :=
  let i := LastIndex authority "@" in
  host <- (if i <? 0 then parseHost authority
           else parseHost (slice_from authority (i + 1))) ;;
  if i <? 0 then Ok (None, host)
  else
    let userinfo := slice_to authority i in
    if negb (validUserinfo userinfo) then Err (errors_New "net/url: invalid userinfo")
    else if negb (Contains userinfo ":") then
      userinfo <- unescape userinfo encodeUserPassword ;;
      Ok (Some (mkUserinfo userinfo EmptyString false), host)
    else
      let '(username, password, _) := Cut userinfo ":" in
      username <- unescape username encodeUserPassword ;;
      password <- unescape password encodeUserPassword ;;
      Ok (Some (mkUserinfo username password true), host).

Definition setPath (u : URL) (p : string) : result URL :=
  path <- unescape p encodePath ;;
  let u := set_Path u path in
  if String.eqb p (escape path encodePath) then Ok (set_RawPath u EmptyString)
  else Ok (set_RawPath u p).

Definition setFragment (u : URL) (f : string) : result URL :=
  frag <- unescape f encodeFragment ;;
  if String.eqb f (escape frag encodeFragment) then Ok (set_Fragment u frag EmptyString)
  else Ok (set_Fragment u frag f).

(** [parse rawURL viaRequest]. *)
Definition parse (rawURL : string) (viaRequest : bool) : result URL :=
  if stringContainsCTLByte rawURL
  then Err (errors_New "net/url: invalid control character in URL")
  else if String.eqb rawURL EmptyString && viaRequest then Err (errors_New "empty url")
  else if String.eqb rawURL "*" then Ok (set_Path empty "*")
  else
    sr <- getScheme rawURL ;;
    let url := set_Scheme empty (ToLower (fst sr)) in
    let rest := snd sr in
    let '(rest, url) :=
      if HasSuffix rest "?" && (CountByte rest "?" =? 1)
      then (slice_to rest (len rest - 1), set_ForceQuery url true)
      else let '(before, after, _) := Cut rest "?" in (before, set_RawQuery url after) in
    if negb (HasPrefix rest "/") && negb (String.eqb (Scheme url) EmptyString)
    then Ok (set_Opaque url rest)
    else if negb (HasPrefix rest "/") && viaRequest
    then Err (errors_New "invalid URI for request")
    else if negb (HasPrefix rest "/")
            && Contains (fst (fst (Cut rest "/"))) ":"
    then Err (errors_New "first path segment in URL cannot contain colon")
    else
      ur <-
        (if (negb (String.eqb (Scheme url) EmptyString)
             || (negb viaRequest && negb (HasPrefix rest "///")))
            && HasPrefix rest "//"
         then
           let authority := slice_from rest 2 in
           let i := Index authority "/" in
           let '(authority, rest) :=
             if 0 <=? i then (slice_to authority i, slice_from authority i)
             else (authority, EmptyString) in
           uh <- parseAuthority authority ;;
           Ok (set_User_Host url (fst uh) (snd uh), rest)
         else if negb (String.eqb (Scheme url) EmptyString) && HasPrefix rest "/"
         then Ok (set_OmitHost url true, rest)
         else Ok (url, rest)) ;;
      setPath (fst ur) (snd ur).

(** [Parse rawURL]. *)
Definition Parse (rawURL : string) : result URL :=
  let '(u, frag, _) := Cut rawURL "#" in
  match parse u false with
  | Err err => Err (url_Error "parse" u err)
  | Ok url =>
      if String.eqb frag EmptyString then Ok url
      else
        match setFragment url frag with
        | Err err => Err (url_Error "parse" rawURL err)
        | Ok url => Ok url
        end
  end.

(** [validEncoded s mode]. *)
Fixpoint validEncoded (s : string) (mode : encoding) : bool :=
  match s with
  | EmptyString => true
  | String c r =>
      if one_of c "!$&'()*+,;=:@[]%" then validEncoded r mode
      else if shouldEscape c mode then false
      else validEncoded r mode
  end.

Definition EscapedPath (u : URL) : string :=
  let raw_ok :=
    if negb (String.eqb (RawPath u) EmptyString) && validEncoded (RawPath u) encodePath
    then match unescape (RawPath u) encodePath with
         | Ok p => String.eqb p (Path u)
         | Err _ => false
         end
    else false in
  if raw_ok then RawPath u
  else if String.eqb (Path u) "*" then "*"
  else escape (Path u) encodePath.

Definition EscapedFragment (u : URL) : string :=
  let raw_ok :=
    if negb (String.eqb (RawFragment u) EmptyString)
       && validEncoded (RawFragment u) encodeFragment
    then match unescape (RawFragment u) encodeFragment with
         | Ok f => String.eqb f (Fragment u)
         | Err _ => false
         end
    else false in
  if raw_ok then RawFragment u
  else escape (Fragment u) encodeFragment.

(** The method [String] of [Userinfo]. *)
Definition Userinfo_String (ui : Userinfo) : string :=
  let s := escape (username ui) encodeUserPassword in
  if passwordSet ui then s +:+ ":" +:+ escape (password ui) encodeUserPassword
  else s.

(** The method [String] of [URL]: the parts are written to the builder in this order;
    [buf] is the builder after the scheme and authority. *)
Definition URL_String (u : URL) : string :=
  let buf :=
    if negb (String.eqb (Scheme u) EmptyString) then Scheme u +:+ ":"
    else EmptyString in
  let buf :=
    if negb (String.eqb (Opaque u) EmptyString) then buf +:+ Opaque u
    else
      let buf :=
        if negb (String.eqb (Scheme u) EmptyString)
           || negb (String.eqb (Host u) EmptyString)
           || (if User u is Some _ then true else false)
        then
          if OmitHost u && String.eqb (Host u) EmptyString
             && (if User u is Some _ then false else true)
          then buf
          else
            let buf :=
              if negb (String.eqb (Host u) EmptyString)
                 || negb (String.eqb (Path u) EmptyString)
                 || (if User u is Some _ then true else false)
              then buf +:+ "//" else buf in
            let buf :=
              match User u with
              | Some ui => buf +:+ Userinfo_String ui +:+ "@"
              | None => buf
              end in
            if negb (String.eqb (Host u) EmptyString)
            then buf +:+ escape (Host u) encodeHost
            else buf
        else buf in
      let path := EscapedPath u in
      let buf :=
        if negb (String.eqb path EmptyString) && negb (HasPrefix path "/")
           && negb (String.eqb (Host u) EmptyString)
        then buf +:+ "/" else buf in
      let buf :=
        if String.eqb buf EmptyString
           && Contains (fst (fst (Cut path "/"))) ":"
        then buf +:+ "./" else buf in
      buf +:+ path in
  let buf :=
    if ForceQuery u || negb (String.eqb (RawQuery u) EmptyString)
    then buf +:+ "?" +:+ RawQuery u else buf in
  if negb (String.eqb (Fragment u) EmptyString)
  then buf +:+ "#" +:+ EscapedFragment u
  else buf.

(** [splitHostPort hostPort]: the host without brackets, and the port. *)
Definition splitHostPort (hostPort : string) : string * string :=
  let colon := LastIndex hostPort ":" in
  let '(host, port) :=
    if negb (colon =? -1) && validOptionalPort (slice_from hostPort colon)
    then (slice_to hostPort colon, slice_from hostPort (colon + 1))
    else (hostPort, EmptyString) in
  let host :=
    if HasPrefix host "[" && HasSuffix host "]"
    then slice host 1 (len host - 1) else host in
  (host, port).

Definition Hostname (u : URL) : string := fst (splitHostPort (Host u)).
Definition Port (u : URL) : string := snd (splitHostPort (Host u)).

End url.

(** ** main.go: buildURL (lines 150-172) *)

Definition buildURL (rawURL path : string) (port : Z) : string * option error :=
  match url.Parse rawURL with
  | Err err => (EmptyString, Some (Errorf_parse_url err))
  | Ok u =>
      if String.eqb (url.Scheme u) EmptyString then (EmptyString, Some Errorf_no_scheme)
      else if negb (String.eqb (url.Scheme u) "ws") && negb (String.eqb (url.Scheme u) "wss")
      then (EmptyString, Some (Errorf_unsupported_scheme (url.Scheme u)))
      else if String.eqb (url.Host u) EmptyString then (EmptyString, Some Errorf_no_host)
      else
        let path := if negb (strings.HasPrefix path "/") then "/" +:+ path else path in
        let u := url.set_Path u path in
        let u :=
          if 0 <? port
          then url.set_Host u (JoinHostPort (url.Hostname u) (Itoa port))
          else u in
        (url.URL_String u, None)
  end.

(** ** Package encoding/json: Marshal of a map[string]string *)

Module json.

Definition hex : string := "0123456789abcdef".

Definition hexdigit (i : Z) : ascii :=
  match String.get (Z.to_nat i) hex with
  | Some c => c
  | None => "0"%char
  end.

(** [safeSet]: the ASCII bytes that need no escape in a JSON string. *)
Definition safeSet (b : ascii) : bool :=
  (0x20 <=? byte_of b) && (byte_of b <? 0x80)
  && negb (Ascii.eqb b dq) && negb (Ascii.eqb b bsl).

(** [htmlSafeSet]: the same without the three bytes escaped for HTML. *)
Definition htmlSafeSet (b : ascii) : bool :=
  safeSet b && negb (one_of b "<>&").

(** The escape that [appendString] writes for an ASCII byte outside the
    safe set (Go 1.21: backspace and form feed take the u-escape). *)
Definition escapeByte (b : ascii) : string :=
  if Ascii.eqb b bsl || Ascii.eqb b dq then String bsl (str b)
  else if Ascii.eqb b ch_nl then String bsl "n"
  else if Ascii.eqb b ch_cr then String bsl "r"
  else if Ascii.eqb b ch_tab then String bsl "t"
  else String bsl ("u00" +:+ String (hexdigit (Z.shiftr (byte_of b) 4))
                               (str (hexdigit (Z.land (byte_of b) 0xF)))).

(** The loop of [appendString] over [src[i:]].  [skip] counts the bytes of
    the rune decoded last that are still to pass; they are copied when [copy]
    is set (a valid rune) and dropped otherwise (U+2028 and U+2029, replaced
    by their escape). *)
Fixpoint appendString_loop (src : string) (skip : nat) (copy escapeHTML : bool)
    : string :=
  match src with
  | EmptyString => EmptyString
  | String b r =>
      match skip with
      | S k =>
          if copy then String b (appendString_loop r k copy escapeHTML)
          else appendString_loop r k copy escapeHTML
      | O =>
          if byte_of b <? utf8.RuneSelf then
            if htmlSafeSet b || (negb escapeHTML && safeSet b)
            then String b (appendString_loop r 0 true escapeHTML)
            else escapeByte b +:+ appendString_loop r 0 true escapeHTML
          else
            let '(c, size) := utf8.DecodeRuneInString (strings.take 4 src) in
            if (c =? utf8.RuneError) && (size =? 1)
            then String bsl "ufffd" +:+ appendString_loop r 0 true escapeHTML
            else if (c =? 0x2028) || (c =? 0x2029)
            then String bsl ("u202" +:+ str (hexdigit (Z.land c 0xF)))
                 +:+ appendString_loop r (Z.to_nat size - 1) false escapeHTML
            else String b (appendString_loop r (Z.to_nat size - 1) true escapeHTML)
      end
  end.

Definition appendString (src : string) (escapeHTML : bool) : string :=
  String dq (appendString_loop src 0 true escapeHTML) +:+ str dq.

(** The order of [slices.SortFunc] with [strings.Compare] on the keys. *)
Definition key_le (a b : string * string) : Prop := String.le a.1 b.1.

#[global] Instance key_le_dec : RelDecision key_le.
Proof. intros a b. unfold key_le. apply _. Defined.

(** The members of the object, after the sort: [key:value] separated by
    commas. *)
Fixpoint members (sv : list (string * string)) (i : Z) (escapeHTML : bool)
    : string :=
  match sv with
  | [] => EmptyString
  | kv :: rest =>
      (if 0 <? i then ","%string else EmptyString)
      +:+ appendString kv.1 escapeHTML +:+ ":"
      +:+ appendString kv.2 escapeHTML
      +:+ members rest (i + 1) escapeHTML
  end.

(** [mapEncoder.encode] on the entries of the map in the order in which the
    map iterator yields them, which Go leaves unspecified: the entries are
    sorted by key before they are written. *)
Definition mapEncoder_encode (iter : list (string * string)) (escapeHTML : bool)
    : string :=
  let sv := merge_sort key_le iter in
  "{" +:+ members sv 0 escapeHTML +:+ "}".

(** [Marshal v] for [v] of type map[string]string, given the order in which
    the runtime iterates over the entries; [None] is the nil map.  No branch
    of the encoder of this type reports an error. *)
Definition Marshal_iter (v : option (list (string * string)))
    : string * option error :=
  match v with
  | None => ("null"%string, None)
  | Some iter => (mapEncoder_encode iter true, None)
  end.

Definition Marshal (v : option (gmap string string)) : string * option error :=
  Marshal_iter (map_to_list <$> v).

End json.

(** ** Package encoding/json: the scanner, Valid and Indent *)

Module scanner.

(** The values that a step of the scanner returns. *)
Inductive scanCode :=
  | scanContinue
  | scanBeginLiteral
  | scanBeginObject
  | scanObjectKey
  | scanObjectValue
  | scanEndObject
  | scanBeginArray
  | scanArrayValue
  | scanEndArray
  | scanSkipSpace
  | scanEnd
  | scanError.

Definition scanCode_eqb (a b : scanCode) : bool :=
  match a, b with
  | scanContinue, scanContinue | scanBeginLiteral, scanBeginLiteral
  | scanBeginObject, scanBeginObject | scanObjectKey, scanObjectKey
  | scanObjectValue, scanObjectValue | scanEndObject, scanEndObject
  | scanBeginArray, scanBeginArray | scanArrayValue, scanArrayValue
  | scanEndArray, scanEndArray | scanSkipSpace, scanSkipSpace
  | scanEnd, scanEnd | scanError, scanError => true
  | _, _ => false
  end.

Inductive parseKind := parseObjectKey | parseObjectValue | parseArrayValue.

(** The step functions, by name. *)
Inductive stateFn :=
  | stateBeginValueOrEmpty | stateBeginValue | stateBeginStringOrEmpty
  | stateBeginString | stateEndValue | stateEndTop
  | stateInString | stateInStringEsc | stateInStringEscU | stateInStringEscU1
  | stateInStringEscU12 | stateInStringEscU123
  | stateNeg | state1 | state0 | stateDot | stateDot0 | stateE | stateESign | stateE0
  | stateT | stateTr | stateTru | stateF | stateFa | stateFal | stateFals
  | stateN | stateNu | stateNul
  | stateError.

(** The scanner; the top of the stack [parseState] is the head of the
    list. *)
Record scanner := mkScanner {
  step : stateFn;
  endTop : bool;
  parseState : list parseKind;
  err : option error;
  bytes : Z
}.

Definition maxNestingDepth : Z := 10000.

(** [newScanner()] after [reset]. *)
Definition newScanner : scanner := mkScanner stateBeginValue false [] None 0.

Definition set_step (s : scanner) (f : stateFn) : scanner :=
  mkScanner f (endTop s) (parseState s) (err s) (bytes s).
Definition set_parseState (s : scanner) (ps : list parseKind) : scanner :=
  mkScanner (step s) (endTop s) ps (err s) (bytes s).
Definition incr_bytes (s : scanner) : scanner :=
  mkScanner (step s) (endTop s) (parseState s) (err s) (bytes s + 1).

(** [s.error(c, context)]. *)
Definition error_ (s : scanner) (c : ascii) (context : string) : scanner * scanCode :=
  (mkScanner stateError (endTop s) (parseState s)
             (Some (SyntaxError (Some c) context (bytes s))) (bytes s),
   scanError).

Definition pushParseState (s : scanner) (c : ascii) (newParseState : parseKind)
    (successState : scanCode) : scanner * scanCode :=
  let s := set_parseState s (newParseState :: parseState s) in
  if Z.of_nat (length (parseState s)) <=? maxNestingDepth then (s, successState)
  else error_ s c "exceeded max depth".

Definition popParseState (s : scanner) : scanner :=
  let ps := tail (parseState s) in
  if Nat.eqb (length ps) 0
  then mkScanner stateEndTop true ps (err s) (bytes s)
  else mkScanner stateEndValue (endTop s) ps (err s) (bytes s).

Definition isSpace (c : ascii) : bool :=
  (byte_of c <=? byte_of " ")
  && (Ascii.eqb c " " || Ascii.eqb c ch_tab || Ascii.eqb c ch_cr || Ascii.eqb c ch_nl).

Definition is_digit (c : ascii) : bool := between "0" "9" c.

Definition is_hex (c : ascii) : bool :=
  between "0" "9" c || between "a" "f" c || between "A" "F" c.

(** Replaces the top of the stack: [s.parseState[n-1] = k]. *)
Definition set_top (s : scanner) (k : parseKind) : scanner :=
  set_parseState s (k :: tail (parseState s)).

Definition do_stateEndTop (s : scanner) (c : ascii) : scanner * scanCode :=
  if negb (isSpace c) then (fst (error_ s c "after top-level value"), scanEnd)
  else (s, scanEnd).

Definition do_stateEndValue (s : scanner) (c : ascii) : scanner * scanCode :=
  match parseState s with
  | [] =>
      do_stateEndTop (mkScanner stateEndTop true (parseState s) (err s) (bytes s)) c
  | ps :: _ =>
      if isSpace c then (set_step s stateEndValue, scanSkipSpace)
      else
        match ps with
        | parseObjectKey =>
            if Ascii.eqb c ":"
            then (set_step (set_top s parseObjectValue) stateBeginValue, scanObjectKey)
            else error_ s c "after object key"
        | parseObjectValue =>
            if Ascii.eqb c ","
            then (set_step (set_top s parseObjectKey) stateBeginString, scanObjectValue)
            else if Ascii.eqb c "}" then (popParseState s, scanEndObject)
            else error_ s c "after object key:value pair"
        | parseArrayValue =>
            if Ascii.eqb c "," then (set_step s stateBeginValue, scanArrayValue)
            else if Ascii.eqb c "]" then (popParseState s, scanEndArray)
            else error_ s c "after array element"
        end
  end.

Definition do_stateBeginValue (s : scanner) (c : ascii) : scanner * scanCode :=
  if isSpace c then (s, scanSkipSpace)
  else if Ascii.eqb c "{"
  then pushParseState (set_step s stateBeginStringOrEmpty) c parseObjectKey scanBeginObject
  else if Ascii.eqb c "["
  then pushParseState (set_step s stateBeginValueOrEmpty) c parseArrayValue scanBeginArray
  else if Ascii.eqb c dq then (set_step s stateInString, scanBeginLiteral)
  else if Ascii.eqb c "-" then (set_step s stateNeg, scanBeginLiteral)
  else if Ascii.eqb c "0" then (set_step s state0, scanBeginLiteral)
  else if Ascii.eqb c "t" then (set_step s stateT, scanBeginLiteral)
  else if Ascii.eqb c "f" then (set_step s stateF, scanBeginLiteral)
  else if Ascii.eqb c "n" then (set_step s stateN, scanBeginLiteral)
  else if between "1" "9" c then (set_step s state1, scanBeginLiteral)
  else error_ s c "looking for beginning of value".

Definition do_stateBeginValueOrEmpty (s : scanner) (c : ascii) : scanner * scanCode :=
  if isSpace c then (s, scanSkipSpace)
  else if Ascii.eqb c "]" then do_stateEndValue s c
  else do_stateBeginValue s c.

Definition do_stateBeginString (s : scanner) (c : ascii) : scanner * scanCode :=
  if isSpace c then (s, scanSkipSpace)
  else if Ascii.eqb c dq then (set_step s stateInString, scanBeginLiteral)
  else error_ s c "looking for beginning of object key string".

Definition do_stateBeginStringOrEmpty (s : scanner) (c : ascii) : scanner * scanCode :=
  if isSpace c then (s, scanSkipSpace)
  else if Ascii.eqb c "}" then do_stateEndValue (set_top s parseObjectValue) c
  else do_stateBeginString s c.

Definition do_stateInString (s : scanner) (c : ascii) : scanner * scanCode :=
  if Ascii.eqb c dq then (set_step s stateEndValue, scanContinue)
  else if Ascii.eqb c bsl then (set_step s stateInStringEsc, scanContinue)
  else if byte_of c <? 0x20 then error_ s c "in string literal"
  else (s, scanContinue).

Definition do_stateInStringEsc (s : scanner) (c : ascii) : scanner * scanCode :=
  if one_of c "bfnrt/" || Ascii.eqb c bsl || Ascii.eqb c dq
  then (set_step s stateInString, scanContinue)
  else if Ascii.eqb c "u" then (set_step s stateInStringEscU, scanContinue)
  else error_ s c "in string escape code".

(** The four steps over the hexadecimal digits of a u-escape. *)
Definition do_hex (next : stateFn) (s : scanner) (c : ascii) : scanner * scanCode :=
  if is_hex c then (set_step s next, scanContinue)
  else error_ s c "in \u hexadecimal character escape".

Definition do_state0 (s : scanner) (c : ascii) : scanner * scanCode :=
  if Ascii.eqb c "." then (set_step s stateDot, scanContinue)
  else if Ascii.eqb c "e" || Ascii.eqb c "E" then (set_step s stateE, scanContinue)
  else do_stateEndValue s c.

Definition do_state1 (s : scanner) (c : ascii) : scanner * scanCode :=
  if is_digit c then (set_step s state1, scanContinue)
  else do_state0 s c.

Definition do_stateNeg (s : scanner) (c : ascii) : scanner * scanCode :=
  if Ascii.eqb c "0" then (set_step s state0, scanContinue)
  else if between "1" "9" c then (set_step s state1, scanContinue)
  else error_ s c "in numeric literal".

Definition do_stateDot (s : scanner) (c : ascii) : scanner * scanCode :=
  if is_digit c then (set_step s stateDot0, scanContinue)
  else error_ s c "after decimal point in numeric literal".

Definition do_stateDot0 (s : scanner) (c : ascii) : scanner * scanCode :=
  if is_digit c then (s, scanContinue)
  else if Ascii.eqb c "e" || Ascii.eqb c "E" then (set_step s stateE, scanContinue)
  else do_stateEndValue s c.

Definition do_stateESign (s : scanner) (c : ascii) : scanner * scanCode :=
  if is_digit c then (set_step s stateE0, scanContinue)
  else error_ s c "in exponent of numeric literal".

Definition do_stateE (s : scanner) (c : ascii) : scanner * scanCode :=
  if Ascii.eqb c "+" || Ascii.eqb c "-" then (set_step s stateESign, scanContinue)
  else do_stateESign s c.

Definition do_stateE0 (s : scanner) (c : ascii) : scanner * scanCode :=
  if is_digit c then (s, scanContinue)
  else do_stateEndValue s c.

(** The steps inside the literals true, false and null: the byte [want]
    leads to [next]. *)
Definition do_lit (want : ascii) (next : stateFn) (context : string)
    (s : scanner) (c : ascii) : scanner * scanCode :=
  if Ascii.eqb c want then (set_step s next, scanContinue)
  else error_ s c context.

(** [s.step(s, c)]: the step function that the scanner holds, applied. *)
Definition apply_step (s : scanner) (c : ascii) : scanner * scanCode :=
  match step s with
  | stateBeginValueOrEmpty => do_stateBeginValueOrEmpty s c
  | stateBeginValue => do_stateBeginValue s c
  | stateBeginStringOrEmpty => do_stateBeginStringOrEmpty s c
  | stateBeginString => do_stateBeginString s c
  | stateEndValue => do_stateEndValue s c
  | stateEndTop => do_stateEndTop s c
  | stateInString => do_stateInString s c
  | stateInStringEsc => do_stateInStringEsc s c
  | stateInStringEscU => do_hex stateInStringEscU1 s c
  | stateInStringEscU1 => do_hex stateInStringEscU12 s c
  | stateInStringEscU12 => do_hex stateInStringEscU123 s c
  | stateInStringEscU123 => do_hex stateInString s c
  | stateNeg => do_stateNeg s c
  | state1 => do_state1 s c
  | state0 => do_state0 s c
  | stateDot => do_stateDot s c
  | stateDot0 => do_stateDot0 s c
  | stateE => do_stateE s c
  | stateESign => do_stateESign s c
  | stateE0 => do_stateE0 s c
  | stateT => do_lit "r" stateTr "in literal true (expecting 'r')" s c
  | stateTr => do_lit "u" stateTru "in literal true (expecting 'u')" s c
  | stateTru => do_lit "e" stateEndValue "in literal true (expecting 'e')" s c
  | stateF => do_lit "a" stateFa "in literal false (expecting 'a')" s c
  | stateFa => do_lit "l" stateFal "in literal false (expecting 'l')" s c
  | stateFal => do_lit "s" stateFals "in literal false (expecting 's')" s c
  | stateFals => do_lit "e" stateEndValue "in literal false (expecting 'e')" s c
  | stateN => do_lit "u" stateNu "in literal null (expecting 'u')" s c
  | stateNu => do_lit "l" stateNul "in literal null (expecting 'l')" s c
  | stateNul => do_lit "l" stateEndValue "in literal null (expecting 'l')" s c
  | stateError => (s, scanError)
  end.

(** [s.eof()]. *)
Definition eof (s : scanner) : scanner * scanCode :=
  match err s with
  | Some _ => (s, scanError)
  | None =>
      if endTop s then (s, scanEnd)
      else
        let s := fst (apply_step s " ") in
        if endTop s then (s, scanEnd)
        else
          match err s with
          | Some _ => (s, scanError)
          | None =>
              (mkScanner (step s) (endTop s) (parseState s)
                 (Some (SyntaxError None "unexpected end of JSON input" (bytes s)))
                 (bytes s),
               scanError)
          end
  end.

(** The loop of [checkValid] over [data]. *)
Fixpoint checkValid_loop (s : scanner) (data : string) : scanner * option error :=
  match data with
  | EmptyString => (s, None)
  | String c r =>
      let '(s, v) := apply_step (incr_bytes s) c in
      if scanCode_eqb v scanError then (s, err s)
      else checkValid_loop s r
  end.

Definition checkValid (data : string) : option error :=
  match checkValid_loop newScanner data with
  | (s, Some e) => Some e
  | (s, None) =>
      let '(s, v) := eof s in
      if scanCode_eqb v scanError then err s else None
  end.

(** [json.Valid data]. *)
Definition Valid (data : string) : bool :=
  match checkValid data with
  | None => true
  | Some _ => false
  end.

Fixpoint repeat_string (n : nat) (s : string) : string :=
  match n with
  | O => EmptyString
  | S n' => s +:+ repeat_string n' s
  end.

Definition appendNewline (dst prefix indent : string) (depth : Z) : string :=
  dst +:+ nl +:+ prefix +:+ repeat_string (Z.to_nat depth) indent.

(** The loop of [appendIndent] over [src]: the scanner, [needIndent],
    [depth] and [dst] after the loop. *)
Fixpoint appendIndent_loop (src : string) (scan : scanner) (needIndent : bool)
    (depth : Z) (dst prefix indent : string) : scanner * string :=
  match src with
  | EmptyString => (scan, dst)
  | String c r =>
      let '(scan, v) := apply_step (incr_bytes scan) c in
      if scanCode_eqb v scanSkipSpace
      then appendIndent_loop r scan needIndent depth dst prefix indent
      else if scanCode_eqb v scanError then (scan, dst)
      else
        let '(needIndent, depth, dst) :=
          if needIndent && negb (scanCode_eqb v scanEndObject)
             && negb (scanCode_eqb v scanEndArray)
          then (false, depth + 1, appendNewline dst prefix indent (depth + 1))
          else (needIndent, depth, dst) in
        if scanCode_eqb v scanContinue
        then appendIndent_loop r scan needIndent depth (dst +:+ str c) prefix indent
        else if Ascii.eqb c "{" || Ascii.eqb c "["
        then appendIndent_loop r scan true depth (dst +:+ str c) prefix indent
        else if Ascii.eqb c ","
        then appendIndent_loop r scan needIndent depth
               (appendNewline (dst +:+ str c) prefix indent depth) prefix indent
        else if Ascii.eqb c ":"
        then appendIndent_loop r scan needIndent depth (dst +:+ ": ") prefix indent
        else if Ascii.eqb c "}" || Ascii.eqb c "]"
        then
          if needIndent
          then appendIndent_loop r scan false depth (dst +:+ str c) prefix indent
          else appendIndent_loop r scan needIndent (depth - 1)
                 (appendNewline dst prefix indent (depth - 1) +:+ str c) prefix indent
        else appendIndent_loop r scan needIndent depth (dst +:+ str c) prefix indent
  end.

(** [appendIndent dst src prefix indent] for an empty [dst]. *)
Definition appendIndent (src prefix indent : string) : string * option error :=
  let '(scan, dst) :=
    appendIndent_loop src newScanner false 0 EmptyString prefix indent in
  let '(scan, v) := eof scan in
  if scanCode_eqb v scanError then (EmptyString, err scan)
  else (dst, None).

(** [json.Indent(&dst, src, prefix, indent)] on an empty buffer: what is
    written to the buffer, and the error. *)
Definition Indent (src prefix indent : string) : string * option error :=
  appendIndent src prefix indent.

End scanner.

(** ** main.go: printMessage (lines 174-181); the result is what it writes
    to standard output *)

Definition printMessage (msg : string) : string :=
  match scanner.Indent msg EmptyString "  " with
  | (formatted, None) => "recv:" +:+ nl +:+ formatted +:+ nl
  | (_, Some _) => "recv: " +:+ msg +:+ nl
  end.

(** ** Package websocket (github.com/gorilla/websocket): what run uses *)

Module websocket.

Definition TextMessage : Z := 1.
Definition CloseMessage : Z := 8.
Definition CloseNormalClosure : Z := 1000.
Definition CloseNoStatusReceived : Z := 1005.

(** [FormatCloseMessage closeCode text]: the close code in two bytes, big
    endian, and the text. *)
Definition FormatCloseMessage (closeCode : Z) (text : string) : string :=
  if closeCode =? CloseNoStatusReceived then EmptyString
  else String (ascii_of (Z.land (Z.shiftr closeCode 8) 0xFF))
         (String (ascii_of (Z.land closeCode 0xFF)) text).

(** [tls.Config], the field that run sets. *)
Record tlsConfig := mkTLS { InsecureSkipVerify : bool }.

Record Dialer := mkDialer {
  HandshakeTimeout : Z;
  TLSClientConfig : option tlsConfig
}.

(** What [Dial] returns: the error, or the connection with the response
    status ([None] for a nil response). *)
Inductive dialResult :=
  | DialErr (e : error)
  | DialOk (resp : option string).

End websocket.

(** [time.Second], in nanoseconds. *)
Definition Second : Z := 1000000000.

(** ** main.go: run (lines 81-148)

    [run] talks to the network and runs two tasks.  It is embedded as a
    machine: [run_prepare] is the part before the dial, which has no effect;
    from there each step of the main task or of the receive task performs one
    call of the source and records it as an event.  What the environment
    decides (the result of a dial, write or read, which task runs next, and
    whether the timer of the select has fired) is the input of the step. *)

Inductive task := Main | Recv.

(** The lines written to standard error. *)
Inductive diag :=
  | Connected (status : string)     (* connected: %s *)
  | ReadFinished (e : error)        (* read finished: %v *)
  | NoMoreMessages (d : Z).         (* no more messages within %s; closing connection *)

Inductive event :=
  | EvDial (fullURL : string) (d : websocket.Dialer) (r : websocket.dialResult)
  | EvStderr (who : task) (d : diag)
  | EvStdout (who : task) (s : string)
  | EvWriteMessage (messageType : Z) (payload : string) (r : option error)
  | EvGo                                   (* the go statement of line 118 *)
  | EvReadMessage (r : error + string)
  | EvCloseDone                            (* close(done), deferred in the receive task *)
  | EvTimer (d : Z)                        (* the select takes the case of time.After(d) *)
  | EvWriteControl (messageType : Z) (payload : string) (deadlineFromNow : Z)
                   (r : option error)
  | EvConnClose.                           (* conn.Close(), deferred in run *)

(** Lines 82-100: the URL, the flag check, the payload and the dialer. *)
Definition run_prepare (opts : options)
    : error + (string * string * websocket.Dialer) :=
  match buildURL (baseURL opts) (path opts) (port opts) with
  | (_, Some err) => inl err
  | (fullURL, None) =>
      if insecureTLS opts && negb (strings.HasPrefix fullURL "wss://")
      then inl Errorf_insecure
      else
        match json.Marshal (data opts) with
        | (_, Some err) => inl (Errorf_marshal err)
        | (payload, None) =>
            let dialer := websocket.mkDialer (dialTimeout opts) None in
            let dialer :=
              if strings.HasPrefix fullURL "wss://"
              then websocket.mkDialer (websocket.HandshakeTimeout dialer)
                     (Some (websocket.mkTLS (insecureTLS opts)))
              else dialer in
            inr (fullURL, payload, dialer)
        end
  end.

(** Where the main task stands. *)
Inductive mainState :=
  | MStart                                     (* line 82 *)
  | MDial (fullURL payload : string) (dialer : websocket.Dialer)  (* line 102 *)
  | MConnected (payload : string) (resp : option string)          (* line 108 *)
  | MSend (payload : string)                   (* line 112 *)
  | MSent (payload : string)                   (* line 115 *)
  | MGo                                        (* lines 117-118 *)
  | MWait                                      (* line 131: the select, or line 144 *)
  | MTimedOut                                  (* line 135 *)
  | MCloseFrame                                (* line 136 *)
  | MWaitDone                                  (* line 141 *)
  | MDeferred (r : option error)               (* returning r: the deferred conn.Close() *)
  | MReturned (r : option error).

(** Where the receive task stands. *)
Inductive recvState :=
  | RIdle                                      (* not started *)
  | RRead                                      (* line 121 *)
  | RPrint (msg : string)                      (* line 127 *)
  | RFinish (e : error)                        (* line 124 *)
  | RClosing                                   (* the deferred close(done) *)
  | RDone.

Record state := mkState {
  mainSt : mainState;
  recvSt : recvState;
  done : bool;                                 (* the channel done is closed *)
  trace : list event                           (* the events so far, oldest first *)
}.

Definition init : state := mkState MStart RIdle false [].

Inductive input :=
  | IMain                        (* the main task takes its next step *)
  | IDial (r : websocket.dialResult)   (* Dial returns r *)
  | IWrite (r : option error)    (* WriteMessage or WriteControl returns r *)
  | ITimer                       (* the timer is ready and the select takes its case *)
  | IRecv                        (* the receive task takes its next step *)
  | IRead (r : error + string).  (* ReadMessage returns r *)

Definition main_to (st : state) (m : mainState) (evs : list event) : option state :=
  Some (mkState m (recvSt st) (done st) (trace st ++ evs)).

Definition recv_to (st : state) (r : recvState) (d : bool) (evs : list event)
    : option state :=
  Some (mkState (mainSt st) r d (trace st ++ evs)).

(** One step; [None] when the input does not fit the state (a task that is
    blocked, or that has ended). *)
Definition step (opts : options) (st : state) (i : input) : option state :=
  match mainSt st, i with
  | MReturned _, _ => None                     (* the process has exited *)
  | MStart, IMain =>
      match run_prepare opts with
      | inl err => main_to st (MReturned (Some err)) []
      | inr (fullURL, payload, dialer) => main_to st (MDial fullURL payload dialer) []
      end
  | MDial fullURL payload dialer, IDial r =>
      match r with
      | websocket.DialErr err =>
          main_to st (MReturned (Some (Errorf_dial fullURL err)))
                  [EvDial fullURL dialer r]
      | websocket.DialOk resp =>
          main_to st (MConnected payload resp) [EvDial fullURL dialer r]
      end
  | MConnected payload resp, IMain =>
      match resp with
      | Some status => main_to st (MSend payload) [EvStderr Main (Connected status)]
      | None => main_to st (MSend payload) []
      end
  | MSend payload, IWrite r =>
      match r with
      | Some err =>
          main_to st (MDeferred (Some (Errorf_send err)))
                  [EvWriteMessage websocket.TextMessage payload r]
      | None => main_to st (MSent payload) [EvWriteMessage websocket.TextMessage payload r]
      end
  | MSent payload, IMain =>
      main_to st MGo [EvStdout Main ("sent: " +:+ payload +:+ nl)]
  | MGo, IMain =>
      Some (mkState MWait RRead (done st) (trace st ++ [EvGo]))
  | MWait, IMain =>
      if done st then main_to st (MDeferred None) [] else None
  | MWait, ITimer =>
      if 0 <? readTimeout opts
      then main_to st MTimedOut [EvTimer (readTimeout opts)]
      else None
  | MTimedOut, IMain =>
      main_to st MCloseFrame [EvStderr Main (NoMoreMessages (readTimeout opts))]
  | MCloseFrame, IWrite r =>
      main_to st MWaitDone
        [EvWriteControl websocket.CloseMessage
           (websocket.FormatCloseMessage websocket.CloseNormalClosure "timeout")
           Second r]
  | MWaitDone, IMain =>
      if done st then main_to st (MDeferred None) [] else None
  | MDeferred r, IMain => main_to st (MReturned r) [EvConnClose]
  | _, IRecv =>
      match recvSt st with
      | RPrint msg => recv_to st RRead (done st) [EvStdout Recv (printMessage msg)]
      | RFinish e => recv_to st RClosing (done st) [EvStderr Recv (ReadFinished e)]
      | RClosing => recv_to st RDone true [EvCloseDone]
      | _ => None
      end
  | _, IRead r =>
      match recvSt st with
      | RRead =>
          match r with
          | inl e => recv_to st (RFinish e) (done st) [EvReadMessage r]
          | inr msg => recv_to st (RPrint msg) (done st) [EvReadMessage r]
          end
      | _ => None
      end
  | _, _ => None
  end.

(** The state after a schedule, from [st]. *)
Fixpoint exec (opts : options) (st : state) (inputs : list input) : option state :=
  match inputs with
  | [] => Some st
  | i :: rest =>
      match step opts st i with
      | Some st' => exec opts st' rest
      | None => None
      end
  end.

(** [run opts] under a schedule: the state that the schedule leads to, from
    the call of run; [None] when the schedule does not fit the program.  The
    value that run returns is the one of [MReturned]. *)
Definition run (opts : options) (inputs : list input) : option state :=
  exec opts init inputs.

(** The exit status that main gives (lines 29-41) to what parseFlags and
    run return. *)
Definition exit_status (flagsErr : option error) (runErr : option error) : Z :=
  match flagsErr with
  | Some _ => 2
  | None =>
      match runErr with
      | Some _ => 1
      | None => 0
      end
  end.

(** main (lines 29-41) under a schedule: the exit status of the process;
    [None] when parseFlags panics or run has not returned at the end of the
    schedule.  [flags] and [args] are what the flag package gives to
    parseFlags. *)
Definition main (flags : options) (args : list string) (inputs : list input)
    : option Z :=
  match parseFlags flags args with
  | None => None
  | Some (_, Some err) => Some (exit_status (Some err) None)
  | Some (opts, None) =>
      match run opts inputs with
      | Some st =>
          match mainSt st with
          | MReturned r => Some (exit_status None r)
          | _ => None
          end
      | None => None
      end
  end.

(** ** main.go from the command line

    The options before [flag.Parse] hold the defaults of lines 46-51. *)

Definition defaults : options :=
  mkOptions EmptyString EmptyString 0 (10 * Second) (10 * Second) None false.

Section command_line.
Variable ParseInt : string -> option Z.
Variable ParseDuration : string -> option Z.

(** parseFlags (lines 43-79) on [os.Args[1:]]: what it returns, or the exit
    status with which [flag.Parse] ends the process; [None] is a panic. *)
Definition parseFlags_argv (argv : list string)
    : option (options * option error + Z) :=
  match flag.Parse ParseInt ParseDuration defaults argv with
  | None => None
  | Some (inr e) => Some (inr (flag.exit_code e))
  | Some (inl (opts, args)) =>
      match parseFlags opts args with
      | None => None
      | Some r => Some (inl r)
      end
  end.

(** The exit status of the process started with [argv], under a schedule. *)
Definition main_argv (argv : list string) (inputs : list input) : option Z :=
  match flag.Parse ParseInt ParseDuration defaults argv with
  | None => None
  | Some (inr e) => Some (flag.exit_code e)
  | Some (inl (opts, args)) => main opts args inputs
  end.

End command_line.

(** * Properties *)

#[local] Arguments String.append !s1 s2 : simpl nomatch.

(** ** Strings *)

Module strings_facts.
Import strings.

Lemma app_nil_r (s : string) : s +:+ EmptyString = s.
Proof. induction s; simpl; congruence. Qed.

Lemma app_assoc (a b c : string) : (a +:+ b) +:+ c = a +:+ (b +:+ c).
Proof. induction a; simpl; congruence. Qed.

Lemma length_app (a b : string) :
  String.length (a +:+ b) = (String.length a + String.length b)%nat.
Proof. induction a; simpl; [reflexivity | now f_equal]. Qed.

Lemma take_app (a b : string) : take (String.length a) (a +:+ b) = a.
Proof. induction a; simpl; congruence. Qed.

Lemma drop_app (a b : string) : drop (String.length a) (a +:+ b) = b.
Proof. induction a; simpl; congruence. Qed.



Lemma HasPrefix_app (p s : string) : HasPrefix (p +:+ s) p = true.
Proof. induction p; simpl; [reflexivity|]. now rewrite Ascii.eqb_refl. Qed.


Lemma HasPrefix_byte (c d : ascii) (r : string) :
  HasPrefix (String d r) (str c) = Ascii.eqb d c.
Proof. simpl. apply andb_true_r. Qed.

(** [Index] for a one-byte separator, one step. *)
Lemma Index_byte_cons (c d : ascii) (r : string) :
  Index (String d r) (str c) =
    if Ascii.eqb d c then 0
    else let i := Index r (str c) in if i <? 0 then -1 else 1 + i.
Proof.
  change (Index (String d r) (str c)) with
    (if HasPrefix (String d r) (str c) then 0
     else let i := Index r (str c) in if i <? 0 then -1 else 1 + i).
  now rewrite HasPrefix_byte.
Qed.

Lemma Index_range (s sub : string) : -1 <= Index s sub <= len s.
Proof.
  unfold len. induction s as [|d r IH]; simpl.
  - destruct (HasPrefix _ _); lia.
  - destruct (HasPrefix _ _); [lia|].
    destruct (Z.ltb_spec (Index r sub) 0); lia.
Qed.

(** The index of the first [c] of [name ++ c :: value] when [name] has no
    [c] is the length of [name]. *)
Lemma Index_app_first (c : ascii) (name value : string) :
  Contains name (str c) = false ->
  Index (name +:+ String c value) (str c) = len name.
Proof.
  unfold Contains, len. induction name as [|d r IH]; intros H.
  - simpl. now rewrite Ascii.eqb_refl.
  - rewrite Index_byte_cons in H. simpl String.append.
    rewrite Index_byte_cons.
    destruct (Ascii.eqb d c); [discriminate|]. cbv zeta in *.
    pose proof (Index_range r (str c)).
    destruct (Z.ltb_spec (Index r (str c)) 0).
    + rewrite IH by (apply Z.leb_gt; lia).
      destruct (Z.ltb_spec (Z.of_nat (String.length r)) 0); simpl String.length; lia.
    + apply Z.leb_gt in H. lia.
Qed.

(** A string that contains [c] is cut at its first [c]. *)
Lemma Contains_split (c : ascii) (s : string) :
  Contains s (str c) = true ->
  exists name value,
    s = name +:+ String c value /\ Contains name (str c) = false.
Proof.
  unfold Contains. induction s as [|d r IH]; intros H.
  - discriminate.
  - rewrite Index_byte_cons in H.
    destruct (Ascii.eqb_spec d c) as [->|Hne].
    + exists EmptyString, r. split; reflexivity.
    + cbv zeta in H. destruct (Z.ltb_spec (Index r (str c)) 0); [discriminate|].
      destruct IH as (name & value & -> & Hn); [apply Z.leb_le; lia|].
      exists (String d name), value. split; [reflexivity|].
      rewrite Index_byte_cons.
      apply Ascii.eqb_neq in Hne. rewrite Hne. cbv zeta.
      apply Z.leb_gt in Hn.
      destruct (Z.ltb_spec (Index name (str c)) 0); lia.
Qed.

Lemma Contains_app_byte (c : ascii) (name value : string) :
  Contains (name +:+ String c value) (str c) = true.
Proof.
  unfold Contains. induction name as [|d r IH]; simpl String.append.
  - rewrite Index_byte_cons, Ascii.eqb_refl. reflexivity.
  - rewrite Index_byte_cons. destruct (Ascii.eqb d c); [reflexivity|].
    cbv zeta. apply Z.leb_le in IH.
    destruct (Z.ltb_spec (Index (r +:+ String c value) (str c)) 0); lia.
Qed.

(** [SplitN s sep 2] cuts at the first separator only. *)
Lemma SplitN_2_first (c : ascii) (name value : string) :
  Contains name (str c) = false ->
  SplitN (name +:+ String c value) (str c) 2 = [name; value].
Proof.
  intros Hn. unfold SplitN, len.
  change (2 =? 0) with false. change (2 <? 0) with false. cbv iota.
  rewrite length_app. simpl String.length.
  destruct (Z.ltb_spec (Z.of_nat (String.length name + S (String.length value)) + 1) 2);
    [lia|].
  change (Z.to_nat (2 - 1)) with 1%nat. simpl genSplit.
  rewrite (Index_app_first c name value Hn).
  unfold len at 1. destruct (Z.ltb_spec (Z.of_nat (String.length name)) 0); [lia|].
  unfold slice_to, slice_from, len. simpl String.length.
  replace (Z.to_nat (Z.of_nat (String.length name) + Z.of_nat 1))
    with (String.length (name +:+ str c)) by (rewrite length_app; simpl; lia).
  rewrite Nat2Z.id, take_app.
  replace (name +:+ String c value) with ((name +:+ str c) +:+ value)
    by (rewrite app_assoc; reflexivity).
  now rewrite drop_app.
Qed.

End strings_facts.

(** ** parseFlags *)

Section parseFlags_facts.
Import strings.

Definition eq_sign : ascii := "="%char.

(** A token [name=value] whose left side has no [=]. *)
Definition token (name value : string) : string := name +:+ String eq_sign value.

(** One round of the loop on a token without [=]. *)
Lemma parseFlags_loop_no_eq (d : gmap string string) (arg : string) (rest : list string) :
  Contains arg "=" = false ->
  parseFlags_loop d (arg :: rest) = Some (d, Some (Errorf_invalid_data arg)).
Proof. intros H. simpl. now rewrite H. Qed.

(** One round of the loop on a token cut at its first [=]. *)
Lemma parseFlags_loop_token (d : gmap string string) (name value : string)
    (rest : list string) :
  Contains name "=" = false ->
  parseFlags_loop d (token name value :: rest) =
    if String.eqb (TrimSpace name) EmptyString
    then Some (d, Some (Errorf_missing_name (token name value)))
    else parseFlags_loop (<[name := value]> d) rest.
Proof.
  intros Hn. cbn [parseFlags_loop]. unfold token.
  change "="%string with (str eq_sign).
  rewrite strings_facts.Contains_app_byte. cbn [negb].
  rewrite (strings_facts.SplitN_2_first eq_sign name value Hn).
  reflexivity.
Qed.

(** The loop never indexes [parts] out of range: it returns for every list
    of arguments. *)
Lemma parseFlags_loop_total (args : list string) :
  forall d : gmap string string, parseFlags_loop d args <> None.
Proof.
  induction args as [|arg rest IH]; intros d; [discriminate|].
  destruct (Contains arg "=") eqn:E.
  - destruct (strings_facts.Contains_split eq_sign arg E) as (name & value & -> & Hn).
    fold (token name value). rewrite parseFlags_loop_token by exact Hn.
    destruct (String.eqb (TrimSpace name) EmptyString); [discriminate|apply IH].
  - rewrite parseFlags_loop_no_eq by exact E. discriminate.
Qed.

Lemma parseFlags_total (opts : options) (args : list string) :
  exists o e, parseFlags opts args = Some (o, e).
Proof.
  unfold parseFlags.
  destruct (String.eqb (baseURL opts) EmptyString); [eauto|].
  destruct (String.eqb (path opts) EmptyString); [eauto|].
  pose proof (parseFlags_loop_total args ∅) as H.
  destruct (parseFlags_loop ∅ args) as [[d e]|]; [eauto|contradiction].
Qed.

(** The flag values of the README's example, with the default timeouts. *)
Definition example_opts : options :=
  mkOptions "ws://localhost" "/chat" 9000 10000000000 10000000000 None false.

(** A name that passes both checks of the loop. *)
Definition good_name (name : string) : Prop :=
  Contains name "=" = false /\ TrimSpace name <> EmptyString.

Definition tokens (kvs : list (string * string)) : list string :=
  map (fun kv => token kv.1 kv.2) kvs.

Definition store (d : gmap string string) (kvs : list (string * string))
    : gmap string string :=
  foldl (fun m kv => <[kv.1 := kv.2]> m) d kvs.

(** The loop over well-formed tokens stores every pair, in order. *)
Lemma parseFlags_loop_tokens (kvs : list (string * string)) :
  forall d : gmap string string,
  Forall (fun kv => good_name kv.1) kvs ->
  parseFlags_loop d (tokens kvs) = Some (store d kvs, None).
Proof.
  induction kvs as [|[k v] kvs IH]; intros d Hall; [reflexivity|].
  apply Forall_cons in Hall as [[Hk Ht] Hall]. simpl in Hk, Ht.
  cbn [tokens map fst snd]. rewrite parseFlags_loop_token by exact Hk.
  apply String.eqb_neq in Ht. rewrite Ht. apply IH, Hall.
Qed.

Lemma store_lookup_last (post : list (string * string)) :
  forall (d : gmap string string) (name : string),
  name ∉ post.*1 -> store d post !! name = d !! name.
Proof.
  induction post as [|[k v] post IH]; intros d name Hnot; [reflexivity|].
  cbn [store foldl fst snd]. rewrite fmap_cons in Hnot.
  apply not_elem_of_cons in Hnot as [Hne Hnot]. simpl in Hne.
  fold (store (<[k:=v]> d) post). rewrite IH by exact Hnot.
  now rewrite lookup_insert_ne.
Qed.

Lemma store_app (d : gmap string string) (l1 l2 : list (string * string)) :
  store d (l1 ++ l2) = store (store d l1) l2.
Proof. unfold store. apply foldl_app. Qed.

Lemma no_entry (l : list (string * string)) (k : string) :
  k ∉ l.*1 -> filter (fun kv => kv.1 = k) l = [].
Proof.
  induction l as [|[k' v'] l IH]; intros Hnot; [reflexivity|].
  rewrite fmap_cons in Hnot. apply not_elem_of_cons in Hnot as [Hne Hnot].
  rewrite filter_cons. simpl in *. rewrite decide_False by congruence. auto.
Qed.

(** In a list without repeated keys a bound key has one entry. *)
Lemma one_entry (l : list (string * string)) (k v : string) :
  NoDup l.*1 -> (k, v) ∈ l ->
  length (filter (fun kv => kv.1 = k) l) = 1%nat.
Proof.
  induction l as [|[k' v'] l IH]; intros Hnd Hin.
  - now apply elem_of_nil in Hin.
  - rewrite fmap_cons in Hnd. apply NoDup_cons in Hnd as [Hk' Hnd].
    rewrite filter_cons. simpl in *.
    apply elem_of_cons in Hin as [Heq|Hin].
    + injection Heq as <- <-. rewrite decide_True by reflexivity.
      simpl. now rewrite no_entry.
    + rewrite decide_False.
      * now apply IH.
      * intros ->. apply Hk'. apply list_elem_of_fmap. now exists (k, v).
Qed.

End parseFlags_facts.

(** C3: a trailing token without [=] is rejected with the invalid-data error;
    a token with [=] is cut at its first [=] only, rejected with the
    missing-name error when the left side is empty after trimming white space,
    and stored as (left side, right side) otherwise.  [user=alice] gives the
    pair (user, alice), [a=b=c] gives (a, b=c), [novalue] and [=x] fail. *)
Theorem C3_parse_token :
  (forall (d : gmap string string) arg rest,
     strings.Contains arg "=" = false ->
     parseFlags_loop d (arg :: rest) = Some (d, Some (Errorf_invalid_data arg)))
  /\ (forall (d : gmap string string) arg rest,
       strings.Contains arg "=" = true ->
       exists name value,
         arg = token name value /\ strings.Contains name "=" = false /\
         parseFlags_loop d (arg :: rest) =
           if String.eqb (strings.TrimSpace name) EmptyString
           then Some (d, Some (Errorf_missing_name arg))
           else parseFlags_loop (<[name := value]> d) rest)
  /\ parseFlags example_opts ["user=alice"]
       = Some (set_data example_opts {["user" := "alice"]}, None)
  /\ parseFlags example_opts ["a=b=c"]
       = Some (set_data example_opts {["a" := "b=c"]}, None)
  /\ parseFlags example_opts ["novalue"]
       = Some (set_data example_opts ∅, Some (Errorf_invalid_data "novalue"))
  /\ parseFlags example_opts ["=x"]
       = Some (set_data example_opts ∅, Some (Errorf_missing_name "=x")).
Proof.
  repeat apply conj.
  - intros d arg rest H. now apply parseFlags_loop_no_eq.
  - intros d arg rest H.
    destruct (strings_facts.Contains_split eq_sign arg H) as (name & value & -> & Hn).
    exists name, value. split; [reflexivity|]. split; [exact Hn|].
    now apply parseFlags_loop_token.
  - reflexivity.
  - reflexivity.
  - reflexivity.
  - reflexivity.
Qed.

(** C10: over well-formed tokens the loop succeeds; a name given several
    times is bound once, to the value of its last token; the key stored is the
    left side as written, white space included. *)
Theorem C10_duplicate_names_last_wins :
  (forall (d : gmap string string) pre name value post,
     Forall (fun kv => good_name kv.1) (pre ++ (name, value) :: post) ->
     name ∉ post.*1 ->
     exists m : gmap string string,
       parseFlags_loop d (tokens (pre ++ (name, value) :: post)) = Some (m, None)
       /\ m !! name = Some value
       /\ length (filter (fun kv => kv.1 = name) (map_to_list m)) = 1%nat)
  /\ (exists m : gmap string string,
       parseFlags example_opts ["k=1"; "x=2"; "k=3"]
         = Some (set_data example_opts m, None)
       /\ m !! "k" = Some "3" /\ m !! "x" = Some "2" /\ size m = 2%nat)
  /\ (exists m : gmap string string,
       parseFlags example_opts [" a =1"] = Some (set_data example_opts m, None)
       /\ strings.TrimSpace " a " = "a"
       /\ m !! " a " = Some "1" /\ m !! "a" = None).
Proof.
  split; [|split].
  - intros d pre name value post Hall Hnot.
    exists (store d (pre ++ (name, value) :: post)).
    assert (Hl : store d (pre ++ (name, value) :: post) !! name = Some value).
    { rewrite store_app. cbn [store foldl fst snd].
      fold (store (<[name:=value]> (store d pre)) post).
      rewrite store_lookup_last by exact Hnot. apply lookup_insert_eq. }
    split; [now apply parseFlags_loop_tokens|]. split; [exact Hl|].
    apply (one_entry _ name value).
    + apply NoDup_fst_map_to_list.
    + now apply elem_of_map_to_list.
  - eexists. split; [reflexivity|]. repeat apply conj; vm_compute; reflexivity.
  - eexists. split; [reflexivity|]. repeat apply conj; vm_compute; reflexivity.
Qed.

(** The general part of C10 at two tokens with the same name. *)
Lemma C10_witness :
  exists m : gmap string string,
    parseFlags_loop ∅ (tokens ([("k", "1")] ++ ("k", "3") :: [])) = Some (m, None)
    /\ m !! "k" = Some "3"
    /\ length (filter (fun kv => kv.1 = "k") (map_to_list m)) = 1%nat.
Proof.
  apply (proj1 C10_duplicate_names_last_wins ∅ [("k", "1")] "k" "3" []).
  - repeat constructor; vm_compute; congruence.
  - apply not_elem_of_nil.
Defined.

(** The general parts of C3 at [novalue] and at [a=b=c]. *)
Lemma C3_witness :
  parseFlags_loop ∅ ["novalue"] = Some (∅, Some (Errorf_invalid_data "novalue"))
  /\ exists name value,
       "a=b=c" = token name value /\ strings.Contains name "=" = false /\
       parseFlags_loop ∅ ["a=b=c"] =
         if String.eqb (strings.TrimSpace name) EmptyString
         then Some (∅, Some (Errorf_missing_name "a=b=c"))
         else parseFlags_loop (<[name := value]> ∅) [].
Proof.
  split.
  - apply (proj1 C3_parse_token ∅ "novalue" []). reflexivity.
  - apply (proj1 (proj2 C3_parse_token) ∅ "a=b=c" []). reflexivity.
Defined.

(** ** net/url and buildURL *)

Module url_facts.
Import strings url.

(** *** escape *)

Lemma escape_count_nonneg (s : string) (mode : encoding) :
  0 <= fst (escape_count s mode) /\ 0 <= snd (escape_count s mode).
Proof.
  induction s as [|c r IH]; simpl; [lia|].
  destruct (escape_count r mode) as [sp hx]; simpl in *.
  destruct (shouldEscape c mode); [|simpl; lia].
  destruct (Ascii.eqb c " " && encoding_eqb mode encodeQueryComponent); simpl; lia.
Qed.

Lemma space_query_escaped (c : ascii) (mode : encoding) :
  Ascii.eqb c " " && encoding_eqb mode encodeQueryComponent = true ->
  shouldEscape c mode = true.
Proof.
  intros [Hc Hm]%andb_true_iff. apply Ascii.eqb_eq in Hc. subst c.
  destruct mode; try discriminate. reflexivity.
Qed.

(** Without a byte to escape the second loop rebuilds the string. *)
Lemma escape_build_id (s : string) (mode : encoding) :
  escape_count s mode = (0, 0) -> escape_build s mode = s.
Proof.
  induction s as [|c r IH]; simpl; [reflexivity|].
  pose proof (escape_count_nonneg r mode) as Hnn.
  destruct (escape_count r mode) as [sp hx]; simpl in Hnn.
  destruct (shouldEscape c mode) eqn:Hs.
  - destruct (Ascii.eqb c " " && encoding_eqb mode encodeQueryComponent);
      intros [= ? ?]; lia.
  - intros [= -> ->].
    destruct (Ascii.eqb c " " && encoding_eqb mode encodeQueryComponent) eqn:Hq.
    + apply space_query_escaped in Hq. congruence.
    + now rewrite IH.
Qed.

(** [escape] is its second loop: the early return of the first loop gives
    the same string. *)
Lemma escape_eq (s : string) (mode : encoding) :
  escape s mode = escape_build s mode.
Proof.
  unfold escape. pose proof (escape_count_nonneg s mode) as Hnn.
  destruct (escape_count s mode) as [sp hx] eqn:Hc; simpl in Hnn.
  destruct (Z.eqb_spec sp 0) as [->|]; [|reflexivity].
  destruct (Z.eqb_spec hx 0) as [->|]; [|reflexivity].
  simpl. symmetry. now apply escape_build_id.
Qed.

Lemma escape_build_app (a b : string) (mode : encoding) :
  escape_build (a +:+ b) mode = escape_build a mode +:+ escape_build b mode.
Proof.
  induction a as [|c r IH]; simpl; [reflexivity|].
  destruct (Ascii.eqb c " " && encoding_eqb mode encodeQueryComponent);
    [|destruct (shouldEscape c mode)]; simpl; now rewrite IH.
Qed.

Lemma escape_app (a b : string) (mode : encoding) :
  escape (a +:+ b) mode = escape a mode +:+ escape b mode.
Proof. rewrite !escape_eq. apply escape_build_app. Qed.

Lemma digit_not_escaped (c : ascii) (mode : encoding) :
  between "0" "9" c = true -> shouldEscape c mode = false.
Proof.
  intros H. unfold shouldEscape, isAlnum. rewrite H.
  now rewrite !orb_true_r.
Qed.

Lemma escape_digits (d : string) (mode : encoding) :
  all_digits d = true -> escape d mode = d.
Proof.
  rewrite escape_eq. induction d as [|c r IH]; simpl; [reflexivity|].
  intros [Hc Hr]%andb_true_iff.
  rewrite (digit_not_escaped c mode Hc).
  destruct (Ascii.eqb_spec c " ") as [->|]; [discriminate|].
  simpl. now rewrite IH.
Qed.

(** In a host a colon, digits and brackets stay as they are. *)
Lemma escape_host_port (h d : string) :
  all_digits d = true ->
  escape (h +:+ ":" +:+ d) encodeHost = escape h encodeHost +:+ ":" +:+ d.
Proof.
  intros Hd. rewrite !escape_app, (escape_digits d _ Hd). reflexivity.
Qed.

Lemma escape_prefix_slash (s : string) :
  HasPrefix s "/" = true -> HasPrefix (escape s encodePath) "/" = true.
Proof.
  rewrite escape_eq. destruct s as [|c r]; [discriminate|].
  change (HasPrefix (String c r) "/") with (Ascii.eqb c "/" && true).
  rewrite andb_true_r. intros ->%Ascii.eqb_eq. reflexivity.
Qed.

(** *** Itoa *)

Lemma string_of_uint_digits (d : Decimal.uint) :
  all_digits (NilEmpty.string_of_uint d) = true.
Proof. induction d; simpl; auto. Qed.

Lemma Itoa_digits (i : Z) : 0 < i -> all_digits (Itoa i) = true.
Proof.
  intros H. unfold Itoa. destruct i as [|p|p]; try lia.
  unfold Z.to_int, NilZero.string_of_int, NilZero.string_of_uint.
  destruct (Pos.to_uint p); try reflexivity; apply string_of_uint_digits.
Qed.

(** *** Parse *)

Lemma setPath_ok (u u' : URL) (p : string) :
  setPath u p = Ok u' ->
  Host u' = Host u /\ Opaque u' = Opaque u /\
  (RawPath u' = EmptyString \/ RawPath u' = p).
Proof.
  unfold setPath. destruct (unescape p encodePath) as [q|e]; simpl; [|discriminate].
  destruct (String.eqb p _); intros [= <-]; simpl; auto.
Qed.

Lemma setFragment_ok (u u' : URL) (f : string) :
  setFragment u f = Ok u' ->
  Host u' = Host u /\ Opaque u' = Opaque u /\ RawPath u' = RawPath u.
Proof.
  unfold setFragment. destruct (unescape f encodeFragment) as [q|e]; simpl; [|discriminate].
  destruct (String.eqb f _); intros [= <-]; simpl; auto.
Qed.

Lemma Index_slice_prefix (s sep : string) :
  0 <= Index s sep -> HasPrefix (slice_from s (Index s sep)) sep = true.
Proof.
  unfold slice_from. induction s as [|c r IH]; simpl.
  - destruct (HasPrefix "" sep) eqn:E; [intros _; exact E | lia].
  - destruct (HasPrefix (String c r) sep) eqn:E; [intros _; exact E|].
    destruct (Z.ltb_spec (Index r sep) 0); [lia|]. intros _.
    replace (Z.to_nat (1 + Index r sep)) with (S (Z.to_nat (Index r sep))) by lia.
    simpl. apply IH. lia.
Qed.

Lemma parse_host (rawURL : string) (u : URL) :
  parse rawURL false = Ok u -> Host u <> EmptyString ->
  Opaque u = EmptyString /\
  (RawPath u = EmptyString \/ HasPrefix (RawPath u) "/" = true).
Proof.
  unfold parse.
  destruct (stringContainsCTLByte rawURL); [discriminate|].
  rewrite andb_false_r.
  destruct (String.eqb rawURL "*"); [intros [= <-]; simpl; congruence|].
  destruct (getScheme rawURL) as [[scheme rest0]|e]; cbn [bind fst snd]; [|discriminate].
  set (url0 := set_Scheme empty (ToLower scheme)).
  destruct (if HasSuffix rest0 "?" && (CountByte rest0 "?" =? 1) then _ else _)
    as [rest url1] eqn:E.
  assert (H1 : Host url1 = EmptyString /\ Opaque url1 = EmptyString).
  { destruct (HasSuffix rest0 "?" && (CountByte rest0 "?" =? 1)).
    - injection E as <- <-. now split.
    - destruct (Cut rest0 "?") as [[b a] f]. injection E as <- <-. now split. }
  destruct H1 as [Hh Ho]. clear E.
  destruct (negb (HasPrefix rest "/") && negb (String.eqb (Scheme url1) EmptyString)).
  { intros [= <-]. simpl. congruence. }
  rewrite andb_false_r.
  destruct (negb (HasPrefix rest "/") && Contains _ ":"); [discriminate|].
  change (negb false) with true. rewrite andb_true_l.
  destruct ((negb (String.eqb (Scheme url1) EmptyString) || negb (HasPrefix rest "///"))
            && HasPrefix rest "//").
  - set (authority := slice_from rest 2).
    destruct (Z.leb_spec 0 (Index authority "/")) as [Hi|Hi].
    + destruct (parseAuthority _) as [[usr h]|e]; cbn [bind fst snd]; [|discriminate].
      intros [Hhost [Hop [Hr|Hr]]]%setPath_ok _; simpl in Hhost, Hop, Hr.
      * split; [congruence|now left].
      * split; [congruence|right]. rewrite Hr. now apply Index_slice_prefix.
    + destruct (parseAuthority _) as [[usr h]|e]; cbn [bind fst snd]; [|discriminate].
      intros [Hhost [Hop [Hr|Hr]]]%setPath_ok _; simpl in Hhost, Hop, Hr.
      * split; [congruence|now left].
      * split; [congruence|now left].
  - destruct (negb (String.eqb (Scheme url1) EmptyString) && HasPrefix rest "/");
      cbn [bind fst snd];
      intros [Hhost [Hop Hr]]%setPath_ok Hne; simpl in Hhost, Hop; congruence.
Qed.

Lemma Parse_host (rawURL : string) (u : URL) :
  Parse rawURL = Ok u -> Host u <> EmptyString ->
  Opaque u = EmptyString /\
  (RawPath u = EmptyString \/ HasPrefix (RawPath u) "/" = true).
Proof.
  unfold Parse. destruct (Cut rawURL "#") as [[raw frag] found].
  destruct (parse raw false) as [url1|e] eqn:Hp; [|discriminate].
  destruct (String.eqb frag EmptyString).
  - intros [= <-]. now apply parse_host with raw.
  - destruct (setFragment url1 frag) as [url2|e] eqn:Hf; [|discriminate].
    intros [= <-] Hne. apply setFragment_ok in Hf as (Hh & Ho & Hr).
    rewrite Ho, Hr. apply parse_host with raw; congruence.
Qed.
(** *** String *)

Definition userinfo_at (usr : option Userinfo) : string :=
  match usr with
  | Some ui => Userinfo_String ui +:+ "@"
  | None => EmptyString
  end.

Definition query_part (u : URL) : string :=
  if ForceQuery u || negb (String.eqb (RawQuery u) EmptyString)
  then "?" +:+ RawQuery u else EmptyString.

Definition fragment_part (u : URL) : string :=
  if negb (String.eqb (Fragment u) EmptyString)
  then "#" +:+ EscapedFragment u else EmptyString.

Lemma EscapedPath_cases (u : URL) :
  EscapedPath u = escape (Path u) encodePath
  \/ Path u = "*" /\ EscapedPath u = "*"
  \/ (RawPath u <> EmptyString /\ EscapedPath u = RawPath u
      /\ unescape (RawPath u) encodePath = Ok (Path u)).
Proof.
  unfold EscapedPath.
  destruct (String.eqb_spec (RawPath u) EmptyString) as [E|E]; cbn [negb andb].
  - destruct (String.eqb_spec (Path u) "*"); auto.
  - destruct (validEncoded (RawPath u) encodePath).
    + destruct (unescape (RawPath u) encodePath) as [q|e].
      * destruct (String.eqb_spec q (Path u)) as [->|].
        -- right; right. auto.
        -- destruct (String.eqb_spec (Path u) "*"); auto.
      * destruct (String.eqb_spec (Path u) "*"); auto.
    + destruct (String.eqb_spec (Path u) "*"); auto.
Qed.

Lemma EscapedPath_prefix (u : URL) :
  HasPrefix (Path u) "/" = true ->
  RawPath u = EmptyString \/ HasPrefix (RawPath u) "/" = true ->
  HasPrefix (EscapedPath u) "/" = true.
Proof.
  intros Hp Hr. destruct (EscapedPath_cases u) as [->|[[E _]|(Hne & -> & _)]].
  - now apply escape_prefix_slash.
  - rewrite E in Hp. discriminate.
  - destruct Hr; congruence.
Qed.

(** The text of a URL with scheme ws or wss, an authority and a rooted
    path. *)
Lemma URL_String_shape (u : URL) :
  Scheme u = "ws" \/ Scheme u = "wss" ->
  Opaque u = EmptyString ->
  Host u <> EmptyString ->
  HasPrefix (EscapedPath u) "/" = true ->
  URL_String u =
    Scheme u +:+ "://" +:+ userinfo_at (User u) +:+ escape (Host u) encodeHost
    +:+ EscapedPath u +:+ query_part u +:+ fragment_part u.
Proof.
  intros Hs Ho Hh Hp. unfold URL_String, query_part, fragment_part, userinfo_at.
  rewrite Ho, Hp. apply String.eqb_neq in Hh. rewrite Hh.
  assert (Hpe : String.eqb (EscapedPath u) EmptyString = false).
  { destruct (EscapedPath u); [discriminate|reflexivity]. }
  rewrite Hpe.
  destruct Hs as [-> | ->]; cbn [String.eqb Ascii.eqb negb andb orb Bool.eqb];
    rewrite ?andb_false_r; cbn [negb andb orb];
    destruct (User u) as [ui|]; simpl String.append; cbn [String.eqb];
    destruct (ForceQuery u || negb (String.eqb (RawQuery u) EmptyString));
    destruct (negb (String.eqb (Fragment u) EmptyString));
    repeat first [ progress simpl String.append
                 | progress rewrite strings_facts.app_assoc
                 | progress rewrite strings_facts.app_nil_r ];
    reflexivity.
Qed.

(** *** Hostname and Port *)

Lemma LastIndex_digits (d : string) : all_digits d = true -> LastIndex d ":" = -1.
Proof.
  induction d as [|c r IH]; [reflexivity|].
  intros [Hc Hr]%andb_true_iff. cbn [LastIndex]. rewrite (IH Hr).
  change (0 <=? -1) with false. cbv iota.
  change (HasPrefix (String c r) ":") with (Ascii.eqb c ":" && true).
  destruct (Ascii.eqb_spec c ":") as [->|]; [discriminate|reflexivity].
Qed.

Lemma LastIndex_app_colon (x d : string) :
  all_digits d = true -> LastIndex (x +:+ ":" +:+ d) ":" = len x.
Proof.
  intros Hd. unfold len. induction x as [|c r IH].
  - change (EmptyString +:+ ":" +:+ d) with (String ":" d). cbn [LastIndex].
    rewrite (LastIndex_digits d Hd). reflexivity.
  - change (String c r +:+ ":" +:+ d) with (String c (r +:+ ":" +:+ d)).
    cbn [LastIndex]. rewrite IH.
    destruct (Z.leb_spec 0 (Z.of_nat (String.length r))); [|lia].
    cbn [String.length]. lia.
Qed.

Lemma splitHostPort_port (x d : string) :
  all_digits d = true -> snd (splitHostPort (x +:+ ":" +:+ d)) = d.
Proof.
  intros Hd. unfold splitHostPort. rewrite (LastIndex_app_colon x d Hd).
  unfold len, slice_from, slice_to.
  destruct (Z.eqb_spec (Z.of_nat (String.length x)) (-1)); [lia|].
  rewrite Nat2Z.id, strings_facts.drop_app.
  change (validOptionalPort (":" +:+ d)) with (all_digits d). rewrite Hd.
  cbn [negb andb].
  replace (Z.to_nat (Z.of_nat (String.length x) + 1))
    with (String.length (x +:+ ":")) by (rewrite strings_facts.length_app; simpl; lia).
  rewrite <- strings_facts.app_assoc, strings_facts.drop_app. reflexivity.
Qed.

(** [JoinHostPort] ends with the colon and the port. *)
Lemma JoinHostPort_shape (host port : string) :
  exists x, JoinHostPort host port = x +:+ ":" +:+ port
            /\ (x = host \/ x = "[" +:+ host +:+ "]").
Proof.
  unfold JoinHostPort. destruct (0 <=? Index host ":").
  - exists ("[" +:+ host +:+ "]"). split; [|now right].
    rewrite !strings_facts.app_assoc. reflexivity.
  - exists host. split; [reflexivity|now left].
Qed.

End url_facts.

Section buildURL_facts.
Import strings url url_facts.

(** The path argument with a leading slash (lines 164-166). *)
Definition rooted (path : string) : string :=
  if HasPrefix path "/" then path else "/" +:+ path.

Lemma rooted_prefix (path : string) : HasPrefix (rooted path) "/" = true.
Proof. unfold rooted. destruct (HasPrefix path "/") eqn:E; [exact E|reflexivity]. Qed.

(** The URL value that buildURL turns into text (lines 167-170). *)
Definition built (u : URL) (path : string) (port : Z) : URL :=
  let u := set_Path u (rooted path) in
  if 0 <? port then set_Host u (JoinHostPort (Hostname u) (Itoa port)) else u.

Lemma buildURL_ok (rawURL path : string) (port : Z) (u : URL) :
  Parse rawURL = Ok u ->
  Scheme u = "ws" \/ Scheme u = "wss" ->
  Host u <> EmptyString ->
  buildURL rawURL path port = (URL_String (built u path port), None).
Proof.
  intros Hp Hs Hh. unfold buildURL, built, rooted. rewrite Hp.
  apply String.eqb_neq in Hh. rewrite Hh.
  destruct (HasPrefix path "/"); cbn [negb];
    destruct Hs as [-> | ->]; reflexivity.
Qed.

Lemma JoinHostPort_nonempty (host port : string) :
  JoinHostPort host port <> EmptyString.
Proof.
  destruct (JoinHostPort_shape host port) as (x & -> & _).
  destruct x; discriminate.
Qed.

Lemma built_facts (u : URL) (path : string) (port : Z) :
  Scheme (built u path port) = Scheme u
  /\ Opaque (built u path port) = Opaque u
  /\ User (built u path port) = User u
  /\ EscapedPath (built u path port) = EscapedPath (set_Path u (rooted path))
  /\ query_part (built u path port) = query_part u
  /\ fragment_part (built u path port) = fragment_part u
  /\ (Host u <> EmptyString -> Host (built u path port) <> EmptyString).
Proof.
  unfold built. destruct (0 <? port); repeat apply conj; try reflexivity.
  - intros _. apply JoinHostPort_nonempty.
  - auto.
Qed.

Lemma getScheme_ws (s : string) :
  getScheme ("ws" +:+ ":" +:+ s) = Ok ("ws", s)
  /\ getScheme ("wss" +:+ ":" +:+ s) = Ok ("wss", s).
Proof. split; reflexivity. Qed.

(** The text that buildURL returns starts with wss:// exactly when the
    scheme is wss. *)
Lemma buildURL_wss_prefix (rawURL path : string) (port : Z) (u : URL) :
  Parse rawURL = Ok u ->
  Scheme u = "ws" \/ Scheme u = "wss" ->
  Host u <> EmptyString ->
  HasPrefix (fst (buildURL rawURL path port)) "wss://" = String.eqb (Scheme u) "wss".
Proof.
  intros Hp Hs Hh.
  destruct (url_facts.Parse_host rawURL u Hp Hh) as [Ho Hr].
  destruct (built_facts u path port) as (Bs & Bo & Bu & Bp & Bq & Bf & Bh).
  rewrite (buildURL_ok rawURL path port u Hp Hs Hh). cbn [fst].
  rewrite url_facts.URL_String_shape;
    [|rewrite Bs; exact Hs|rewrite Bo; exact Ho|exact (Bh Hh)
     |rewrite Bp; apply url_facts.EscapedPath_prefix; [apply rooted_prefix|exact Hr]].
  rewrite Bs. destruct Hs as [-> | ->]; reflexivity.
Qed.

(** buildURL has four errors of its own. *)
Lemma buildURL_error_kind (rawURL path : string) (port : Z) (out : string) (e : error) :
  buildURL rawURL path port = (out, Some e) ->
  (exists err, e = Errorf_parse_url err) \/ e = Errorf_no_scheme
  \/ (exists s, e = Errorf_unsupported_scheme s) \/ e = Errorf_no_host.
Proof.
  unfold buildURL. destruct (Parse rawURL) as [u|err].
  - destruct (String.eqb (Scheme u) EmptyString); [intros [= _ <-]; tauto|].
    destruct (negb _ && negb _); [intros [= _ <-]; eauto|].
    destruct (String.eqb (Host u) EmptyString); [intros [= _ <-]; tauto|].
    discriminate.
  - intros [= _ <-]. eauto.
Qed.

End buildURL_facts.

(** C1: for a base URL that parses with scheme ws or wss and a non-empty host,
    buildURL succeeds; the text it returns starts with that scheme (which is
    also what [getScheme] reads back from it), continues with the authority
    and then with a path that begins with a slash and is the escaped form of
    the path argument, prefixed with a slash when it had none; with a port
    argument above zero the authority ends with a colon and that port, which is
    the port of the URL value.  Base ws://localhost, path chat, port 9000 give
    ws://localhost:9000/chat. *)
Theorem C1_buildURL_valid :
  (forall (rawURL path : string) (port : Z) (u : url.URL),
     url.Parse rawURL = Ok u ->
     url.Scheme u = "ws" \/ url.Scheme u = "wss" ->
     url.Host u <> EmptyString ->
     let epath := url.EscapedPath (url.set_Path u (rooted path)) in
     exists authority rest,
       buildURL rawURL path port =
         (url.Scheme u +:+ "://" +:+ authority +:+ epath +:+ rest, None)
       /\ url.getScheme (fst (buildURL rawURL path port)) =
            Ok (url.Scheme u, "//" +:+ authority +:+ epath +:+ rest)
       /\ strings.HasPrefix epath "/" = true
       /\ (epath = url.escape (rooted path) url.encodePath
           \/ url.unescape epath url.encodePath = Ok (rooted path))
       /\ rest = url_facts.query_part u +:+ url_facts.fragment_part u
       /\ (port <= 0 ->
           authority = url_facts.userinfo_at (url.User u)
                       +:+ url.escape (url.Host u) url.encodeHost)
       /\ (0 < port ->
           url.Port (built u path port) = Itoa port
           /\ exists host,
                authority = url_facts.userinfo_at (url.User u)
                            +:+ host +:+ ":" +:+ Itoa port))
  /\ buildURL "ws://localhost" "chat" 9000 = ("ws://localhost:9000/chat", None).
Proof.
  split; [|reflexivity].
  intros rawURL path port u Hp Hs Hh epath.
  destruct (url_facts.Parse_host rawURL u Hp Hh) as [Ho Hr].
  destruct (built_facts u path port) as (Bs & Bo & Bu & Bp & Bq & Bf & Bh).
  assert (Hpre : strings.HasPrefix epath "/" = true).
  { apply url_facts.EscapedPath_prefix; [apply rooted_prefix|exact Hr]. }
  pose proof (buildURL_ok rawURL path port u Hp Hs Hh) as Hb.
  rewrite url_facts.URL_String_shape in Hb;
    [|rewrite Bs; exact Hs|rewrite Bo; exact Ho|exact (Bh Hh)|rewrite Bp; exact Hpre].
  rewrite Bs, Bu, Bp, Bq, Bf in Hb. fold epath in Hb.
  exists (url_facts.userinfo_at (url.User u)
          +:+ url.escape (url.Host (built u path port)) url.encodeHost),
         (url_facts.query_part u +:+ url_facts.fragment_part u).
  assert (Hb' : buildURL rawURL path port =
    (url.Scheme u +:+ "://" +:+
      (url_facts.userinfo_at (url.User u)
         +:+ url.escape (url.Host (built u path port)) url.encodeHost)
      +:+ epath +:+ url_facts.query_part u +:+ url_facts.fragment_part u, None)).
  { rewrite Hb. now rewrite !strings_facts.app_assoc. }
  repeat apply conj.
  - exact Hb'.
  - rewrite Hb'. cbn [fst].
    destruct Hs as [-> | ->]; [apply (proj1 (getScheme_ws _))|apply (proj2 (getScheme_ws _))].
  - exact Hpre.
  - destruct (url_facts.EscapedPath_cases (url.set_Path u (rooted path)))
      as [E|[[E _]|(_ & E & Hu)]].
    + left. exact E.
    + exfalso. cbn [url.Path url.set_Path] in E.
      pose proof (rooted_prefix path) as Hx. rewrite E in Hx. discriminate.
    + right. unfold epath. rewrite E. exact Hu.
  - reflexivity.
  - intros Hle. unfold built. destruct (Z.ltb_spec 0 port); [lia|reflexivity].
  - intros Hlt. unfold built. destruct (Z.ltb_spec 0 port); [|lia].
    pose proof (url_facts.Itoa_digits port Hlt) as Hd.
    destruct (url_facts.JoinHostPort_shape
                (url.Hostname (url.set_Path u (rooted path))) (Itoa port))
      as (x & Hj & _).
    rewrite Hj. split.
    + unfold url.Port. cbn [url.Host url.set_Host].
      now apply url_facts.splitHostPort_port.
    + exists (url.escape x url.encodeHost). cbn [url.Host url.set_Host].
      now rewrite url_facts.escape_host_port.
Qed.

(** C1 at base ws://localhost, path chat and port 9000. *)
Lemma C1_witness :
  exists authority rest,
    buildURL "ws://localhost" "chat" 9000 =
      ("ws" +:+ "://" +:+ authority +:+ "/chat" +:+ rest, None)
    /\ strings.HasPrefix "/chat" "/" = true
    /\ exists host, authority = EmptyString +:+ host +:+ ":" +:+ "9000".
Proof.
  destruct (proj1 C1_buildURL_valid "ws://localhost" "chat" 9000
              (url.mkURL "ws" EmptyString None "localhost" EmptyString EmptyString
                         false false EmptyString EmptyString EmptyString)
              eq_refl (or_introl eq_refl) ltac:(discriminate))
    as (authority & rest & Hb & _ & Hpre & _ & _ & _ & Hport).
  exists authority, rest. split; [exact Hb|]. split; [exact Hpre|].
  destruct (Hport ltac:(lia)) as [_ H]. exact H.
Defined.

(** *** Errors of buildURL *)

(** The base URLs that buildURL rejects (lines 151-163). *)
Definition rejected (rawURL : string) : Prop :=
  match url.Parse rawURL with
  | Err _ => True
  | Ok u =>
      url.Scheme u = EmptyString
      \/ (url.Scheme u <> "ws" /\ url.Scheme u <> "wss")
      \/ url.Host u = EmptyString
  end.

(** C2: buildURL returns an error, with the empty string for the URL, exactly
    when the base URL does not parse, or parses with an empty scheme, a scheme
    other than ws and wss, or an empty host; on every other input it returns a
    URL and no error.  An input without scheme, one with scheme http and one
    without host are rejected with the matching error. *)
Theorem C2_buildURL_error_iff :
  (forall (rawURL path : string) (port : Z),
     ((exists e, buildURL rawURL path port = (EmptyString, Some e)) <-> rejected rawURL)
     /\ (~ rejected rawURL <-> exists out, buildURL rawURL path port = (out, None))
     /\ match url.Parse rawURL with
        | Err err => buildURL rawURL path port = (EmptyString, Some (Errorf_parse_url err))
        | Ok u =>
            (url.Scheme u = EmptyString ->
             buildURL rawURL path port = (EmptyString, Some Errorf_no_scheme))
            /\ (url.Scheme u <> EmptyString ->
                url.Scheme u <> "ws" -> url.Scheme u <> "wss" ->
                buildURL rawURL path port
                  = (EmptyString, Some (Errorf_unsupported_scheme (url.Scheme u))))
            /\ ((url.Scheme u = "ws" \/ url.Scheme u = "wss") ->
                url.Host u = EmptyString ->
                buildURL rawURL path port = (EmptyString, Some Errorf_no_host))
        end)
  /\ buildURL "localhost" "/ws" 0 = (EmptyString, Some Errorf_no_scheme)
  /\ buildURL "http://localhost" "/ws" 0
       = (EmptyString, Some (Errorf_unsupported_scheme "http"))
  /\ buildURL "ws://" "/ws" 0 = (EmptyString, Some Errorf_no_host)
  /\ buildURL "ws:///ws" "/ws" 8080 = (EmptyString, Some Errorf_no_host).
Proof.
  split; [|repeat apply conj; reflexivity].
  intros rawURL path port. unfold rejected, buildURL.
  destruct (url.Parse rawURL) as [u|err];
    [destruct (String.eqb_spec (url.Scheme u) EmptyString) as [E0|E0];
     [|destruct (String.eqb_spec (url.Scheme u) "ws") as [E1|E1];
       destruct (String.eqb_spec (url.Scheme u) "wss") as [E2|E2];
       cbn [negb andb];
       try destruct (String.eqb_spec (url.Host u) EmptyString) as [E3|E3]]|].
  all: repeat match goal with
              | |- _ /\ _ => split
              | |- _ <-> _ => split
              end; intros.
  all: repeat match goal with
              | H : exists _, _ = _ |- _ => destruct H as [? H]
              end.
  all: try reflexivity; try congruence; try tauto; try (eexists; reflexivity).
  all: try (match goal with H : _ \/ _ |- _ => destruct H as [?|[[? ?]|?]] end;
            congruence).
  all: try (match goal with H : _ \/ _ |- _ => destruct H end; congruence).
Qed.

(** C2 at a base URL with scheme http. *)
Lemma C2_witness :
  rejected "http://localhost"
  /\ exists e, buildURL "http://localhost" "/ws" 0 = (EmptyString, Some e).
Proof.
  assert (H : rejected "http://localhost").
  { vm_compute. right; left. split; discriminate. }
  split; [exact H|].
  exact (proj2 (proj1 (proj1 C2_buildURL_error_iff "http://localhost" "/ws" 0)) H).
Defined.

(** ** json.Marshal *)

Module marshal_facts.
Import json.

#[global] Instance key_le_trans : Transitive key_le.
Proof. intros a b c. unfold key_le. apply transitivity. Qed.

#[global] Instance key_le_total : Total key_le.
Proof. intros a b. unfold key_le. apply String.le_total. Qed.

(** Entries with distinct keys: a key has one value. *)
Lemma one_value (l : list (string * string)) (k v1 v2 : string) :
  NoDup l.*1 -> (k, v1) ∈ l -> (k, v2) ∈ l -> v1 = v2.
Proof.
  intros Hnd H1 H2.
  pose proof (elem_of_list_to_map_1 (M := gmap string) l k v1 Hnd H1) as E1.
  pose proof (elem_of_list_to_map_1 (M := gmap string) l k v2 Hnd H2) as E2.
  congruence.
Qed.

(** The sort brings two iteration orders of the same entries to one
    list. *)
Lemma sort_iter_unique (iter1 iter2 : list (string * string)) :
  NoDup iter1.*1 -> iter1 ≡ₚ iter2 ->
  merge_sort key_le iter1 = merge_sort key_le iter2.
Proof.
  intros Hnd Hp. apply (StronglySorted_unique_strong key_le).
  - intros [k1 v1] [k2 v2] H1 H2 R12 R21. unfold key_le in R12, R21. simpl in *.
    assert (k1 = k2) as <- by (apply (anti_symm String.le); assumption).
    f_equal. apply (one_value iter1 k1); [exact Hnd| |].
    + now rewrite merge_sort_Permutation in H1.
    + rewrite merge_sort_Permutation in H2. now rewrite Hp.
  - apply StronglySorted_merge_sort; apply _.
  - apply StronglySorted_merge_sort; apply _.
  - now rewrite !merge_sort_Permutation.
Qed.

(** Inserting the same pairs with distinct names in another order builds
    the same map. *)
Lemma store_perm (kvs1 kvs2 : list (string * string)) :
  kvs1 ≡ₚ kvs2 -> NoDup kvs1.*1 ->
  forall d : gmap string string, store d kvs1 = store d kvs2.
Proof.
  induction 1 as [|x l l' Hp IH|x y l|l l' l'' Hp1 IH1 Hp2 IH2]; intros Hnd d.
  - reflexivity.
  - rewrite fmap_cons in Hnd. apply NoDup_cons in Hnd as [_ Hnd].
    cbn [store foldl]. apply IH, Hnd.
  - rewrite !fmap_cons in Hnd. apply NoDup_cons in Hnd as [Hne _].
    apply not_elem_of_cons in Hne as [Hne _].
    cbn [store foldl]. f_equal. now apply insert_insert_ne.
  - rewrite IH1 by exact Hnd. apply IH2. now rewrite <- Hp1.
Qed.

Lemma Marshal_no_error (v : option (gmap string string)) : snd (Marshal v) = None.
Proof. destruct v; reflexivity. Qed.

(** The part of run before the dial never returns the error that wraps an
    error of Marshal (lines 90-93). *)
Lemma run_prepare_no_marshal_error (opts : options) (e : error) :
  run_prepare opts <> inl (Errorf_marshal e).
Proof.
  unfold run_prepare.
  destruct (buildURL (baseURL opts) (path opts) (port opts)) as [fullURL [e'|]] eqn:Hb.
  - intros [= ->]. apply buildURL_error_kind in Hb.
    destruct Hb as [[? H]|[H|[[? H]|H]]]; discriminate H.
  - destruct (insecureTLS opts && negb (strings.HasPrefix fullURL "wss://"));
      [discriminate|].
    pose proof (Marshal_no_error (data opts)) as Hm.
    destruct (Marshal (data opts)) as [payload m]. cbn [snd] in Hm. subst m.
    discriminate.
Qed.

(** A JSON string literal. *)
Definition quoted (s : string) : string := String dq s +:+ str dq.

End marshal_facts.

(** C5: the payload is a function of the contents of the map.  Whatever the
    order in which the runtime yields the entries of a map, Marshal writes the
    same bytes, so serializing twice gives the same object; two maps filled with
    the same pairs in different insertion orders serialize to the same bytes;
    for every map of strings to strings Marshal returns no error and an object
    in braces with a member for each entry, sorted by key, so that run never
    returns the error of its marshal step. *)
Theorem C5_marshal_deterministic :
  (forall (m : gmap string string) (iter1 iter2 : list (string * string)),
     iter1 ≡ₚ map_to_list m -> iter2 ≡ₚ map_to_list m ->
     json.Marshal_iter (Some iter1) = json.Marshal_iter (Some iter2)
     /\ json.Marshal_iter (Some iter1) = json.Marshal (Some m))
  /\ (forall kvs1 kvs2 : list (string * string),
        NoDup kvs1.*1 -> kvs1 ≡ₚ kvs2 ->
        json.Marshal (Some (store ∅ kvs1)) = json.Marshal (Some (store ∅ kvs2)))
  /\ (forall m1 m2 : gmap string string,
        (forall k, m1 !! k = m2 !! k) ->
        json.Marshal (Some m1) = json.Marshal (Some m2))
  /\ (forall m : gmap string string,
        exists sv,
          json.Marshal (Some m) = ("{" +:+ json.members sv 0 true +:+ "}", None)
          /\ sv ≡ₚ map_to_list m /\ length sv = size m
          /\ StronglySorted json.key_le sv)
  /\ (forall (opts : options) (e : error), run_prepare opts <> inl (Errorf_marshal e))
  /\ (exists m1 m2 : gmap string string,
        parseFlags example_opts ["user=alice"; "action=ping"]
          = Some (set_data example_opts m1, None)
        /\ parseFlags example_opts ["action=ping"; "user=alice"]
          = Some (set_data example_opts m2, None)
        /\ json.Marshal (Some m1) = json.Marshal (Some m2)
        /\ fst (json.Marshal (Some m1)) =
             "{" +:+ marshal_facts.quoted "action" +:+ ":" +:+ marshal_facts.quoted "ping"
             +:+ "," +:+ marshal_facts.quoted "user" +:+ ":" +:+ marshal_facts.quoted "alice"
             +:+ "}").
Proof.
  repeat apply conj.
  - intros m iter1 iter2 H1 H2.
    assert (Hnd : NoDup iter1.*1).
    { rewrite H1. apply NoDup_fst_map_to_list. }
    unfold json.Marshal, json.Marshal_iter, json.mapEncoder_encode. cbn [fmap option_fmap option_map].
    rewrite (marshal_facts.sort_iter_unique iter1 iter2 Hnd) by (now rewrite H1, H2).
    rewrite (marshal_facts.sort_iter_unique iter2 (map_to_list m)); [auto| |exact H2].
    rewrite H2. apply NoDup_fst_map_to_list.
  - intros kvs1 kvs2 Hnd Hp. now rewrite (marshal_facts.store_perm kvs1 kvs2 Hp Hnd).
  - intros m1 m2 H. now rewrite (map_eq m1 m2 H).
  - intros m. exists (merge_sort json.key_le (map_to_list m)). repeat apply conj.
    + reflexivity.
    + apply merge_sort_Permutation.
    + rewrite merge_sort_Permutation. apply length_map_to_list.
    + apply StronglySorted_merge_sort; apply _.
  - apply marshal_facts.run_prepare_no_marshal_error.
  - do 2 eexists. repeat apply conj; [reflexivity|reflexivity|vm_compute; reflexivity|vm_compute; reflexivity].
Qed.

(** C5 at the map of the README's example and its two iteration orders. *)
Lemma C5_witness :
  json.Marshal_iter (Some [("user", "alice"); ("action", "ping")])
  = json.Marshal_iter (Some [("action", "ping"); ("user", "alice")]).
Proof.
  refine (proj1 (proj1 C5_marshal_deterministic
            (<["user" := "alice"]> (<["action" := "ping"]> ∅))
            [("user", "alice"); ("action", "ping")]
            [("action", "ping"); ("user", "alice")] _ _)).
  - vm_compute map_to_list. first [reflexivity | apply Permutation_swap].
  - vm_compute map_to_list. first [reflexivity | apply Permutation_swap].
Defined.

(** ** The JSON scanner, Indent and printMessage *)

Module scanner_facts.
Import scanner.

(** A scanner in the error state holds an error. *)
Definition error_kept (s : scanner) : Prop :=
  step s = stateError -> err s <> None.

Ltac split_step :=
  repeat match goal with
         | |- context [if ?b then _ else _] => destruct b
         | |- context [match parseState ?s with _ => _ end] =>
             destruct (parseState s)
         | |- context [match ?k with parseObjectKey => _ | _ => _ end] =>
             destruct k
         end.

(** A step that returns [scanError] leaves an error in the scanner. *)
Lemma apply_step_error (s : scanner) (c : ascii) :
  error_kept s ->
  (snd (apply_step s c) = scanError -> err (fst (apply_step s c)) <> None)
  /\ error_kept (fst (apply_step s c)).
Proof.
  unfold error_kept. intros Hs.
  unfold apply_step. destruct (step s) eqn:Hst;
    unfold do_stateBeginValueOrEmpty, do_stateBeginStringOrEmpty,
      do_stateBeginValue, do_stateBeginString, do_state1, do_state0,
      do_stateDot0, do_stateE, do_stateE0, do_stateESign, do_stateDot,
      do_stateNeg, do_stateInString, do_stateInStringEsc, do_hex, do_lit,
      do_stateEndValue, do_stateEndTop, pushParseState, popParseState, error_,
      set_top, set_step, set_parseState;
    cbn [step err endTop parseState bytes fst snd];
    split_step; cbn [step err endTop parseState bytes fst snd];
    split; intros; try discriminate; try congruence; auto.
Qed.

Lemma incr_bytes_kept (s : scanner) : error_kept s -> error_kept (incr_bytes s).
Proof. exact (fun H => H). Qed.

(** The loops of [checkValid] and of [appendIndent] drive the scanner
    through the same steps and stop at the same byte. *)
Lemma loops_agree (prefix indent : string) (src : string) :
  forall (s : scanner) (needIndent : bool) (depth : Z) (dst : string),
  error_kept s ->
  fst (appendIndent_loop src s needIndent depth dst prefix indent)
    = fst (checkValid_loop s src)
  /\ (snd (checkValid_loop s src) = None
      \/ (snd (checkValid_loop s src) = err (fst (checkValid_loop s src))
          /\ err (fst (checkValid_loop s src)) <> None)).
Proof.
  induction src as [|c r IH]; intros s needIndent depth dst Hs.
  - cbn. auto.
  - cbn [appendIndent_loop checkValid_loop].
    destruct (apply_step_error (incr_bytes s) c (incr_bytes_kept s Hs)) as [He Hk].
    destruct (apply_step (incr_bytes s) c) as [s' v]. cbn [fst snd] in He, Hk.
    destruct v; cbn [scanCode_eqb andb negb];
      try (cbn [fst snd]; split; [reflexivity|right; split; [reflexivity|now apply He]]).
    all: rewrite ?andb_true_r, ?andb_false_r.
    all: destruct needIndent; cbn [andb negb];
      repeat match goal with
             | |- context [if ?b then _ else _] => destruct b
             end; apply IH; exact Hk.
Qed.

Lemma newScanner_kept : error_kept newScanner.
Proof. intros H. discriminate H. Qed.

(** [Indent] fails exactly when [checkValid] does, with the same error. *)
Lemma Indent_error (src prefix indent : string) :
  snd (Indent src prefix indent) = checkValid src.
Proof.
  unfold Indent, appendIndent, checkValid.
  destruct (loops_agree prefix indent src newScanner false 0 EmptyString newScanner_kept)
    as [Hfst Hsnd].
  destruct (appendIndent_loop src newScanner false 0 EmptyString prefix indent)
    as [scan dst].
  destruct (checkValid_loop newScanner src) as [s e].
  cbn [fst snd] in Hfst, Hsnd. subst scan.
  destruct Hsnd as [-> | [-> Hne]].
  - destruct (eof s) as [s' v]. now destruct (scanCode_eqb v scanError).
  - unfold eof. destruct (err s) as [e|] eqn:E; [|congruence].
    cbn [scanCode_eqb]. now rewrite E.
Qed.

Lemma Indent_valid (src prefix indent : string) :
  Valid src = true <-> snd (Indent src prefix indent) = None.
Proof.
  rewrite Indent_error. unfold Valid. destruct (checkValid src); split; congruence.
Qed.

(** The frame with the object of one member [x] of the specification. *)
Definition frame_x1 : string := "{" +:+ String dq "x" +:+ String dq ":1}".

End scanner_facts.

(** C9: a frame that is valid JSON (for json.Valid, which runs the scanner
    that Indent runs) is printed as recv:, a newline, and the frame indented by
    Indent with two spaces; any other frame is printed as recv:, a space and
    the raw bytes.  The object with member x equal to 1 is printed on three
    indented lines, and hello is printed raw. *)
Theorem C9_printMessage :
  (forall msg : string,
     (scanner.Valid msg = true ->
      exists formatted,
        scanner.Indent msg EmptyString "  " = (formatted, None)
        /\ printMessage msg = "recv:" +:+ nl +:+ formatted +:+ nl)
     /\ (scanner.Valid msg = false -> printMessage msg = "recv: " +:+ msg +:+ nl))
  /\ scanner.Valid scanner_facts.frame_x1 = true
  /\ printMessage scanner_facts.frame_x1 =
       "recv:" +:+ nl
       +:+ "{" +:+ nl
       +:+ "  " +:+ String dq "x" +:+ String dq ": 1" +:+ nl
       +:+ "}" +:+ nl
  /\ scanner.Valid "hello" = false
  /\ printMessage "hello" = "recv: hello" +:+ nl.
Proof.
  split; [intros msg; split|repeat apply conj; vm_compute; reflexivity].
  - intros Hv. apply (scanner_facts.Indent_valid msg EmptyString "  ") in Hv.
    unfold printMessage.
    destruct (scanner.Indent msg EmptyString "  ") as [formatted e].
    cbn [snd] in Hv. subst e. now exists formatted.
  - intros Hv. unfold printMessage.
    pose proof (scanner_facts.Indent_valid msg EmptyString "  ") as Hi.
    destruct (scanner.Indent msg EmptyString "  ") as [formatted [e|]];
      [reflexivity|].
    cbn [snd] in Hi. rewrite (proj2 Hi eq_refl) in Hv. discriminate.
Qed.

(** C9 at the two frames of the specification. *)
Lemma C9_witness :
  (exists formatted,
     scanner.Indent scanner_facts.frame_x1 EmptyString "  " = (formatted, None)
     /\ printMessage scanner_facts.frame_x1 = "recv:" +:+ nl +:+ formatted +:+ nl)
  /\ printMessage "hello" = "recv: hello" +:+ nl.
Proof.
  split.
  - apply (proj1 (proj1 C9_printMessage scanner_facts.frame_x1)). reflexivity.
  - apply (proj2 (proj1 C9_printMessage "hello")). reflexivity.
Defined.

(** ** run *)

Section run_facts.
Variable opts : options.

(** The events of the receive task. *)
Definition is_recv_ev (ev : event) : bool :=
  match ev with
  | EvReadMessage _ | EvCloseDone | EvStderr Recv _ | EvStdout Recv _ => true
  | _ => false
  end.

(** The start of the receive task, and its events. *)
Definition recvish (ev : event) : bool :=
  match ev with
  | EvGo => true
  | _ => is_recv_ev ev
  end.

(** A WriteMessage that returned no error. *)
Definition write_ok (ev : event) : bool :=
  match ev with
  | EvWriteMessage _ _ None => true
  | _ => false
  end.

(** The states of the main task in which the go statement has not run. *)
Definition before_go (m : mainState) : bool :=
  match m with
  | MStart | MDial _ _ _ | MConnected _ _ | MSend _ | MSent _ | MGo
  | MDeferred (Some _) | MReturned (Some _) => true
  | _ => false
  end.

(** The states of the main task after a successful WriteMessage. *)
Definition after_write (m : mainState) : bool :=
  match m with
  | MSent _ | MGo | MWait | MTimedOut | MCloseFrame | MWaitDone
  | MDeferred None | MReturned None => true
  | _ => false
  end.

(** Every event that satisfies [Q] has an event that satisfies [P] before
    it. *)
Definition precedes (P Q : event -> bool) (t : list event) : Prop :=
  forall t1 ev t2, t = t1 ++ ev :: t2 -> Q ev = true -> Exists (fun e => P e = true) t1.

Lemma precedes_nil (P Q : event -> bool) : precedes P Q [].
Proof. intros [|? ?] ev t2 H; discriminate H. Qed.

Lemma precedes_snoc (P Q : event -> bool) (t : list event) (e : event) :
  precedes P Q t ->
  (Q e = true -> Exists (fun e => P e = true) t) ->
  precedes P Q (t ++ [e]).
Proof.
  intros Ht He t1 ev t2 Heq Hq.
  destruct (decide (t2 = [])) as [->|Hne].
  - apply app_inj_tail in Heq as [<- <-]. auto.
  - destruct (exists_last Hne) as (t2' & e' & ->).
    rewrite app_comm_cons, app_assoc in Heq.
    apply app_inj_tail in Heq as [-> <-]. now apply (Ht t1 ev t2').
Qed.

(** What holds in every state that a schedule reaches. *)
Lemma exec_invariant (P : state -> Prop) :
  P init ->
  (forall st i st', P st -> step opts st i = Some st' -> P st') ->
  forall inputs st, exec opts init inputs = Some st -> P st.
Proof.
  intros H0 Hstep inputs. generalize init H0. clear H0.
  induction inputs as [|i rest IH]; intros st0 H0 st He.
  - injection He as <-. exact H0.
  - cbn in He. destruct (step opts st0 i) as [st1|] eqn:Hs; [|discriminate].
    eapply IH; [|exact He]. eapply Hstep; eauto.
Qed.

(** The cases of a step. *)
Ltac step_cases H :=
  unfold step, main_to, recv_to in H; cbn [mainSt recvSt done trace] in H;
  repeat match type of H with
         | context [match ?x with _ => _ end] => destruct x eqn:?; try discriminate H
         end;
  try discriminate H;
  injection H as <-.

(** *** The two tasks and the channel *)

Record phases (st : state) : Prop := {
  ph_idle : before_go (mainSt st) = true <-> recvSt st = RIdle;
  ph_quiet : recvSt st = RIdle -> Forall (fun ev => recvish ev = false) (trace st);
  ph_written : after_write (mainSt st) = true ->
               Exists (fun ev => write_ok ev = true) (trace st);
  ph_unwritten : after_write (mainSt st) = false ->
                 Forall (fun ev => write_ok ev = false) (trace st);
  ph_order : precedes write_ok recvish (trace st);
  ph_done : done st = true <-> recvSt st = RDone;
  ph_closed : done st = true -> EvCloseDone ∈ trace st;
  ph_waited : mainSt st = MDeferred None \/ mainSt st = MReturned None ->
              done st = true
}.

Lemma phases_init : phases init.
Proof.
  split; cbn.
  - tauto.
  - intros _. constructor.
  - discriminate.
  - intros _. constructor.
  - apply precedes_nil.
  - split; discriminate.
  - discriminate.
  - intros [H|H]; discriminate H.
Qed.

Ltac field_auto :=
  cbn [mainSt recvSt done trace before_go after_write recvish is_recv_ev
       write_ok] in *;
  rewrite ?app_nil_r, ?Forall_app, ?Exists_app, ?elem_of_app in *;
  try apply precedes_snoc;
  cbn [recvish is_recv_ev write_ok];
  intuition (try congruence; try discriminate; auto;
             try (repeat constructor; fail)).

Lemma phases_step (st st' : state) (i : input) :
  phases st -> step opts st i = Some st' -> phases st'.
Proof.
  intros [A1 A2 B1 B2 C D1 D2 D3] H. destruct st as [ms rs d t].
  cbn [mainSt recvSt done trace] in *.
  step_cases H; split; field_auto.
  1: { injection H4 as ->. auto. }
  all: destruct r; [discriminate (H0 eq_refl) | auto].
Qed.

(** *** What run returns *)

Record outcomes (st : state) : Prop := {
  oc_start : mainSt st = MStart -> trace st = [];
  oc_plan :
    match mainSt st with
    | MStart => True
    | MDial u p d => run_prepare opts = inr (u, p, d)
    | MDeferred (Some e) =>
        exists p err,
          e = Errorf_send err
          /\ EvWriteMessage websocket.TextMessage p (Some err) ∈ trace st
    | MReturned (Some e) =>
        (run_prepare opts = inl e /\ trace st = [])
        \/ (exists u p d err,
              run_prepare opts = inr (u, p, d) /\ e = Errorf_dial u err
              /\ EvDial u d (websocket.DialErr err) ∈ trace st)
        \/ (exists p err,
              e = Errorf_send err
              /\ EvWriteMessage websocket.TextMessage p (Some err) ∈ trace st)
    | MConnected p _ | MSend p | MSent p =>
        exists u d, run_prepare opts = inr (u, p, d)
    | _ => exists x, run_prepare opts = inr x
    end;
  oc_write_failed :
    forall mt p err, EvWriteMessage mt p (Some err) ∈ trace st ->
    mainSt st = MDeferred (Some (Errorf_send err))
    \/ mainSt st = MReturned (Some (Errorf_send err));
  oc_payload :
    forall mt p r, EvWriteMessage mt p r ∈ trace st ->
    mt = websocket.TextMessage /\ exists u d, run_prepare opts = inr (u, p, d);
  oc_dial :
    forall u d r, EvDial u d r ∈ trace st ->
    exists p, run_prepare opts = inr (u, p, d)
}.

Lemma outcomes_init : outcomes init.
Proof.
  split; cbn; auto; intros; exfalso; eapply not_elem_of_nil; eauto.
Qed.

(** A step of the receive task while the main task has not started it does
    not exist. *)
Ltac impossible A :=
  try solve [ exfalso; cbn in A; destruct A as [A _];
              first [ discriminate (A eq_refl) | discriminate A ] ].

Ltac in_snoc :=
  repeat match goal with
         | H : _ ∈ _ ++ [_] |- _ =>
             apply elem_of_app in H as [H|H];
             [|apply list_elem_of_singleton in H; try discriminate H;
               try (injection H as -> -> ->)]
         | H : _ ∈ [] |- _ => exfalso; exact (not_elem_of_nil _ H)
         end.

Ltac in_last := apply elem_of_app; right; apply list_elem_of_singleton; reflexivity.
Ltac in_old := apply elem_of_app; left; eassumption.

Ltac split_deferred A :=
  try match type of A with
      | context [MDeferred ?r] => is_var r; destruct r
      end.

Lemma outcomes_step (st st' : state) (i : input) :
  phases st -> outcomes st -> step opts st i = Some st' -> outcomes st'.
Proof.
  intros [A1 _ _ _ _ _ _ _] [F1 F2 F3 F4 F5] H. destruct st as [ms rs d t].
  cbn [mainSt recvSt done trace] in *.
  step_cases H; subst; split_deferred A1; impossible A1;
    split; cbn [mainSt recvSt done trace] in *;
    rewrite ?app_nil_r; try discriminate; auto; intros; in_snoc;
    try (rewrite (F1 eq_refl) in *; in_snoc);
    eauto 8; try (split; eauto; fail).
  all: try match goal with
           | Hm : EvWriteMessage _ _ (Some _) ∈ _ |- _ \/ _ =>
               destruct (F3 _ _ _ Hm) as [X|X]; try discriminate X;
               try (injection X as ->); auto
           end.
  all: try (right; left; do 4 eexists; repeat split; eauto; in_last).
  all: try (do 2 eexists; split; [reflexivity|in_last]).
  all: try (destruct F2 as (p & err & -> & Hin)).
  all: try (right; right; do 2 eexists; split; [reflexivity|in_old]).
  all: destruct F2 as (? & ? & ?); eauto.
Qed.

(** *** The timeout *)

(** The events of the main task from the select on. *)
Definition is_timeout_ev (ev : event) : bool :=
  match ev with
  | EvTimer _ | EvStderr Main (NoMoreMessages _) | EvWriteControl _ _ _ _
  | EvConnClose => true
  | _ => false
  end.

(** The close frame that run sends after the timeout (lines 136-140). *)
Definition close_frame (r : option error) : event :=
  EvWriteControl websocket.CloseMessage
    (websocket.FormatCloseMessage websocket.CloseNormalClosure "timeout")
    Second r.

(** What the main task does when the timer wins the select, up to the
    wait. *)
Definition timed_out (r : option error) : list event :=
  [EvTimer (readTimeout opts);
   EvStderr Main (NoMoreMessages (readTimeout opts));
   close_frame r].

Definition timeouts (st : state) : Prop :=
  let tp := List.filter is_timeout_ev (trace st) in
  match mainSt st with
  | MTimedOut => 0 < readTimeout opts /\ tp = [EvTimer (readTimeout opts)]
  | MCloseFrame =>
      0 < readTimeout opts
      /\ tp = [EvTimer (readTimeout opts);
               EvStderr Main (NoMoreMessages (readTimeout opts))]
  | MWaitDone => 0 < readTimeout opts /\ exists r, tp = timed_out r
  | MDeferred None =>
      tp = [] \/ (0 < readTimeout opts /\ exists r, tp = timed_out r)
  | MReturned None =>
      tp = [EvConnClose]
      \/ (0 < readTimeout opts /\ exists r, tp = timed_out r ++ [EvConnClose])
  | MReturned (Some _) => tp = [] \/ tp = [EvConnClose]
  | _ => tp = []
  end.

Lemma timeouts_init : timeouts init.
Proof. reflexivity. Qed.

Lemma timeouts_step (st st' : state) (i : input) :
  timeouts st -> step opts st i = Some st' -> timeouts st'.
Proof.
  unfold timeouts. intros G H. destruct st as [ms rs d t].
  cbn [mainSt recvSt done trace] in *.
  step_cases H; subst; cbn [mainSt recvSt done trace] in *;
    rewrite ?List.filter_app, ?app_nil_r; cbn [List.filter is_timeout_ev];
    rewrite ?app_nil_r; auto.
  - rewrite G. split; [now apply Z.ltb_lt|reflexivity].
  - destruct G as [? ->]. split; auto.
  - destruct G as [? ->]. split; [assumption|]. now exists r.
  - destruct r as [e|].
    + rewrite G. now right.
    + destruct G as [-> | [? [r0 ->]]]; [now left|].
      right. split; [assumption|]. now exists r0.
Qed.

(** *** The receive task *)

(** The events of the frames read and printed so far. *)
Definition frames (msgs : list string) : list event :=
  flat_map (fun m => [EvReadMessage (inr m); EvStdout Recv (printMessage m)]) msgs.

Lemma frames_snoc (msgs : list string) (m : string) :
  frames (msgs ++ [m]) =
    frames msgs ++ [EvReadMessage (inr m); EvStdout Recv (printMessage m)].
Proof. unfold frames. rewrite flat_map_app. reflexivity. Qed.

(** The end of the receive task after the read error [e] (lines 122-125 and
    the deferred close). *)
Definition read_end (e : error) : list event :=
  [EvReadMessage (inl e); EvStderr Recv (ReadFinished e); EvCloseDone].

Definition receiver (st : state) : Prop :=
  let rp := List.filter is_recv_ev (trace st) in
  exists msgs,
    match recvSt st with
    | RIdle => rp = []
    | RRead => rp = frames msgs
    | RPrint m => rp = frames msgs ++ [EvReadMessage (inr m)]
    | RFinish e => rp = frames msgs ++ [EvReadMessage (inl e)]
    | RClosing =>
        exists e,
          rp = frames msgs ++ [EvReadMessage (inl e); EvStderr Recv (ReadFinished e)]
    | RDone => exists e, rp = frames msgs ++ read_end e
    end.

Lemma receiver_init : receiver init.
Proof. now exists []. Qed.

Lemma receiver_step (st st' : state) (i : input) :
  phases st -> receiver st -> step opts st i = Some st' -> receiver st'.
Proof.
  unfold receiver. intros [A1 A2 _ _ _ _ _ _] [msgs G] H. destruct st as [ms rs d t].
  cbn [mainSt recvSt done trace] in *.
  step_cases H; subst; cbn [mainSt recvSt done trace] in *;
    rewrite ?List.filter_app, ?app_nil_r; cbn [List.filter is_recv_ev];
    rewrite ?app_nil_r; eauto.
  all: first
    [ exists (msgs ++ [msg]); rewrite frames_snoc, G, <- app_assoc; reflexivity
    | exists msgs; rewrite G; reflexivity
    | exists msgs; eexists; rewrite G, <- app_assoc; reflexivity
    | destruct G as [e0 G]; exists msgs, e0; rewrite G, <- app_assoc; reflexivity
    | destruct A1 as [A1 _]; rewrite (A1 eq_refl) in G;
      exists []; rewrite G; reflexivity ].
Qed.


(** *** The return of run after the receive task *)

Definition closing (st : state) : Prop :=
  mainSt st = MReturned None ->
  exists t, trace st = t ++ [EvConnClose] /\ EvCloseDone ∈ t.

Lemma closing_init : closing init.
Proof. discriminate. Qed.

Lemma closing_step (st st' : state) (i : input) :
  phases st -> closing st -> step opts st i = Some st' -> closing st'.
Proof.
  unfold closing. intros [_ _ _ _ _ _ D2 D3] G H. destruct st as [ms rs d t].
  cbn [mainSt recvSt done trace] in *.
  step_cases H; subst; cbn [mainSt recvSt done trace] in *; try discriminate.
  intros [= ->]. exists t. split; [reflexivity|]. apply D2, D3. now left.
Qed.

(** *** The invariant *)

Record invariant (st : state) : Prop := {
  inv_phases : phases st;
  inv_outcomes : outcomes st;
  inv_timeouts : timeouts st;
  inv_receiver : receiver st;
  inv_closing : closing st
}.

Lemma exec_inv (inputs : list input) (st : state) :
  exec opts init inputs = Some st -> invariant st.
Proof.
  apply exec_invariant.
  - split; [apply phases_init|apply outcomes_init|apply timeouts_init
           |apply receiver_init|apply closing_init].
  - intros s i s' [I1 I2 I3 I4 I5] H. split.
    + eapply phases_step; eauto.
    + eapply outcomes_step; eauto.
    + eapply timeouts_step; eauto.
    + eapply receiver_step; eauto.
    + eapply closing_step; eauto.
Qed.

(** *** Completion *)

(** The steps that end the receive task, when its pending or next read
    returns the error [e]. *)
Definition finish_recv (r : recvState) (e : error) : list input :=
  match r with
  | RIdle | RDone => []
  | RRead => [IRead (inl e); IRecv; IRecv]
  | RPrint _ => [IRecv; IRead (inl e); IRecv; IRecv]
  | RFinish _ => [IRecv; IRecv]
  | RClosing => [IRecv]
  end.

(** The steps that take the main task to its return, once done is closed;
    [w] is what WriteControl returns, if it is still to be called. *)
Definition finish_main (m : mainState) (w : option error) : list input :=
  match m with
  | MWait | MWaitDone => [IMain; IMain]
  | MTimedOut => [IMain; IWrite w; IMain; IMain]
  | MCloseFrame => [IWrite w; IMain; IMain]
  | MDeferred _ => [IMain]
  | _ => []
  end.

Lemma exec_app (st : state) (l1 l2 : list input) :
  exec opts st (l1 ++ l2) =
    match exec opts st l1 with
    | Some st' => exec opts st' l2
    | None => None
    end.
Proof.
  revert st. induction l1 as [|i l1 IH]; intros st; [reflexivity|].
  cbn. destruct (step opts st i); [apply IH|reflexivity].
Qed.

(** Once the receive task runs, a read error lets run return: the receive
    task ends, then the main task returns no error. *)
Lemma completion (inputs : list input) (st : state) (e : error) (w : option error) :
  exec opts init inputs = Some st ->
  recvSt st <> RIdle ->
  (forall r, mainSt st <> MReturned r) ->
  exists st',
    exec opts st (finish_recv (recvSt st) e ++ finish_main (mainSt st) w) = Some st'
    /\ mainSt st' = MReturned None /\ recvSt st' = RDone.
Proof.
  intros He Hr Hm.
  destruct (exec_inv inputs st He) as [[A1 _ _ _ _ D1 _ D3] _ _ _ _].
  destruct st as [ms rs d t]. cbn [mainSt recvSt done trace] in *.
  assert (Hgo : before_go ms = false).
  { destruct (before_go ms) eqn:E; [|reflexivity]. exfalso. now apply Hr, A1. }
  assert (Hd : rs = RDone -> d = true) by (intros ->; now apply D1).
  assert (Hw : ms = MDeferred None -> rs = RDone) by (intros ->; apply D1, D3; now left).
  destruct ms as [| | | | | | | | | |[?|]|r]; try discriminate Hgo;
    try (exfalso; now apply (Hm r));
    destruct rs; try contradiction; try (discriminate (Hw eq_refl));
    try (rewrite (Hd eq_refl));
    (eexists; split; [reflexivity|split; reflexivity]).
Qed.

End run_facts.

(** *** The flag check of run (lines 86-88) *)

(** run_prepare returns the mismatch error exactly when the flag is set and
    the URL built does not start with wss://. *)
Lemma run_prepare_insecure (opts : options) :
  run_prepare opts = inl Errorf_insecure <->
  insecureTLS opts = true
  /\ exists fullURL,
       buildURL (baseURL opts) (path opts) (port opts) = (fullURL, None)
       /\ strings.HasPrefix fullURL "wss://" = false.
Proof.
  unfold run_prepare.
  destruct (buildURL (baseURL opts) (path opts) (port opts)) as [fullURL [e|]] eqn:Hb.
  - split.
    + intros [= ->]. apply buildURL_error_kind in Hb.
      destruct Hb as [[? H]|[H|[[? H]|H]]]; discriminate H.
    + intros (_ & f & [=] & _).
  - pose proof (marshal_facts.Marshal_no_error (data opts)) as Hm.
    destruct (json.Marshal (data opts)) as [payload m]. cbn [snd] in Hm. subst m.
    destruct (insecureTLS opts); cbn [andb].
    + destruct (strings.HasPrefix fullURL "wss://") eqn:Hw; cbn [negb].
      * split; [discriminate|]. intros (_ & f & [= <-] & Hf). congruence.
      * split; [|reflexivity]. intros _. split; [reflexivity|]. now exists fullURL.
    + split; [discriminate|]. intros [[=] _].
Qed.

(** The state in which run has returned the mismatch error: nothing has
    happened. *)
Definition mismatch_end : state :=
  mkState (MReturned (Some Errorf_insecure)) RIdle false [].

(** The flags of the specification's example of a mismatch: skip
    verification on a ws URL. *)
Definition mismatch_opts : options :=
  mkOptions "ws://host" "/ws" 0 10000000000 10000000000 (Some ∅) true.

(** C4: when the skip-verification flag is set and the URL that buildURL
    builds has a scheme other than wss, run returns the scheme-mismatch error
    in its first step, and no schedule produces any event: no dial, no write,
    no read.  When the flag is unset, or the scheme is wss, run never returns
    that error. *)
Theorem C4_scheme_mismatch :
  (forall (opts : options) (u : url.URL),
     url.Parse (baseURL opts) = Ok u ->
     url.Scheme u = "ws" \/ url.Scheme u = "wss" ->
     url.Host u <> EmptyString ->
     insecureTLS opts = true ->
     url.Scheme u <> "wss" ->
     run_prepare opts = inl Errorf_insecure
     /\ step opts init IMain = Some mismatch_end
     /\ forall inputs st,
          run opts inputs = Some st ->
          trace st = []
          /\ (inputs = [] /\ st = init \/ inputs = [IMain] /\ st = mismatch_end))
  /\ (forall (opts : options),
        insecureTLS opts = false
        \/ (exists u, url.Parse (baseURL opts) = Ok u /\ url.Scheme u = "wss") ->
        run_prepare opts <> inl Errorf_insecure
        /\ forall inputs st,
             run opts inputs = Some st ->
             mainSt st <> MReturned (Some Errorf_insecure)
             /\ mainSt st <> MDeferred (Some Errorf_insecure))
  /\ run mismatch_opts [IMain] = Some mismatch_end
  /\ exit_status None (Some Errorf_insecure) = 1.
Proof.
  repeat apply conj; [| |reflexivity|reflexivity].
  - intros opts u Hp Hs Hh Hi Hw.
    assert (Hprep : run_prepare opts = inl Errorf_insecure).
    { apply run_prepare_insecure. split; [exact Hi|].
      pose proof (buildURL_ok (baseURL opts) (path opts) (port opts) u Hp Hs Hh) as Hb.
      eexists. split; [exact Hb|].
      pose proof (buildURL_wss_prefix (baseURL opts) (path opts) (port opts) u Hp Hs Hh)
        as Hx.
      rewrite Hb in Hx. cbn [fst] in Hx. rewrite Hx. now apply String.eqb_neq. }
    assert (Hstep : step opts init IMain = Some mismatch_end).
    { unfold step. cbn [mainSt init]. now rewrite Hprep. }
    split; [exact Hprep|]. split; [exact Hstep|].
    intros [|i rest] st He; unfold run in He.
    + injection He as <-. split; [reflexivity|]. now left.
    + cbn [exec] in He. destruct i; try discriminate He.
      rewrite Hstep in He. destruct rest as [|j rest]; [|discriminate He].
      injection He as <-. split; [reflexivity|]. now right.
  - intros opts Hc.
    assert (Hne : run_prepare opts <> inl Errorf_insecure).
    { intros (Hi & fullURL & Hb & Hw)%run_prepare_insecure.
      destruct Hc as [Hc|(u & Hp & Hs)]; [congruence|].
      destruct (String.eqb_spec (url.Host u) EmptyString) as [Hh|Hh].
      - unfold buildURL in Hb. rewrite Hp, Hs, Hh in Hb. discriminate Hb.
      - pose proof (buildURL_wss_prefix (baseURL opts) (path opts) (port opts) u Hp
                      (or_intror Hs) Hh) as Hx.
        rewrite Hb, Hs in Hx. cbn [fst] in Hx. rewrite Hw in Hx. discriminate Hx. }
    split; [exact Hne|]. intros inputs st He.
    pose proof (inv_outcomes opts st (exec_inv opts inputs st He)) as [_ F2 _ _ _].
    split; intros Hm; rewrite Hm in F2.
    + destruct F2 as [[H _]|[(? & ? & ? & ? & _ & H & _)|(? & ? & H & _)]];
        [contradiction|discriminate H|discriminate H].
    + destruct F2 as (? & ? & H & _). discriminate H.
Qed.

(** C4 at the flags of the example. *)
Lemma C4_witness :
  run_prepare mismatch_opts = inl Errorf_insecure
  /\ step mismatch_opts init IMain = Some mismatch_end
  /\ forall inputs st,
       run mismatch_opts inputs = Some st ->
       trace st = []
       /\ (inputs = [] /\ st = init \/ inputs = [IMain] /\ st = mismatch_end).
Proof.
  apply (proj1 C4_scheme_mismatch mismatch_opts
           (url.mkURL "ws" EmptyString None "host" EmptyString EmptyString
                      false false EmptyString EmptyString EmptyString)).
  - reflexivity.
  - now left.
  - discriminate.
  - reflexivity.
  - discriminate.
Defined.

(** *** The send and the receive task (lines 112-129) *)

(** The flags of the README's example, after parseFlags. *)
Definition readme_opts : options := set_data example_opts {["user" := "alice"]}.

(** A schedule in which the peer accepts the connection and the write
    fails. *)
Definition failed_send : list input :=
  [IMain; IDial (websocket.DialOk (Some "101 Switching Protocols")); IMain;
   IWrite (Some (net_error 1)); IMain].

(** C6: in every run the start of the receive task and each of its events
    (a read, a printed reply, its diagnostic, the close of done) come after a
    WriteMessage of the payload, as a text message, that returned no error.  If
    the WriteMessage fails the receive task is never started, no event of it
    occurs, and run returns the send error, after the deferred close of the
    connection. *)
Theorem C6_send_before_receive (opts : options) (inputs : list input) (st : state) :
  run opts inputs = Some st ->
  (forall t1 ev t2,
     trace st = t1 ++ ev :: t2 -> recvish ev = true ->
     Exists (fun e => write_ok e = true) t1)
  /\ (recvSt st <> RIdle -> Exists (fun e => write_ok e = true) (trace st))
  /\ (forall mt p r,
        EvWriteMessage mt p r ∈ trace st ->
        mt = websocket.TextMessage
        /\ exists u d, run_prepare opts = inr (u, p, d))
  /\ (forall mt p err,
        EvWriteMessage mt p (Some err) ∈ trace st ->
        recvSt st = RIdle
        /\ Forall (fun ev => recvish ev = false) (trace st)
        /\ (mainSt st = MDeferred (Some (Errorf_send err))
            \/ mainSt st = MReturned (Some (Errorf_send err)))
        /\ (mainSt st = MDeferred (Some (Errorf_send err)) ->
            step opts st IMain =
              Some (mkState (MReturned (Some (Errorf_send err))) RIdle (done st)
                            (trace st ++ [EvConnClose])))).
Proof.
  intros He. destruct (exec_inv opts inputs st He) as [[A1 A2 B1 B2 C D1 D2 D3] F _ _ _].
  repeat apply conj.
  - exact C.
  - intros Hr. apply B1. destruct (before_go (mainSt st)) eqn:E.
    + exfalso. now apply Hr, A1.
    + destruct (mainSt st) as [| | | | | | | | | |[?|]|[?|]]; try discriminate E; reflexivity.
  - exact (oc_payload opts st F).
  - intros mt p err Hin.
    pose proof (oc_write_failed opts st F mt p err Hin) as Hm.
    assert (Hidle : recvSt st = RIdle).
    { apply A1. destruct Hm as [-> | ->]; reflexivity. }
    repeat apply conj; [exact Hidle|now apply A2|exact Hm|].
    intros Hd. destruct st as [ms rs d t]. cbn [mainSt recvSt done trace] in *.
    subst ms rs. reflexivity.
Qed.

(** The state at the end of [failed_send]. *)
Definition failed_send_end : state :=
  Eval vm_compute in
    match run readme_opts failed_send with
    | Some st => st
    | None => init
    end.

(** C6 on the schedule of a failed send. *)
Lemma C6_witness :
  run readme_opts failed_send = Some failed_send_end
  /\ mainSt failed_send_end = MReturned (Some (Errorf_send (net_error 1)))
  /\ recvSt failed_send_end = RIdle
  /\ Forall (fun ev => recvish ev = false) (trace failed_send_end).
Proof.
  assert (He : run readme_opts failed_send = Some failed_send_end)
    by (vm_compute; reflexivity).
  split; [exact He|]. split; [reflexivity|]. split; [reflexivity|].
  refine (proj1 (proj2 (proj2 (proj2 (proj2
    (C6_send_before_receive readme_opts failed_send failed_send_end He)))
    websocket.TextMessage (fst (json.Marshal (data readme_opts))) (net_error 1) _))).
  vm_compute. repeat constructor.
Defined.

(** *** The end of the receive task (lines 121-126) *)

Definition is_read_error (ev : event) : bool :=
  match ev with
  | EvReadMessage (inl _) => true
  | _ => false
  end.

Lemma frames_no_error (msgs : list string) :
  Forall (fun ev => is_read_error ev = false) (frames msgs).
Proof. induction msgs; cbn; repeat constructor; assumption. Qed.

(** A list with one element that satisfies [P] is cut at that element in one
    way. *)
Lemma split_at_only (P : event -> bool) (l1 l2 m1 m2 : list event) (a a' : event) :
  l1 ++ a :: l2 = m1 ++ a' :: m2 ->
  P a = true ->
  Forall (fun x => P x = false) m1 -> Forall (fun x => P x = false) m2 ->
  l1 = m1 /\ a = a' /\ l2 = m2.
Proof.
  revert m1. induction l1 as [|y l1 IH]; intros [|x m1] Heq Ha H1 H2; cbn in Heq.
  - injection Heq as -> ->. auto.
  - injection Heq as -> ->. apply Forall_cons in H1 as [H1 _]. congruence.
  - injection Heq as -> <-. exfalso.
    apply Forall_app in H2 as [_ H2]. apply Forall_cons in H2 as [H2 _]. congruence.
  - injection Heq as -> Heq. apply Forall_cons in H1 as [_ H1].
    destruct (IH m1 Heq Ha H1 H2) as (-> & -> & ->). auto.
Qed.

Lemma no_read_error (l1 l2 m : list event) (a : event) :
  l1 ++ a :: l2 = m -> is_read_error a = true ->
  Forall (fun x => is_read_error x = false) m -> False.
Proof.
  intros <- Ha H. apply Forall_app in H as [_ H].
  apply Forall_cons in H as [H _]. congruence.
Qed.

(** A schedule in which the peer sends one frame and closes. *)
Definition peer_closes : list input :=
  [IMain; IDial (websocket.DialOk (Some "101 Switching Protocols")); IMain;
   IWrite None; IMain; IMain; IRead (inr "hello"); IRecv;
   IRead (inl (net_error 1006)); IRecv; IRecv; IMain; IMain].

Definition peer_closes_end : state :=
  Eval vm_compute in
    match run readme_opts peer_closes with
    | Some st => st
    | None => init
    end.

(** C8: a read that returns an error, whatever the error, ends the receive
    task: before it the task has only read frames and printed them, after
    it the task only writes the diagnostic with that error and closes done, and
    both steps are enabled; run is then past the send, so what it returns is no
    error, after the receive task has ended, and the exit status is 0; from
    every such state a schedule takes run to that return. *)
Theorem C8_read_end_is_normal (opts : options) (inputs : list input) (st : state)
    (t1 t2 : list event) (e : error) :
  run opts inputs = Some st ->
  trace st = t1 ++ EvReadMessage (inl e) :: t2 ->
  (exists msgs, List.filter is_recv_ev t1 = frames msgs)
  /\ (recvSt st = RFinish e /\ List.filter is_recv_ev t2 = []
      \/ recvSt st = RClosing
         /\ List.filter is_recv_ev t2 = [EvStderr Recv (ReadFinished e)]
      \/ recvSt st = RDone
         /\ List.filter is_recv_ev t2 = [EvStderr Recv (ReadFinished e); EvCloseDone])
  /\ (recvSt st = RFinish e ->
      step opts st IRecv =
        Some (mkState (mainSt st) RClosing (done st)
                      (trace st ++ [EvStderr Recv (ReadFinished e)])))
  /\ (recvSt st = RClosing ->
      step opts st IRecv =
        Some (mkState (mainSt st) RDone true (trace st ++ [EvCloseDone])))
  /\ (forall r, mainSt st = MDeferred r \/ mainSt st = MReturned r ->
        r = None /\ recvSt st = RDone /\ exit_status None r = 0)
  /\ ((forall r, mainSt st <> MReturned r) ->
      forall w, exists st',
        exec opts st (finish_recv (recvSt st) e ++ finish_main (mainSt st) w)
          = Some st'
        /\ mainSt st' = MReturned None).
Proof.
  intros He Ht.
  destruct (exec_inv opts inputs st He) as [[A1 A2 B1 B2 C D1 D2 D3] F G [msgs R] _].
  cbn zeta in R. rewrite Ht, List.filter_app in R. cbn [List.filter is_recv_ev] in R.
  assert (Hstate :
    (exists msgs, List.filter is_recv_ev t1 = frames msgs)
    /\ (recvSt st = RFinish e /\ List.filter is_recv_ev t2 = []
        \/ recvSt st = RClosing
           /\ List.filter is_recv_ev t2 = [EvStderr Recv (ReadFinished e)]
        \/ recvSt st = RDone
           /\ List.filter is_recv_ev t2 = [EvStderr Recv (ReadFinished e); EvCloseDone])).
  { destruct (recvSt st) as [| |m|e'| |].
    - destruct (List.filter is_recv_ev t1); discriminate R.
    - exfalso. eapply no_read_error; [exact R|reflexivity|apply frames_no_error].
    - exfalso. eapply no_read_error; [exact R|reflexivity|].
      apply Forall_app. split; [apply frames_no_error|repeat constructor].
    - apply (split_at_only is_read_error) in R as (R1 & [= ->] & R2);
        [|reflexivity|apply frames_no_error|constructor].
      split; [now exists msgs|]. now left.
    - destruct R as [e' R].
      apply (split_at_only is_read_error) in R as (R1 & [= ->] & R2);
        [|reflexivity|apply frames_no_error|repeat constructor].
      split; [now exists msgs|]. right; left. auto.
    - destruct R as [e' R].
      apply (split_at_only is_read_error) in R as (R1 & [= ->] & R2);
        [|reflexivity|apply frames_no_error|repeat constructor].
      split; [now exists msgs|]. right; right. auto. }
  destruct Hstate as [H1 H2].
  assert (Hstarted : before_go (mainSt st) = false).
  { destruct (before_go (mainSt st)) eqn:E; [|reflexivity].
    pose proof (proj1 A1 eq_refl) as Hi.
    destruct H2 as [[H _]|[[H _]|[H _]]]; congruence. }
  assert (Hrunning : recvSt st <> RDone -> forall r, mainSt st <> MReturned r).
  { intros Hnd r Hm. rewrite Hm in Hstarted. destruct r; [discriminate|].
    apply Hnd, D1, D3. now right. }
  repeat apply conj; [exact H1|exact H2| | | |].
  4:{ intros Hm w.
      destruct (completion opts inputs st e w He) as (st' & Hx & Hy & _);
        [destruct H2 as [[H _]|[[H _]|[H _]]]; congruence|exact Hm|].
      now exists st'. }
  - intros Hr. destruct st as [ms rs d t]. cbn [mainSt recvSt done trace] in *.
    subst rs. unfold step. cbn [mainSt recvSt done trace].
    destruct ms; try reflexivity. exfalso. eapply Hrunning; [discriminate|reflexivity].
  - intros Hr. destruct st as [ms rs d t]. cbn [mainSt recvSt done trace] in *.
    subst rs. unfold step. cbn [mainSt recvSt done trace].
    destruct ms; try reflexivity. exfalso. eapply Hrunning; [discriminate|reflexivity].
  - intros r Hm.
    assert (r = None) as ->.
    { destruct Hm as [Hm|Hm]; rewrite Hm in Hstarted; destruct r; [discriminate|reflexivity|discriminate|reflexivity]. }
    split; [reflexivity|]. split; [|reflexivity].
    apply D1, D3. destruct Hm; auto.
Qed.

(** C8 on the schedule in which the peer closes. *)
Lemma C8_witness :
  run readme_opts peer_closes = Some peer_closes_end
  /\ mainSt peer_closes_end = MReturned None
  /\ recvSt peer_closes_end = RDone
  /\ exit_status None None = 0.
Proof.
  assert (He : run readme_opts peer_closes = Some peer_closes_end)
    by (vm_compute; reflexivity).
  split; [exact He|]. split; [reflexivity|].
  destruct (C8_read_end_is_normal readme_opts peer_closes peer_closes_end
              (firstn 7 (trace peer_closes_end)) (skipn 8 (trace peer_closes_end))
              (net_error 1006) He eq_refl) as (_ & _ & _ & _ & H & _).
  destruct (H None (or_intror eq_refl)) as (_ & Hd & Hx).
  split; [exact Hd|exact Hx].
Defined.

(** *** The timeout (lines 131-145) *)

Lemma in_timeout_part (ev : event) (t : list event) :
  ev ∈ t -> is_timeout_ev ev = true -> In ev (List.filter is_timeout_ev t).
Proof. intros H1 H2. apply List.filter_In. split; [now apply list_elem_of_In|exact H2]. Qed.

(** A schedule in which the peer sends one frame, the timer fires, and the
    peer answers the close frame. *)
Definition peer_silent : list input :=
  [IMain; IDial (websocket.DialOk (Some "101 Switching Protocols")); IMain;
   IWrite None; IMain; IMain; IRead (inr "hello"); IRecv;
   ITimer; IMain; IWrite None;
   IRead (inl (net_error 1000)); IRecv; IRecv; IMain; IMain].

Definition peer_silent_end : state :=
  Eval vm_compute in
    match run readme_opts peer_silent with
    | Some st => st
    | None => init
    end.

(** The select of line 132.  With a positive read timeout the case of the
    timer can be taken whenever the main task waits there. *)
Lemma timer_enabled (opts : options) (st : state) :
  0 < readTimeout opts -> mainSt st = MWait ->
  step opts st ITimer =
    Some (mkState MTimedOut (recvSt st) (done st)
                  (trace st ++ [EvTimer (readTimeout opts)])).
Proof.
  intros HT Hm. destruct st as [ms rs d t]. cbn [mainSt recvSt done trace] in *.
  subst ms. unfold step, main_to. cbn [mainSt recvSt done trace].
  apply Z.ltb_lt in HT. now rewrite HT.
Qed.

(** From the select, the run in which the timer is taken and the pending
    or next read of the receive task then returns an error. *)
Lemma timer_wins (opts : options) (inputs : list input) (st : state)
    (w : option error) (e : error) :
  run opts inputs = Some st ->
  0 < readTimeout opts -> mainSt st = MWait ->
  exists st' t',
    exec opts st ([ITimer; IMain; IWrite w] ++ finish_recv (recvSt st) e
                  ++ [IMain; IMain]) = Some st'
    /\ mainSt st' = MReturned None
    /\ trace st' = trace st ++ timed_out opts w ++ t' ++ [EvConnClose]
    /\ Forall (fun ev => is_recv_ev ev = true) t'
    /\ List.filter is_timeout_ev (trace st') = timed_out opts w ++ [EvConnClose].
Proof.
  intros He HT Hm.
  destruct (exec_inv opts inputs st He) as [[A1 _ _ _ _ D1 _ _] _ G _ _].
  unfold timeouts in G. cbn zeta in G. rewrite Hm in G.
  destruct st as [ms rs d t]. cbn [mainSt recvSt done trace] in *. subst ms.
  assert (Hr : rs <> RIdle) by (intros ->; discriminate (proj2 A1 eq_refl)).
  assert (Hd : rs = RDone -> d = true) by (intros ->; now apply D1).
  apply Z.ltb_lt in HT.
  assert (Hfilter : forall t',
            Forall (fun ev => is_recv_ev ev = true) t' ->
            List.filter is_timeout_ev (t ++ timed_out opts w ++ t' ++ [EvConnClose])
              = timed_out opts w ++ [EvConnClose]).
  { intros t' Ht'. rewrite !List.filter_app, G.
    replace (List.filter is_timeout_ev t') with (@nil event); [reflexivity|].
    clear -Ht'. induction Ht' as [|ev l Hev _ IH]; [reflexivity|].
    cbn [List.filter]. destruct ev as [| [] | [] | | | | | | | ]; try discriminate Hev; exact IH. }
  assert (Hrun : forall rs' d' t',
            Forall (fun ev => is_recv_ev ev = true) t' ->
            exec opts (mkState MWait rs' d' t)
              ([ITimer; IMain; IWrite w] ++ finish_recv rs' e ++ [IMain; IMain])
              = Some (mkState (MReturned None) RDone true
                        (t ++ timed_out opts w ++ t' ++ [EvConnClose])) ->
            exists st' t'0,
              exec opts (mkState MWait rs' d' t)
                ([ITimer; IMain; IWrite w] ++ finish_recv rs' e ++ [IMain; IMain])
                = Some st'
              /\ mainSt st' = MReturned None
              /\ trace st' = t ++ timed_out opts w ++ t'0 ++ [EvConnClose]
              /\ Forall (fun ev => is_recv_ev ev = true) t'0
              /\ List.filter is_timeout_ev (trace st')
                 = timed_out opts w ++ [EvConnClose]).
  { intros rs' d' t' Ht' Hx. eexists _, t'. split; [exact Hx|].
    cbn [mainSt trace]. auto. }
  destruct rs as [| |msg|e0| |]; [contradiction| | | | |rewrite (Hd eq_refl)].
  - apply (Hrun _ _ [EvReadMessage (inl e); EvStderr Recv (ReadFinished e); EvCloseDone]);
      [repeat constructor|].
    cbn [finish_recv app exec]. unfold step, main_to, recv_to.
    cbn [mainSt recvSt done trace]. rewrite HT. cbn [mainSt recvSt done trace].
    unfold timed_out, close_frame. rewrite <- !app_assoc. reflexivity.
  - apply (Hrun _ _ [EvStdout Recv (printMessage msg); EvReadMessage (inl e);
                     EvStderr Recv (ReadFinished e); EvCloseDone]);
      [repeat constructor|].
    cbn [finish_recv app exec]. unfold step, main_to, recv_to.
    cbn [mainSt recvSt done trace]. rewrite HT. cbn [mainSt recvSt done trace].
    unfold timed_out, close_frame. rewrite <- !app_assoc. reflexivity.
  - apply (Hrun _ _ [EvStderr Recv (ReadFinished e0); EvCloseDone]);
      [repeat constructor|].
    cbn [finish_recv app exec]. unfold step, main_to, recv_to.
    cbn [mainSt recvSt done trace]. rewrite HT. cbn [mainSt recvSt done trace].
    unfold timed_out, close_frame. rewrite <- !app_assoc. reflexivity.
  - apply (Hrun _ _ [EvCloseDone]); [repeat constructor|].
    cbn [finish_recv app exec]. unfold step, main_to, recv_to.
    cbn [mainSt recvSt done trace]. rewrite HT. cbn [mainSt recvSt done trace].
    unfold timed_out, close_frame. rewrite <- !app_assoc. reflexivity.
  - apply (Hrun _ _ []); [constructor|].
    cbn [finish_recv app exec]. unfold step, main_to, recv_to.
    cbn [mainSt recvSt done trace]. rewrite HT. cbn [mainSt recvSt done trace].
    unfold timed_out, close_frame. rewrite <- !app_assoc. reflexivity.
Qed.

(** The flags of the README's example with -read-timeout 300ms, and the
    state in which the main task of that run has reached the select. *)
Definition short_opts : options := flag.set_readTimeout readme_opts 300000000.

Definition at_select : state :=
  Eval vm_compute in
    match run short_opts (firstn 6 peer_silent) with
    | Some st => st
    | None => init
    end.

(** C7: with a positive read timeout the select can take the case of the
    timer whenever the main task waits there (line 134), whatever the value
    of the timeout; and it takes that case only when the read timeout is
    positive.  When the timer is taken before the receive task has ended,
    and the read of the receive task then ends, run writes the timeout
    diagnostic, calls WriteControl once, and returns no error after the
    receive task has closed done: the events from the select on are the
    timer, the diagnostic, the close frame, events of the receive task and
    the close of the connection.  The run calls WriteControl exactly once,
    with the close message type, the normal-closure code with the reason
    timeout, and a deadline of one second from the call, and writes the
    timeout diagnostic (line 135, just before the call); these are the only
    events of the main task until it has waited for done, which it does
    whatever WriteControl returned: at the wait no input other than the close
    of done lets it go on.  Then the connection is closed and run returns no
    error, so the exit status is 0; and once the timer has fired, a read
    error is all that run needs to get there.  With a read timeout of 0 there
    is no timer case, no diagnostic and no control frame, and the main task
    waits for done. *)
Theorem C7_timeout (opts : options) (inputs : list input) (st : state) :
  run opts inputs = Some st ->
  let T := readTimeout opts in
  let tp := List.filter is_timeout_ev (trace st) in
  (0 < T -> mainSt st = MWait ->
   step opts st ITimer =
     Some (mkState MTimedOut (recvSt st) (done st) (trace st ++ [EvTimer T])))
  /\ (0 < T -> mainSt st = MWait ->
      forall w e, exists st' t',
        exec opts st ([ITimer; IMain; IWrite w] ++ finish_recv (recvSt st) e
                      ++ [IMain; IMain]) = Some st'
        /\ mainSt st' = MReturned None /\ exit_status None None = 0
        /\ trace st' = trace st ++ timed_out opts w ++ t' ++ [EvConnClose]
        /\ Forall (fun ev => is_recv_ev ev = true) t'
        /\ List.filter is_timeout_ev (trace st')
           = timed_out opts w ++ [EvConnClose])
  /\ (forall d, EvTimer d ∈ trace st ->
     d = T /\ 0 < T
     /\ (mainSt st = MTimedOut /\ tp = [EvTimer T]
         \/ mainSt st = MCloseFrame
            /\ tp = [EvTimer T; EvStderr Main (NoMoreMessages T)]
         \/ (exists r, (mainSt st = MWaitDone \/ mainSt st = MDeferred None)
                       /\ tp = timed_out opts r)
         \/ (exists r, mainSt st = MReturned None
                       /\ tp = timed_out opts r ++ [EvConnClose])))
  /\ (mainSt st = MTimedOut ->
      step opts st IMain =
        Some (mkState MCloseFrame (recvSt st) (done st)
                      (trace st ++ [EvStderr Main (NoMoreMessages T)])))
  /\ (mainSt st = MCloseFrame ->
      forall r, step opts st (IWrite r) =
        Some (mkState MWaitDone (recvSt st) (done st)
                      (trace st ++ [close_frame r])))
  /\ (mainSt st = MWaitDone ->
      step opts st ITimer = None
      /\ (forall r, step opts st (IWrite r) = None)
      /\ (forall r, step opts st (IDial r) = None)
      /\ (done st = false -> step opts st IMain = None)
      /\ (done st = true ->
          step opts st IMain =
            Some (mkState (MDeferred None) (recvSt st) (done st) (trace st))))
  /\ (forall r, mainSt st = MReturned r -> (exists d, EvTimer d ∈ trace st) ->
      r = None /\ exit_status None r = 0
      /\ exists t, trace st = t ++ [EvConnClose] /\ EvCloseDone ∈ t)
  /\ ((exists d, EvTimer d ∈ trace st) -> (forall r, mainSt st <> MReturned r) ->
      forall e w, exists st',
        exec opts st (finish_recv (recvSt st) e ++ finish_main (mainSt st) w)
          = Some st'
        /\ mainSt st' = MReturned None /\ exit_status None None = 0)
  /\ (T <= 0 ->
      (tp = [] \/ tp = [EvConnClose])
      /\ (mainSt st = MWait ->
          step opts st ITimer = None
          /\ (done st = false -> step opts st IMain = None)
          /\ (done st = true ->
              step opts st IMain =
                Some (mkState (MDeferred None) (recvSt st) (done st) (trace st))))).
Proof.
  intros He T tp.
  destruct (exec_inv opts inputs st He) as [P F G R L].
  unfold timeouts in G. cbn zeta in G. fold tp in G. fold T in G.
  repeat apply conj.
  - intros HT Hm. now apply timer_enabled.
  - intros HT Hm w e.
    destruct (timer_wins opts inputs st w e He HT Hm)
      as (st' & t' & H1 & H2 & H3 & H4 & H5).
    exists st', t'. auto 10.
  - intros d Hin. apply in_timeout_part in Hin; [|reflexivity]. fold tp in Hin.
    destruct (mainSt st) as [| | | | | | | | | |[e|]|[e|]].
    all: try (rewrite G in Hin; destruct Hin; fail).
    + destruct G as [HT G]. rewrite G in Hin. destruct Hin as [[= <-]|[]].
      split; [reflexivity|]. split; [exact HT|]. left. auto.
    + destruct G as [HT G]. rewrite G in Hin. destruct Hin as [[= <-]|[[=]|[]]].
      split; [reflexivity|]. split; [exact HT|]. right; left. auto.
    + destruct G as [HT [r G]]. rewrite G in Hin.
      destruct Hin as [[= <-]|[[=]|[[=]|[]]]].
      split; [reflexivity|]. split; [exact HT|]. right; right; left. exists r. auto.
    + destruct G as [G|[HT [r G]]]; rewrite G in Hin; [destruct Hin|].
      destruct Hin as [[= <-]|[[=]|[[=]|[]]]].
      split; [reflexivity|]. split; [exact HT|]. right; right; left. exists r. auto.
    + destruct G as [G|G]; rewrite G in Hin; [destruct Hin|destruct Hin as [[=]|[]]].
    + destruct G as [G|[HT [r G]]]; rewrite G in Hin; [destruct Hin as [[=]|[]]|].
      destruct Hin as [[= <-]|[[=]|[[=]|[[=]|[]]]]].
      split; [reflexivity|]. split; [exact HT|]. right; right; right. exists r. auto.
  - intros Hm. destruct st as [ms rs d t]. cbn [mainSt] in Hm. now subst ms.
  - intros Hm r. destruct st as [ms rs d t]. cbn [mainSt] in Hm. now subst ms.
  - intros Hm. destruct st as [ms rs d t]. cbn [mainSt recvSt done trace] in *.
    subst ms. unfold step, main_to. cbn [mainSt recvSt done trace].
    repeat apply conj; try reflexivity; intros ->; try reflexivity.
    now rewrite app_nil_r.
  - intros r Hm [d Hin].
    assert (r = None) as ->.
    { destruct r as [e|]; [|reflexivity]. exfalso.
      apply in_timeout_part in Hin; [|reflexivity]. fold tp in Hin.
      rewrite Hm in G. destruct G as [G|G]; rewrite G in Hin;
        [destruct Hin|destruct Hin as [[=]|[]]]. }
    split; [reflexivity|]. split; [reflexivity|]. exact (L Hm).
  - intros [d Hin] Hm e w.
    destruct (completion opts inputs st e w He) as (st' & Hx & Hy & _);
      [|exact Hm|now exists st'].
    intros Hidle. destruct P as [A1 _ _ _ _ _ _ _]. apply A1 in Hidle.
    apply in_timeout_part in Hin; [|reflexivity]. fold tp in Hin.
    destruct (mainSt st) as [| | | | | | | | | |[?|]|[?|]]; try discriminate Hidle;
      try (rewrite G in Hin; destruct Hin; fail).
    destruct G as [G|G]; rewrite G in Hin; [destruct Hin|destruct Hin as [[=]|[]]].
  - intros HT. split.
    + destruct (mainSt st) as [| | | | | | | | | |[e|]|[e|]]; auto; try lia.
      * destruct G as [G|[? _]]; [auto|lia].
      * destruct G as [G|[? _]]; [auto|lia].
    + intros Hm. destruct st as [ms rs d t]. cbn [mainSt recvSt done trace] in *.
      subst ms. unfold step, main_to. cbn [mainSt recvSt done trace].
      repeat apply conj.
      * destruct (Z.ltb_spec 0 (readTimeout opts)); [unfold T in HT; lia|reflexivity].
      * now intros ->.
      * intros ->. now rewrite app_nil_r.
Qed.

(** C7 on the schedule in which the timer fires, and at the select of a
    run with a read timeout of 300ms. *)
Lemma C7_witness :
  run readme_opts peer_silent = Some peer_silent_end
  /\ mainSt peer_silent_end = MReturned None
  /\ List.filter is_timeout_ev (trace peer_silent_end)
       = timed_out readme_opts None ++ [EvConnClose]
  /\ exit_status None None = 0
  /\ (exists t, trace peer_silent_end = t ++ [EvConnClose] /\ EvCloseDone ∈ t)
  /\ run short_opts (firstn 6 peer_silent) = Some at_select
  /\ 0 < readTimeout short_opts /\ mainSt at_select = MWait
  /\ step short_opts at_select ITimer =
       Some (mkState MTimedOut RRead false
               (trace at_select ++ [EvTimer 300000000]))
  /\ exists st' t',
       exec short_opts at_select
         [ITimer; IMain; IWrite None; IRead (inl (net_error 1000)); IRecv; IRecv;
          IMain; IMain] = Some st'
       /\ mainSt st' = MReturned None
       /\ trace st' = trace at_select ++ timed_out short_opts None ++ t'
                        ++ [EvConnClose].
Proof.
  assert (He : run readme_opts peer_silent = Some peer_silent_end)
    by (vm_compute; reflexivity).
  assert (Hs : run short_opts (firstn 6 peer_silent) = Some at_select)
    by (vm_compute; reflexivity).
  assert (HT : 0 < readTimeout short_opts) by (vm_compute; reflexivity).
  split; [exact He|]. split; [reflexivity|]. split; [reflexivity|].
  destruct (C7_timeout readme_opts peer_silent peer_silent_end He)
    as (_ & _ & _ & _ & _ & _ & H & _).
  destruct (H None eq_refl) as (_ & Hx & Ht).
  - exists (readTimeout readme_opts). vm_compute. repeat constructor.
  - split; [exact Hx|]. split; [exact Ht|]. split; [exact Hs|].
    split; [exact HT|]. split; [reflexivity|].
    destruct (C7_timeout short_opts (firstn 6 peer_silent) at_select Hs)
      as (E1 & E2 & _).
    split; [exact (E1 HT eq_refl)|].
    destruct (E2 HT eq_refl None (net_error 1000))
      as (st' & t' & R1 & R2 & _ & R3 & _).
    exists st', t'. split; [exact R1|]. split; [exact R2|exact R3].
Defined.

(** ** parseFlags on every list of arguments (lines 43-79) *)

Section parseFlags_cases.
Import strings.

(** The argument [bad] makes the loop return the error [e]: it has no [=]
    (line 69), or the text before its first [=] is blank (line 73). *)
Definition rejects (bad : string) (e : error) : Prop :=
  (Contains bad "=" = false /\ e = Errorf_invalid_data bad)
  \/ (exists name value,
        bad = token name value /\ Contains name "=" = false
        /\ TrimSpace name = EmptyString /\ e = Errorf_missing_name bad).

(** The loop stores the pairs of the well-formed arguments up to the first
    one that is not, and returns there. *)
Lemma parseFlags_loop_cases (args : list string) :
  forall d : gmap string string,
  (exists kvs,
     args = tokens kvs /\ Forall (fun kv => good_name kv.1) kvs
     /\ parseFlags_loop d args = Some (store d kvs, None))
  \/ (exists kvs bad rest e,
        args = tokens kvs ++ bad :: rest
        /\ Forall (fun kv => good_name kv.1) kvs /\ rejects bad e
        /\ parseFlags_loop d args = Some (store d kvs, Some e)).
Proof.
  induction args as [|arg args IH]; intros d.
  - left. exists []. auto.
  - destruct (Contains arg "=") eqn:E.
    + destruct (strings_facts.Contains_split eq_sign arg E) as (name & value & -> & Hn).
      fold (token name value). rewrite parseFlags_loop_token by exact Hn.
      destruct (String.eqb_spec (TrimSpace name) EmptyString) as [Ht|Ht].
      * right. exists [], (token name value), args, (Errorf_missing_name (token name value)).
        repeat apply conj; auto. right. exists name, value. auto.
      * destruct (IH (<[name := value]> d))
          as [(kvs & -> & Hall & Hl)|(kvs & bad & rest & e & -> & Hall & Hbad & Hl)].
        -- left. exists ((name, value) :: kvs). repeat apply conj; auto.
           constructor; [split; assumption|exact Hall].
        -- right. exists ((name, value) :: kvs), bad, rest, e. repeat apply conj; auto.
           constructor; [split; assumption|exact Hall].
    + right. exists [], arg, args, (Errorf_invalid_data arg).
      rewrite parseFlags_loop_no_eq by exact E. repeat apply conj; auto.
      left. auto.
Qed.

(** A rejected argument is not a well-formed token. *)
Lemma rejects_not_token (name value : string) (e : error) :
  good_name name -> ~ rejects (token name value) e.
Proof.
  intros [Hn Ht] [[Hc _]|(name' & value' & Heq & Hn' & Ht' & _)].
  - unfold token in Hc. change "="%string with (str eq_sign) in Hc.
    rewrite strings_facts.Contains_app_byte in Hc. discriminate.
  - assert (Hs : SplitN (token name value) (str eq_sign) 2 = [name; value])
      by (apply strings_facts.SplitN_2_first; exact Hn).
    rewrite Heq in Hs. unfold token in Hs.
    rewrite (strings_facts.SplitN_2_first eq_sign name' value' Hn') in Hs.
    injection Hs as -> _. contradiction.
Qed.

(** The loop over well-formed tokens followed by a rejected argument. *)
Lemma parseFlags_loop_stops (kvs : list (string * string)) (bad : string)
    (rest : list string) (e : error) :
  forall d : gmap string string,
  Forall (fun kv => good_name kv.1) kvs -> rejects bad e ->
  parseFlags_loop d (tokens kvs ++ bad :: rest) = Some (store d kvs, Some e).
Proof.
  induction kvs as [|[k v] kvs IH]; intros d Hall Hbad.
  - cbn [tokens map app store foldl].
    destruct Hbad as [[Hc ->]|(name & value & -> & Hn & Ht & ->)].
    + now apply parseFlags_loop_no_eq.
    + rewrite parseFlags_loop_token by exact Hn. now rewrite Ht.
  - apply Forall_cons in Hall as [[Hk Ht] Hall]. simpl in Hk, Ht.
    cbn [tokens map app fst snd]. rewrite parseFlags_loop_token by exact Hk.
    apply String.eqb_neq in Ht. rewrite Ht. now apply IH.
Qed.

(** What the map holds after the loop. *)
Lemma store_lookup_None (kvs : list (string * string)) :
  forall (d : gmap string string) (k : string),
  store d kvs !! k = None <-> d !! k = None /\ k ∉ kvs.*1.
Proof.
  induction kvs as [|[k' v'] kvs IH]; intros d k.
  - cbn. split; [intros H; split; [exact H|apply not_elem_of_nil]|tauto].
  - cbn [store foldl fst snd]. fold (store (<[k':=v']> d) kvs).
    rewrite IH, fmap_cons, not_elem_of_cons. cbn [fst].
    destruct (decide (k = k')) as [->|Hne].
    + rewrite lookup_insert_eq. split; [intros [[=] _]|intros [_ [H _]]; congruence].
    + rewrite lookup_insert_ne by congruence. tauto.
Qed.

Lemma store_lookup_Some (kvs : list (string * string)) :
  forall (d : gmap string string) (k v : string),
  store d kvs !! k = Some v -> (k, v) ∈ kvs \/ d !! k = Some v.
Proof.
  induction kvs as [|[k' v'] kvs IH]; intros d k v H.
  - now right.
  - cbn [store foldl fst snd] in H. fold (store (<[k':=v']> d) kvs) in H.
    apply IH in H as [H|H].
    + left. now apply elem_of_cons; right.
    + destruct (decide (k = k')) as [->|Hne].
      * rewrite lookup_insert_eq in H. injection H as ->. left. apply elem_of_cons. now left.
      * rewrite lookup_insert_ne in H by congruence. now right.
Qed.

Lemma store_size (kvs : list (string * string)) :
  forall d : gmap string string, (size (store d kvs) <= size d + length kvs)%nat.
Proof.
  induction kvs as [|[k' v'] kvs IH]; intros d.
  - cbn. lia.
  - cbn [store foldl fst snd length]. fold (store (<[k':=v']> d) kvs).
    specialize (IH (<[k':=v']> d)).
    destruct (d !! k') as [w|] eqn:E.
    + assert (size (<[k':=v']> d) = size d).
      { rewrite <- (insert_delete_id d k' w E) at 2.
        rewrite <- (insert_delete_eq d k' v').
        rewrite !map_size_insert_None by apply lookup_delete_eq. reflexivity. }
      lia.
    + rewrite map_size_insert_None in IH by exact E. lia.
Qed.

End parseFlags_cases.

(** The result of parseFlags for every list of arguments, once the two
    required flags are given: the first argument that has no [=] or whose name
    is blank decides the error; the pairs of the arguments before it are in the
    map that is returned with the error, and the arguments after it are not
    looked at.  Without such an argument every pair is stored and there is no
    error. *)
Theorem parseFlags_first_malformed (opts : options) (args : list string) :
  baseURL opts <> EmptyString -> path opts <> EmptyString ->
  (exists kvs,
     args = tokens kvs /\ Forall (fun kv => good_name kv.1) kvs
     /\ parseFlags opts args = Some (set_data opts (store ∅ kvs), None))
  \/ (exists kvs bad rest e,
        args = tokens kvs ++ bad :: rest
        /\ Forall (fun kv => good_name kv.1) kvs /\ rejects bad e
        /\ (forall rest',
              parseFlags opts (tokens kvs ++ bad :: rest')
                = Some (set_data opts (store ∅ kvs), Some e))).
Proof.
  intros Hu Hp. unfold parseFlags.
  apply String.eqb_neq in Hu, Hp. rewrite Hu, Hp.
  destruct (parseFlags_loop_cases args ∅)
    as [(kvs & -> & Hall & Hl)|(kvs & bad & rest & e & -> & Hall & Hbad & Hl)].
  - left. exists kvs. rewrite Hl. auto.
  - right. exists kvs, bad, rest, e. repeat apply conj; auto.
    intros rest'. now rewrite (parseFlags_loop_stops kvs bad rest' e ∅ Hall Hbad).
Qed.

Lemma parseFlags_first_malformed_witness :
  (exists kvs,
     ["a=1"; "novalue"; "=x"] = tokens kvs /\ Forall (fun kv => good_name kv.1) kvs
     /\ parseFlags example_opts ["a=1"; "novalue"; "=x"]
          = Some (set_data example_opts (store ∅ kvs), None))
  \/ (exists kvs bad rest e,
        ["a=1"; "novalue"; "=x"] = tokens kvs ++ bad :: rest
        /\ Forall (fun kv => good_name kv.1) kvs /\ rejects bad e
        /\ (forall rest',
              parseFlags example_opts (tokens kvs ++ bad :: rest')
                = Some (set_data example_opts (store ∅ kvs), Some e))).
Proof.
  apply (parseFlags_first_malformed example_opts ["a=1"; "novalue"; "=x"]).
  - simpl. discriminate.
  - simpl. discriminate.
Defined.

(** parseFlags returns no error exactly when both required flags are set and
    every argument is a token with a name that is not blank; the options it
    returns then keep the values of the flags, and the map is the one filled
    from the tokens in order.  With an empty -url, or else an empty -path, the
    error is the one of that flag whatever the arguments are, and the map is
    still nil. *)
Theorem parseFlags_ok_iff (opts o : options) (args : list string) :
  (parseFlags opts args = Some (o, None) <->
   baseURL opts <> EmptyString /\ path opts <> EmptyString
   /\ exists kvs,
        args = tokens kvs /\ Forall (fun kv => good_name kv.1) kvs
        /\ o = set_data opts (store ∅ kvs))
  /\ (baseURL opts = EmptyString ->
      parseFlags opts args = Some (opts, Some Errorf_url_required))
  /\ (baseURL opts <> EmptyString -> path opts = EmptyString ->
      parseFlags opts args = Some (opts, Some Errorf_path_required))
  /\ (parseFlags opts args = Some (o, None) ->
      baseURL o = baseURL opts /\ path o = path opts /\ port o = port opts
      /\ dialTimeout o = dialTimeout opts /\ readTimeout o = readTimeout opts
      /\ insecureTLS o = insecureTLS opts /\ data o <> None).
Proof.
  assert (Hinv : parseFlags opts args = Some (o, None) ->
    baseURL opts <> EmptyString /\ path opts <> EmptyString
    /\ exists kvs,
         args = tokens kvs /\ Forall (fun kv => good_name kv.1) kvs
         /\ o = set_data opts (store ∅ kvs)).
  { unfold parseFlags.
    destruct (String.eqb_spec (baseURL opts) EmptyString) as [Hu|Hu]; [discriminate|].
    destruct (String.eqb_spec (path opts) EmptyString) as [Hp|Hp]; [discriminate|].
    destruct (parseFlags_loop_cases args ∅)
      as [(kvs & -> & Hall & Hl)|(kvs & bad & rest & e & -> & Hall & Hbad & Hl)];
      rewrite Hl; intros [= <-].
    split; [exact Hu|]. split; [exact Hp|]. now exists kvs. }
  split; [|split; [|split]].
  - split; [exact Hinv|].
    intros (Hu & Hp & kvs & -> & Hall & ->). unfold parseFlags.
    apply String.eqb_neq in Hu, Hp. rewrite Hu, Hp.
    now rewrite parseFlags_loop_tokens.
  - intros Hu. unfold parseFlags. now rewrite Hu.
  - intros Hu Hp. unfold parseFlags. apply String.eqb_neq in Hu. now rewrite Hu, Hp.
  - intros H. destruct (Hinv H) as (_ & _ & kvs & _ & _ & ->).
    repeat apply conj; try reflexivity. discriminate.
Qed.

(** parseFlags never indexes the two parts of an argument out of range: an
    argument that contains [=] is split in exactly two parts, and parseFlags
    returns for every list of arguments. *)
Theorem parseFlags_no_panic :
  (forall arg, strings.Contains arg "=" = true ->
     length (strings.SplitN arg "=" 2) = 2%nat)
  /\ (forall (opts : options) (args : list string), parseFlags opts args <> None).
Proof.
  split.
  - intros arg H.
    destruct (strings_facts.Contains_split eq_sign arg H) as (name & value & -> & Hn).
    change "="%string with (str eq_sign).
    now rewrite (strings_facts.SplitN_2_first eq_sign name value Hn).
  - intros opts args.
    destruct (parseFlags_total opts args) as (o & e & ->). discriminate.
Qed.

(** The names in the map that parseFlags returns are the names of the
    tokens, no other: a name that no token has is unbound, a bound name has the
    value of one of its tokens, and the map has at most one entry for each
    argument. *)
Theorem parseFlags_data_names (opts : options) (kvs : list (string * string)) :
  baseURL opts <> EmptyString -> path opts <> EmptyString ->
  Forall (fun kv => good_name kv.1) kvs ->
  exists m : gmap string string,
    parseFlags opts (tokens kvs) = Some (set_data opts m, None)
    /\ (forall k, m !! k = None <-> k ∉ kvs.*1)
    /\ (forall k v, m !! k = Some v -> (k, v) ∈ kvs)
    /\ (size m <= length kvs)%nat.
Proof.
  intros Hu Hp Hall. exists (store ∅ kvs). repeat apply conj.
  - unfold parseFlags. apply String.eqb_neq in Hu, Hp. rewrite Hu, Hp.
    now rewrite parseFlags_loop_tokens.
  - intros k. rewrite store_lookup_None. rewrite lookup_empty. tauto.
  - intros k v H. apply store_lookup_Some in H as [H|H]; [exact H|].
    rewrite lookup_empty in H. discriminate.
  - pose proof (store_size kvs ∅) as H. rewrite map_size_empty in H. lia.
Qed.

Lemma parseFlags_data_names_witness :
  exists m : gmap string string,
    parseFlags example_opts (tokens [("k", "1"); ("x", "2"); ("k", "3")])
      = Some (set_data example_opts m, None)
    /\ (forall k, m !! k = None <-> k ∉ [("k", "1"); ("x", "2"); ("k", "3")].*1)
    /\ (forall k v, m !! k = Some v -> (k, v) ∈ [("k", "1"); ("x", "2"); ("k", "3")])
    /\ (size m <= length [("k", "1"); ("x", "2"); ("k", "3")])%nat.
Proof.
  apply (parseFlags_data_names example_opts [("k", "1"); ("x", "2"); ("k", "3")]).
  - simpl. discriminate.
  - simpl. discriminate.
  - repeat constructor; vm_compute; congruence.
Defined.

(** ** run: the main task from the dial to the return (lines 102-147) *)

(** The events of the main task. *)
Definition is_main_ev (ev : event) : bool := negb (is_recv_ev ev).

(** The diagnostic of line 109, written when Dial returned a response. *)
Definition connected (resp : option string) : list event :=
  match resp with
  | Some status => [EvStderr Main (Connected status)]
  | None => []
  end.

(** Lines 102-110 after a dial that succeeded. *)
Definition opened (fullURL : string) (dialer : websocket.Dialer)
    (resp : option string) : list event :=
  EvDial fullURL dialer (websocket.DialOk resp) :: connected resp.

(** The line of line 115. *)
Definition sent_line (payload : string) : event :=
  EvStdout Main ("sent: " +:+ payload +:+ nl).

(** Lines 102-118 when the send succeeds, to the go statement. *)
Definition started (fullURL payload : string) (dialer : websocket.Dialer)
    (resp : option string) : list event :=
  opened fullURL dialer resp
  ++ [EvWriteMessage websocket.TextMessage payload None; sent_line payload; EvGo].

(** What the main task does between the select and its return: nothing, when
    done was closed first, or the three steps of the timeout. *)
Definition waited (opts : options) (tail : list event) : Prop :=
  tail = [] \/ (0 < readTimeout opts /\ exists w, tail = timed_out opts w).

Section run_mainline.
Variable opts : options.
Variables (fullURL payload : string) (dialer : websocket.Dialer).
Hypothesis Hprep : run_prepare opts = inr (fullURL, payload, dialer).

Let T := readTimeout opts.

(** The events of the main task so far, for each place where it stands. *)
Definition mainline (st : state) : Prop :=
  let mp := List.filter is_main_ev (trace st) in
  match mainSt st with
  | MStart => mp = []
  | MDial u' p' d' => (u', p', d') = (fullURL, payload, dialer) /\ mp = []
  | MConnected p' resp =>
      p' = payload /\ mp = [EvDial fullURL dialer (websocket.DialOk resp)]
  | MSend p' => p' = payload /\ exists resp, mp = opened fullURL dialer resp
  | MSent p' =>
      p' = payload
      /\ exists resp,
           mp = opened fullURL dialer resp
                ++ [EvWriteMessage websocket.TextMessage payload None]
  | MGo =>
      exists resp,
        mp = opened fullURL dialer resp
             ++ [EvWriteMessage websocket.TextMessage payload None; sent_line payload]
  | MWait => exists resp, mp = started fullURL payload dialer resp
  | MTimedOut =>
      0 < T /\ exists resp, mp = started fullURL payload dialer resp ++ [EvTimer T]
  | MCloseFrame =>
      0 < T
      /\ exists resp,
           mp = started fullURL payload dialer resp
                ++ [EvTimer T; EvStderr Main (NoMoreMessages T)]
  | MWaitDone =>
      0 < T
      /\ exists resp w, mp = started fullURL payload dialer resp ++ timed_out opts w
  | MDeferred None =>
      exists resp tail,
        waited opts tail /\ mp = started fullURL payload dialer resp ++ tail
  | MDeferred (Some e) =>
      exists resp err,
        e = Errorf_send err
        /\ mp = opened fullURL dialer resp
                ++ [EvWriteMessage websocket.TextMessage payload (Some err)]
  | MReturned None =>
      exists resp tail,
        waited opts tail
        /\ mp = started fullURL payload dialer resp ++ tail ++ [EvConnClose]
  | MReturned (Some e) =>
      (exists err,
         e = Errorf_dial fullURL err
         /\ mp = [EvDial fullURL dialer (websocket.DialErr err)])
      \/ (exists resp err,
            e = Errorf_send err
            /\ mp = opened fullURL dialer resp
                    ++ [EvWriteMessage websocket.TextMessage payload (Some err);
                        EvConnClose])
  end.

Lemma mainline_init : mainline init.
Proof. reflexivity. Qed.

Ltac run_cases H :=
  unfold step, main_to, recv_to in H; cbn [mainSt recvSt done trace] in H;
  rewrite ?Hprep in H;
  repeat match type of H with
         | context [match ?x with _ => _ end] => destruct x eqn:?; try discriminate H
         end;
  try discriminate H;
  injection H as <-.

Ltac open_facts :=
  repeat match goal with
         | G : exists _, _ |- _ => destruct G as [? G]
         | G : _ /\ _ |- _ => destruct G as [? G]
         | G : (_, _) = (_, _) |- _ => injection G as ? ? ?
         end.

Lemma mainline_step (st st' : state) (i : input) :
  mainline st -> step opts st i = Some st' -> mainline st'.
Proof.
  unfold mainline, waited. intros G H. destruct st as [ms rs dn t].
  cbn [mainSt recvSt done trace] in *.
  run_cases H; subst; cbn [mainSt recvSt done trace] in *;
    rewrite ?List.filter_app, ?app_nil_r;
    cbn [List.filter is_main_ev is_recv_ev negb connected];
    rewrite ?app_nil_r; auto; open_facts; subst;
    try match goal with G : List.filter _ _ = _ |- _ => rewrite G end.
  all: try (repeat split; try (now apply Z.ltb_lt); repeat eexists;
            unfold started, opened; cbn [connected app];
            rewrite <- ?app_assoc; cbn [app]; reflexivity).
  - left. eexists. split; reflexivity.
  - split; [reflexivity|]. now exists (Some s).
  - split; [reflexivity|]. now exists None.
  - exists x, []. split; [now left|now rewrite app_nil_r].
  - split; [assumption|]. exists x. now rewrite <- app_assoc.
  - split; [assumption|]. exists x, r. now rewrite <- app_assoc.
  - exists x, (timed_out opts x0). split; [|reflexivity].
    right. split; [assumption|]. now exists x0.
  - destruct r as [e|]; open_facts; subst.
    + right. exists x, x0. split; [reflexivity|]. rewrite G, <- app_assoc. reflexivity.
    + exists x, x0. split; [assumption|]. rewrite G, <- app_assoc. reflexivity.
Qed.

End run_mainline.
(** *** Standard output *)

(** The lines written to standard output, and the frames read, in order. *)
Definition stdout_of (t : list event) : list string :=
  flat_map (fun ev => match ev with EvStdout _ s => [s] | _ => [] end) t.

Definition reads_of (t : list event) : list string :=
  flat_map (fun ev => match ev with EvReadMessage (inr m) => [m] | _ => [] end) t.

Lemma stdout_snoc (t : list event) (ev : event) :
  stdout_of (t ++ [ev]) =
    stdout_of t ++ match ev with EvStdout _ s => [s] | _ => [] end.
Proof. unfold stdout_of. rewrite flat_map_app. cbn. now rewrite app_nil_r. Qed.

Lemma reads_snoc (t : list event) (ev : event) :
  reads_of (t ++ [ev]) =
    reads_of t ++ match ev with EvReadMessage (inr m) => [m] | _ => [] end.
Proof. unfold reads_of. rewrite flat_map_app. cbn. now rewrite app_nil_r. Qed.

Section stdout_lines.
Variable opts : options.
Variables (fullURL payload : string) (dialer : websocket.Dialer).
Hypothesis Hprep : run_prepare opts = inr (fullURL, payload, dialer).

Definition sent_text : string := "sent: " +:+ payload +:+ nl.

(** Nothing is printed before the line of line 115; after it, one line for
    each frame read, in the order of the reads. *)
Definition printed (st : state) : Prop :=
  let out := stdout_of (trace st) in
  let msgs := reads_of (trace st) in
  match mainSt st with
  | MStart | MDial _ _ _ | MConnected _ _ | MSend _ | MSent _
  | MDeferred (Some _) | MReturned (Some _) => out = [] /\ msgs = []
  | MGo => out = [sent_text] /\ msgs = []
  | _ =>
      match recvSt st with
      | RPrint m =>
          exists before,
            msgs = before ++ [m] /\ out = sent_text :: map printMessage before
      | _ => out = sent_text :: map printMessage msgs
      end
  end.

Lemma printed_init : printed init.
Proof. split; reflexivity. Qed.

Ltac out_cases H :=
  unfold step, main_to, recv_to in H; cbn [mainSt recvSt done trace] in H;
  rewrite ?Hprep in H;
  repeat match type of H with
         | context [match ?x with _ => _ end] => destruct x eqn:?; try discriminate H
         end;
  try discriminate H;
  injection H as <-.

Lemma printed_step (st st' : state) (i : input) :
  phases st -> mainline opts fullURL payload dialer st -> printed st ->
  step opts st i = Some st' -> printed st'.
Proof.
  unfold printed, mainline. intros [A1 _ _ _ _ _ _ _] M G H.
  destruct st as [ms rs dn t]. cbn [mainSt recvSt done trace] in *.
  out_cases H; subst;
    try match type of A1 with context [MDeferred ?r] => is_var r; destruct r end;
    cbn [mainSt recvSt done trace before_go] in *;
    try (destruct A1 as [A1 _]; discriminate (A1 eq_refl));
    rewrite ?app_nil_r, ?stdout_snoc, ?reads_snoc; cbv iota beta;
    rewrite ?app_nil_r; auto.
  all: repeat match goal with
              | G : exists _, _ |- _ => destruct G as [? G]
              | G : _ /\ _ |- _ => destruct G as [? G]
              end; subst;
       repeat match goal with
              | E : stdout_of _ = _ |- _ => rewrite E; clear E
              | E : reads_of _ = _ |- _ => rewrite E; clear E
              end;
       rewrite ?map_app;
       first [ reflexivity | split; reflexivity | eexists; split; reflexivity ].
Qed.

End stdout_lines.

(** *** Every run *)

(** When the part before the dial fails, run returns in its first step. *)
Lemma run_prepare_failed (opts : options) (e : error) (inputs : list input)
    (st : state) :
  run_prepare opts = inl e -> run opts inputs = Some st ->
  st = init \/ st = mkState (MReturned (Some e)) RIdle false [].
Proof.
  intros Hp He. unfold run in He.
  destruct inputs as [|i rest]; [injection He as <-; now left|].
  cbn [exec] in He. destruct i; try discriminate He.
  unfold step in He. cbn [mainSt init] in He. rewrite Hp in He.
  destruct rest as [|j rest]; [injection He as <-; now right|discriminate He].
Qed.

Lemma exec_mainline (opts : options) (fullURL payload : string)
    (dialer : websocket.Dialer) (inputs : list input) (st : state) :
  run_prepare opts = inr (fullURL, payload, dialer) ->
  exec opts init inputs = Some st ->
  mainline opts fullURL payload dialer st /\ printed payload st.
Proof.
  intros Hp He.
  enough (H : phases st /\ mainline opts fullURL payload dialer st /\ printed payload st)
    by tauto.
  revert inputs st He. apply exec_invariant.
  - split; [apply phases_init|]. split; [apply mainline_init|apply printed_init].
  - intros s i s' (P & M & G) H. split; [|split].
    + eapply phases_step; eauto.
    + eapply mainline_step; eauto.
    + eapply printed_step; eauto.
Qed.

(** A trace without events of the receive task is the trace of the main
    task. *)
Lemma main_only (t : list event) :
  Forall (fun ev => recvish ev = false) t -> List.filter is_main_ev t = t.
Proof.
  induction 1 as [|ev t Hev _ IH]; [reflexivity|].
  cbn [List.filter]. unfold is_main_ev at 1.
  destruct ev; cbn in Hev |- *; try discriminate Hev; try (now rewrite IH).
  all: destruct who; cbn in Hev |- *; try discriminate Hev; now rewrite IH.
Qed.

(** The four ways in which run returns, with everything it has done.  An
    error before the dial: nothing.  A dial that fails: that one dial, and the
    error wraps the URL and the cause; no connection is closed.  A send that
    fails: the dial, the diagnostic of the response if there is one, the write,
    and the close of the connection.  No error: the dial, the diagnostic, the
    write, the line on standard output and the go statement, then either nothing
    or the three steps of the timeout, and last the close of the connection,
    after the receive task has read and printed its frames, met a read error
    and closed done. *)
Theorem run_return_paths (opts : options) (inputs : list input) (st : state)
    (r : option error) :
  run opts inputs = Some st -> mainSt st = MReturned r ->
  match run_prepare opts with
  | inl e => r = Some e /\ trace st = []
  | inr (fullURL, payload, dialer) =>
      (exists err,
         r = Some (Errorf_dial fullURL err)
         /\ trace st = [EvDial fullURL dialer (websocket.DialErr err)])
      \/ (exists resp err,
            r = Some (Errorf_send err)
            /\ trace st =
                 opened fullURL dialer resp
                 ++ [EvWriteMessage websocket.TextMessage payload (Some err);
                     EvConnClose])
      \/ (exists resp tail t msgs e,
            r = None /\ waited opts tail
            /\ List.filter is_main_ev (trace st) =
                 started fullURL payload dialer resp ++ tail ++ [EvConnClose]
            /\ List.filter is_recv_ev (trace st) = frames msgs ++ read_end e
            /\ trace st = t ++ [EvConnClose] /\ EvCloseDone ∈ t)
  end.
Proof.
  intros He Hm.
  destruct (run_prepare opts) as [e|[[fullURL payload] dialer]] eqn:Hp.
  - destruct (run_prepare_failed opts e inputs st Hp He) as [-> | ->];
      [discriminate Hm|]. cbn in Hm. injection Hm as <-. auto.
  - destruct (exec_mainline opts fullURL payload dialer inputs st Hp He) as [M _].
    destruct (exec_inv opts inputs st He) as [[A1 A2 _ _ _ D1 _ D3] _ _ [msgs R] L].
    unfold mainline in M. rewrite Hm in M, A1. cbn zeta in M, R.
    destruct r as [e|].
    + assert (Hq : List.filter is_main_ev (trace st) = trace st).
      { apply main_only, A2, A1. reflexivity. }
      rewrite Hq in M.
      destruct M as [(err & -> & M)|(resp & err & -> & M)]; [left|right; left]; eauto.
    + right; right. destruct M as (resp & tail & Hw & M).
      destruct (L Hm) as (t & Ht & Hc).
      assert (Hd : recvSt st = RDone) by (apply D1, D3; now right).
      rewrite Hd in R. destruct R as [e R].
      exists resp, tail, t, msgs, e. auto 10.
Qed.

(** The schedule in which the peer sends one frame and closes, at the flags
    of the README's example. *)
Lemma run_return_paths_witness :
  match run_prepare readme_opts with
  | inl e => @None error = Some e /\ trace peer_closes_end = []
  | inr (fullURL, payload, dialer) =>
      (exists err,
         @None error = Some (Errorf_dial fullURL err)
         /\ trace peer_closes_end = [EvDial fullURL dialer (websocket.DialErr err)])
      \/ (exists resp err,
            @None error = Some (Errorf_send err)
            /\ trace peer_closes_end =
                 opened fullURL dialer resp
                 ++ [EvWriteMessage websocket.TextMessage payload (Some err);
                     EvConnClose])
      \/ (exists resp tail t msgs e,
            @None error = None /\ waited readme_opts tail
            /\ List.filter is_main_ev (trace peer_closes_end) =
                 started fullURL payload dialer resp ++ tail ++ [EvConnClose]
            /\ List.filter is_recv_ev (trace peer_closes_end)
                 = frames msgs ++ read_end e
            /\ trace peer_closes_end = t ++ [EvConnClose] /\ EvCloseDone ∈ t)
  end.
Proof.
  apply (run_return_paths readme_opts peer_closes peer_closes_end None).
  - vm_compute. reflexivity.
  - reflexivity.
Defined.

(** Standard output of a run.  Until the payload has been written nothing is
    printed, so a run that returns an error has printed nothing and read
    nothing; otherwise the first line is the one of the payload sent (line 115)
    and it is followed by one printed message for each frame read, in the order
    of the reads; when run returns no error every frame read has been
    printed. *)
Theorem run_stdout (opts : options) (inputs : list input) (st : state) :
  run opts inputs = Some st ->
  (forall e, mainSt st = MReturned (Some e) ->
     stdout_of (trace st) = [] /\ reads_of (trace st) = [])
  /\ (stdout_of (trace st) <> [] ->
      exists fullURL payload dialer shown,
        run_prepare opts = inr (fullURL, payload, dialer)
        /\ stdout_of (trace st)
             = ("sent: " +:+ payload +:+ nl) :: map printMessage shown
        /\ (reads_of (trace st) = shown
            \/ exists m, recvSt st = RPrint m /\ reads_of (trace st) = shown ++ [m]))
  /\ (mainSt st = MReturned None ->
      exists fullURL payload dialer,
        run_prepare opts = inr (fullURL, payload, dialer)
        /\ stdout_of (trace st)
             = ("sent: " +:+ payload +:+ nl) :: map printMessage (reads_of (trace st))).
Proof.
  intros He.
  destruct (run_prepare opts) as [e|[[fullURL payload] dialer]] eqn:Hp.
  - destruct (run_prepare_failed opts e inputs st Hp He) as [-> | ->];
      (split; [|split]); cbn; try discriminate; auto; congruence.
  - destruct (exec_mainline opts fullURL payload dialer inputs st Hp He) as [_ G].
    destruct (exec_inv opts inputs st He) as [[_ _ _ _ _ D1 _ D3] _ _ _ _].
    unfold printed in G. cbn zeta in G. fold (sent_text payload).
    split; [|split].
    + intros e Hm. now rewrite Hm in G.
    + intros Hne. exists fullURL, payload, dialer.
      destruct (mainSt st) as [| | | | | | | | | |[?|]|[?|]];
        try (destruct G as [G _]; contradiction).
      1: { destruct G as [G1 G2]. exists []. rewrite G1, G2. auto. }
      all: destruct (recvSt st) as [| |m| | |] eqn:Hr;
        try (exists (reads_of (trace st)); auto; fail).
      all: destruct G as (before & G1 & G2); exists before;
        split; [reflexivity|]; split; [exact G2|]; right; now exists m.
    + intros Hm. exists fullURL, payload, dialer. split; [reflexivity|].
      assert (Hd : recvSt st = RDone) by (apply D1, D3; now right).
      now rewrite Hm, Hd in G.
Qed.

(** The run in which the peer sends hello and closes prints the payload and
    then the frame. *)
Lemma run_stdout_witness :
  exists fullURL payload dialer,
    run_prepare readme_opts = inr (fullURL, payload, dialer)
    /\ stdout_of (trace peer_closes_end)
         = ("sent: " +:+ payload +:+ nl)
           :: map printMessage (reads_of (trace peer_closes_end)).
Proof.
  apply (proj2 (proj2 (run_stdout readme_opts peer_closes peer_closes_end
                         ltac:(vm_compute; reflexivity)))).
  reflexivity.
Defined.

(** *** run can always return *)

(** The steps that take the main task to the go statement or to a return,
    when Dial and WriteMessage fail with [e] where they are still to be
    called, and then the end of the receive task and of the main task. *)
Definition wind_down (opts : options) (st : state) (e : error) : list input :=
  match mainSt st with
  | MStart =>
      match run_prepare opts with
      | inl _ => [IMain]
      | inr _ => [IMain; IDial (websocket.DialErr e)]
      end
  | MDial _ _ _ => [IDial (websocket.DialErr e)]
  | MConnected _ _ => [IMain; IWrite (Some e); IMain]
  | MSend _ => [IWrite (Some e); IMain]
  | MSent _ => [IMain; IMain] ++ finish_recv RRead e ++ finish_main MWait None
  | MGo => [IMain] ++ finish_recv RRead e ++ finish_main MWait None
  | m => finish_recv (recvSt st) e ++ finish_main m None
  end.

Lemma wind_down_returns (opts : options) (inputs : list input) (st : state) (e : error) :
  exec opts init inputs = Some st ->
  (forall r, mainSt st <> MReturned r) ->
  exists st' r, exec opts st (wind_down opts st e) = Some st' /\ mainSt st' = MReturned r.
Proof.
  intros He Hm.
  destruct (exec_inv opts inputs st He) as [[A1 _ _ _ _ D1 _ D3] _ _ _ _].
  destruct (before_go (mainSt st)) eqn:Hb.
  - pose proof (proj1 A1 eq_refl) as Hr.
    destruct st as [ms rs dn t]. cbn [mainSt recvSt done trace] in *. subst rs.
    unfold wind_down. cbn [mainSt recvSt].
    destruct ms as [| | | | | | | | | |[?|]|r]; try discriminate Hb;
      try (exfalso; now apply (Hm r));
      try (do 2 eexists; split; reflexivity).
    + destruct (run_prepare opts) as [err|[[u p] d]] eqn:Hp.
      * do 2 eexists. cbn [exec]. unfold step. cbn [mainSt]. rewrite Hp.
        split; reflexivity.
      * do 2 eexists. cbn [exec]. unfold step at 1. cbn [mainSt]. rewrite Hp.
        cbn. split; reflexivity.
    + destruct resp; do 2 eexists; split; reflexivity.
  - destruct (completion opts inputs st e None He) as (st' & Hx & Hy & _).
    + intros Hr. apply A1 in Hr. congruence.
    + exact Hm.
    + exists st', None. split; [|exact Hy].
      unfold wind_down. destruct (mainSt st); try discriminate Hb; exact Hx.
Qed.

(** run is never stuck for good: from every state that a schedule reaches
    before the return there is a continuation, of at most eight steps, in which
    run returns.  It is the one in which every call to the network that is
    pending or comes next returns an error: a peer that goes away always lets
    run return. *)
Theorem run_can_return (opts : options) (inputs : list input) (st : state)
    (e : error) :
  run opts inputs = Some st ->
  (forall r, mainSt st <> MReturned r) ->
  exists st' r,
    run opts (inputs ++ wind_down opts st e) = Some st'
    /\ mainSt st' = MReturned r
    /\ (length (wind_down opts st e) <= 8)%nat.
Proof.
  intros He Hm. unfold run in *.
  destruct (wind_down_returns opts inputs st e He Hm) as (st' & r & Hx & Hy).
  exists st', r. rewrite exec_app, He. split; [exact Hx|]. split; [exact Hy|].
  unfold wind_down.
  destruct (mainSt st) as [| | | | | | | | | |[?|]|?]; destruct (recvSt st);
    try destruct (run_prepare opts); cbn; lia.
Qed.

(** After the dial and the go statement of the README's example, with a
    frame being printed. *)
Lemma run_can_return_witness :
  exists st' r,
    run readme_opts (firstn 7 peer_closes
                     ++ wind_down readme_opts
                          (default init (run readme_opts (firstn 7 peer_closes)))
                          (net_error 1006)) = Some st'
    /\ mainSt st' = MReturned r
    /\ (length (wind_down readme_opts
                  (default init (run readme_opts (firstn 7 peer_closes)))
                  (net_error 1006)) <= 8)%nat.
Proof.
  apply (run_can_return readme_opts (firstn 7 peer_closes)
           (default init (run readme_opts (firstn 7 peer_closes))) (net_error 1006)).
  - vm_compute. reflexivity.
  - intros r. vm_compute. discriminate.
Defined.

(** *** The exit status *)

(** The exit status of main tells what happened.  2: parseFlags returned an
    error, whatever the network would have done.  1: run returned an error; no
    WriteMessage has returned nil and the receive task never ran.  0: a
    WriteMessage of the payload returned nil and the receive task has ended
    and closed done. *)
Theorem main_exit_status (flags : options) (args : list string)
    (inputs : list input) (c : Z) :
  main flags args inputs = Some c ->
  (c = 2
   /\ (exists o e, parseFlags flags args = Some (o, Some e))
   /\ forall inputs', main flags args inputs' = Some 2)
  \/ (exists opts st,
        parseFlags flags args = Some (opts, None) /\ run opts inputs = Some st
        /\ ((c = 1
             /\ (exists e, mainSt st = MReturned (Some e))
             /\ Forall (fun ev => write_ok ev = false) (trace st)
             /\ Forall (fun ev => recvish ev = false) (trace st))
            \/ (c = 0
                /\ mainSt st = MReturned None
                /\ Exists (fun ev => write_ok ev = true) (trace st)
                /\ EvCloseDone ∈ trace st))).
Proof.
  unfold main.
  destruct (parseFlags flags args) as [[opts [e|]]|]; [| |discriminate].
  - intros [= <-]. left. split; [reflexivity|]. split; [eauto|]. reflexivity.
  - destruct (run opts inputs) as [st|] eqn:He; [|discriminate].
    destruct (mainSt st) as [| | | | | | | | | | |r] eqn:Hm; try discriminate.
    intros [= <-]. right. exists opts, st. split; [reflexivity|]. split; [exact He|].
    destruct (exec_inv opts inputs st He) as [[A1 A2 B1 B2 _ _ D2 D3] _ _ _ _].
    rewrite Hm in *. destruct r as [e|]; [left|right].
    + split; [reflexivity|]. split; [eauto|]. split; [now apply B2|].
      apply A2, A1. reflexivity.
    + split; [reflexivity|]. split; [reflexivity|]. split; [now apply B1|].
      apply D2, D3. now right.
Qed.

(** main at the README's example when the peer sends one frame and
    closes. *)
Lemma main_exit_status_witness :
  (0 = 2
   /\ (exists o e, parseFlags example_opts ["user=alice"] = Some (o, Some e))
   /\ forall inputs', main example_opts ["user=alice"] inputs' = Some 2)
  \/ (exists opts st,
        parseFlags example_opts ["user=alice"] = Some (opts, None)
        /\ run opts peer_closes = Some st
        /\ ((0 = 1
             /\ (exists e, mainSt st = MReturned (Some e))
             /\ Forall (fun ev => write_ok ev = false) (trace st)
             /\ Forall (fun ev => recvish ev = false) (trace st))
            \/ (0 = 0
                /\ mainSt st = MReturned None
                /\ Exists (fun ev => write_ok ev = true) (trace st)
                /\ EvCloseDone ∈ trace st))).
Proof.
  apply (main_exit_status example_opts ["user=alice"] peer_closes 0).
  vm_compute. reflexivity.
Defined.

(** ** run: what is dialed (lines 82-105) *)

(** buildURL returns a URL only for a base URL that parses with scheme ws or
    wss and a host. *)
Lemma buildURL_success (rawURL path : string) (port : Z) (out : string) :
  buildURL rawURL path port = (out, None) ->
  exists u,
    url.Parse rawURL = Ok u /\ (url.Scheme u = "ws" \/ url.Scheme u = "wss")
    /\ url.Host u <> EmptyString /\ out = url.URL_String (built u path port).
Proof.
  intros H. pose proof H as H0. unfold buildURL in H.
  destruct (url.Parse rawURL) as [u|err] eqn:Hp; [|discriminate].
  destruct (String.eqb (url.Scheme u) EmptyString); [discriminate|].
  destruct (String.eqb_spec (url.Scheme u) "ws") as [E1|E1];
    destruct (String.eqb_spec (url.Scheme u) "wss") as [E2|E2];
    cbn [negb andb] in H; try discriminate H;
    (destruct (String.eqb_spec (url.Host u) EmptyString) as [E3|E3]; [discriminate|]);
    exists u; (split; [reflexivity|]); (split; [auto|]); (split; [exact E3|]).
  all: rewrite (buildURL_ok rawURL path port u Hp) in H0 by auto; congruence.
Qed.

(** The values that the part of run before the dial hands to the rest. *)
Lemma run_prepare_ok (opts : options) (fullURL payload : string)
    (dialer : websocket.Dialer) :
  run_prepare opts = inr (fullURL, payload, dialer) ->
  buildURL (baseURL opts) (path opts) (port opts) = (fullURL, None)
  /\ payload = fst (json.Marshal (data opts))
  /\ dialer =
       websocket.mkDialer (dialTimeout opts)
         (if strings.HasPrefix fullURL "wss://"
          then Some (websocket.mkTLS (insecureTLS opts)) else None)
  /\ (insecureTLS opts = true -> strings.HasPrefix fullURL "wss://" = true).
Proof.
  unfold run_prepare.
  destruct (buildURL (baseURL opts) (path opts) (port opts)) as [u [e|]];
    [discriminate|].
  destruct (strings.HasPrefix u "wss://") eqn:Hw;
    destruct (insecureTLS opts) eqn:Hi; cbn [andb negb]; try discriminate;
    (destruct (json.Marshal (data opts)) as [p [e|]]; [discriminate|]);
    intros [= <- <- <-]; rewrite Hw; repeat apply conj; auto; discriminate.
Qed.

(** Every dial of a run is a dial of the URL that buildURL built from the
    flags, with the handshake timeout of -dial-timeout.  For a wss URL the
    dialer carries a TLS configuration whose InsecureSkipVerify is the flag
    -insecure-skip-verify; for a ws URL it carries none, and the flag is not
    set. *)
Theorem dial_configuration (opts : options) (inputs : list input) (st : state)
    (fullURL : string) (dialer : websocket.Dialer) (r : websocket.dialResult) :
  run opts inputs = Some st ->
  EvDial fullURL dialer r ∈ trace st ->
  exists u,
    url.Parse (baseURL opts) = Ok u
    /\ buildURL (baseURL opts) (path opts) (port opts) = (fullURL, None)
    /\ websocket.HandshakeTimeout dialer = dialTimeout opts
    /\ (url.Scheme u = "wss" /\
        websocket.TLSClientConfig dialer = Some (websocket.mkTLS (insecureTLS opts))
        \/ url.Scheme u = "ws" /\ websocket.TLSClientConfig dialer = None
           /\ insecureTLS opts = false).
Proof.
  intros He Hin.
  destruct (exec_inv opts inputs st He) as [_ [_ _ _ _ F5] _ _ _].
  destruct (F5 fullURL dialer r Hin) as [payload Hp].
  apply run_prepare_ok in Hp as (Hb & _ & -> & Hi).
  destruct (buildURL_success _ _ _ _ Hb) as (u & Hu & Hs & Hh & _).
  exists u. split; [exact Hu|]. split; [exact Hb|]. split; [reflexivity|].
  pose proof (buildURL_wss_prefix (baseURL opts) (path opts) (port opts) u Hu Hs Hh)
    as Hx.
  rewrite Hb in Hx. cbn [fst] in Hx. rewrite Hx in Hi |- *.
  destruct Hs as [Hs|Hs]; rewrite Hs in Hi |- *; cbn in Hi |- *.
  - right. split; [reflexivity|]. split; [reflexivity|].
    destruct (insecureTLS opts); [discriminate (Hi eq_refl)|reflexivity].
  - left. auto.
Qed.

(** The dial of the run of the README's example in which the peer sends one
    frame and closes. *)
Lemma dial_configuration_witness :
  exists u,
    url.Parse (baseURL readme_opts) = Ok u
    /\ buildURL (baseURL readme_opts) (path readme_opts) (port readme_opts)
         = ("ws://localhost:9000/chat", None)
    /\ websocket.HandshakeTimeout (websocket.mkDialer 10000000000 None)
         = dialTimeout readme_opts
    /\ (url.Scheme u = "wss" /\
        websocket.TLSClientConfig (websocket.mkDialer 10000000000 None)
          = Some (websocket.mkTLS (insecureTLS readme_opts))
        \/ url.Scheme u = "ws"
           /\ websocket.TLSClientConfig (websocket.mkDialer 10000000000 None) = None
           /\ insecureTLS readme_opts = false).
Proof.
  apply (dial_configuration readme_opts peer_closes peer_closes_end
           "ws://localhost:9000/chat" (websocket.mkDialer 10000000000 None)
           (websocket.DialOk (Some "101 Switching Protocols"))).
  - vm_compute. reflexivity.
  - vm_compute. repeat constructor.
Defined.

(** ** The payload is valid JSON (lines 90-93 and 112) *)

Module payload_facts.
Import json scanner.

(** The scanner in the step function [f] with the stack [ps], before the end
    of the top-level value and without error. *)
Definition at_state (f : stateFn) (ps : list parseKind) (n : Z) : scanner :=
  mkScanner f false ps None n.

(** The scanner after the bytes of [data], when no step returns
    [scanError]. *)
Fixpoint feed (s : scanner) (data : string) : option scanner :=
  match data with
  | EmptyString => Some s
  | String c r =>
      let '(s', v) := apply_step (incr_bytes s) c in
      if scanCode_eqb v scanError then None else feed s' r
  end.

Lemma feed_checkValid (data : string) :
  forall s s', feed s data = Some s' -> checkValid_loop s data = (s', None).
Proof.
  induction data as [|c r IH]; intros s s'; cbn [feed checkValid_loop].
  - now intros [= <-].
  - destruct (apply_step (incr_bytes s) c) as [s1 v].
    destruct (scanCode_eqb v scanError); [discriminate|apply IH].
Qed.

Lemma feed_app (a b : string) :
  forall s, feed s (a +:+ b) =
    match feed s a with
    | Some s' => feed s' b
    | None => None
    end.
Proof.
  induction a as [|c r IH]; intros s; [reflexivity|].
  cbn [String.append feed]. destruct (apply_step (incr_bytes s) c) as [s1 v].
  destruct (scanCode_eqb v scanError); [reflexivity|apply IH].
Qed.

(** Inside a string literal: after the bytes of [data] the scanner is again
    inside the literal. *)
Definition stays (data : string) : Prop :=
  forall ps n, exists n',
    feed (at_state stateInString ps n) data = Some (at_state stateInString ps n').

Lemma stays_nil : stays EmptyString.
Proof. intros ps n. now exists n. Qed.

Lemma stays_app (a b : string) : stays a -> stays b -> stays (a +:+ b).
Proof.
  intros Ha Hb ps n. destruct (Ha ps n) as [n1 H1]. destruct (Hb ps n1) as [n2 H2].
  exists n2. now rewrite feed_app, H1.
Qed.

(** A byte that is not the quote, the backslash or a control character. *)
Lemma stays_byte (b : ascii) :
  Ascii.eqb b dq = false -> Ascii.eqb b bsl = false -> (byte_of b <? 0x20) = false ->
  stays (str b).
Proof.
  intros H1 H2 H3 ps n. exists (n + 1).
  cbn [feed str]. unfold apply_step, at_state, incr_bytes. cbn [step].
  unfold do_stateInString. rewrite H1, H2, H3. reflexivity.
Qed.

Lemma stays_cons (b : ascii) (r : string) : stays (str b) -> stays r -> stays (String b r).
Proof. intros Hb Hr. apply (stays_app (str b) r Hb Hr). Qed.

Lemma byte_of_range (b : ascii) : 0 <= byte_of b < 256.
Proof.
  unfold byte_of. pose proof (N_ascii_bounded b) as H. lia.
Qed.

Lemma stays_high (b : ascii) : 0x80 <= byte_of b -> stays (str b).
Proof.
  intros H. apply stays_byte.
  - apply Ascii.eqb_neq. intros ->. vm_compute in H. now apply H.
  - apply Ascii.eqb_neq. intros ->. vm_compute in H. now apply H.
  - apply Z.ltb_ge. lia.
Qed.

Lemma stays_safe (b : ascii) : safeSet b = true -> stays (str b).
Proof.
  unfold safeSet. intros H.
  apply andb_true_iff in H as [H H4]. apply andb_true_iff in H as [H H3].
  apply andb_true_iff in H as [H1 H2].
  apply stays_byte.
  - now apply negb_true_iff.
  - now apply negb_true_iff.
  - apply Z.ltb_ge. apply Z.leb_le in H1. exact H1.
Qed.

Lemma hexdigit_is_hex (i : Z) : is_hex (hexdigit i) = true.
Proof.
  unfold hexdigit. generalize (Z.to_nat i). intros k.
  do 16 (destruct k as [|k]; [reflexivity|]). reflexivity.
Qed.

(** An escape with four hexadecimal digits. *)
Lemma stays_u (h1 h2 h3 h4 : ascii) :
  is_hex h1 = true -> is_hex h2 = true -> is_hex h3 = true -> is_hex h4 = true ->
  stays (String bsl (String "u" (String h1 (String h2 (String h3 (str h4)))))).
Proof.
  intros H1 H2 H3 H4 ps n. eexists.
  cbn [feed str]. unfold apply_step, at_state, incr_bytes. cbn [step].
  unfold do_stateInString, do_stateInStringEsc, do_hex, set_step.
  cbn [step endTop parseState err bytes].
  rewrite H1, H2, H3, H4. cbn. reflexivity.
Qed.

Lemma stays_escapeByte (b : ascii) : stays (escapeByte b).
Proof.
  unfold escapeByte.
  destruct (Ascii.eqb_spec b bsl) as [->|Hb]; [|destruct (Ascii.eqb_spec b dq) as [->|Hq]];
    cbn [orb].
  - intros ps n. eexists. cbn. reflexivity.
  - intros ps n. eexists. cbn. reflexivity.
  - destruct (Ascii.eqb b ch_nl); [intros ps n; eexists; cbn; reflexivity|].
    destruct (Ascii.eqb b ch_cr); [intros ps n; eexists; cbn; reflexivity|].
    destruct (Ascii.eqb b ch_tab); [intros ps n; eexists; cbn; reflexivity|].
    apply (stays_u "0" "0"); try reflexivity; apply hexdigit_is_hex.
Qed.

(** The bytes of a rune that follow the first are continuation bytes. *)
Fixpoint high_prefix (k : nat) (s : string) : bool :=
  match k, s with
  | O, _ => true
  | S k', String b r => (0x80 <=? byte_of b) && high_prefix k' r
  | S _, EmptyString => true
  end.

Lemma first_lead (b sz lo hi : Z) :
  utf8.first b = utf8.FLead sz lo hi ->
  0x80 <= lo /\ (sz = 2 \/ sz = 3 \/ sz = 4).
Proof.
  unfold utf8.first, utf8.locb, utf8.hicb.
  repeat match goal with
         | |- context [if ?c then _ else _] => destruct c
         end; intros H; inversion H; subst; lia.
Qed.

Lemma decode_high (b : ascii) (r : string) (c size : Z) :
  utf8.DecodeRuneInString (strings.take 4 (String b r)) = (c, size) ->
  high_prefix (Z.to_nat size - 1) r = true.
Proof.
  cbn [strings.take]. unfold utf8.DecodeRuneInString.
  destruct (utf8.first (byte_of b)) as [| |sz lo hi] eqn:Hf;
    try (intros [= <- <-]; reflexivity).
  apply first_lead in Hf as [Hlo Hsz].
  destruct (_ <? sz); [intros [= <- <-]; reflexivity|].
  destruct r as [|c1 r1]; [intros [= <- <-]; reflexivity|]. cbn [strings.take].
  destruct ((byte_of c1 <? lo) || (hi <? byte_of c1)) eqn:H1;
    [intros [= <- <-]; reflexivity|].
  apply orb_false_iff in H1 as [H1 _]. apply Z.ltb_ge in H1.
  assert (Hc1 : (128 <=? byte_of c1) = true) by (apply Z.leb_le; lia).
  destruct (sz <=? 2);
    [intros [= <- <-]; change (Z.to_nat 2 - 1)%nat with 1%nat; cbn [high_prefix];
     now rewrite Hc1|].
  destruct r1 as [|c2 r2]; [intros [= <- <-]; reflexivity|]. cbn [strings.take].
  destruct (utf8.cont (byte_of c2)) eqn:H2; cbn [negb];
    [|intros [= <- <-]; reflexivity].
  assert (Hc2 : (128 <=? byte_of c2) = true).
  { unfold utf8.cont, utf8.locb in H2. now apply andb_true_iff in H2 as [H2 _]. }
  destruct (sz <=? 3);
    [intros [= <- <-]; change (Z.to_nat 3 - 1)%nat with 2%nat; cbn [high_prefix];
     now rewrite Hc1, Hc2|].
  destruct r2 as [|c3 r3]; [intros [= <- <-]; reflexivity|]. cbn [strings.take].
  destruct (utf8.cont (byte_of c3)) eqn:H3; cbn [negb];
    [|intros [= <- <-]; reflexivity].
  assert (Hc3 : (128 <=? byte_of c3) = true).
  { unfold utf8.cont, utf8.locb in H3. now apply andb_true_iff in H3 as [H3 _]. }
  intros [= <- <-]. change (Z.to_nat 4 - 1)%nat with 3%nat. cbn [high_prefix].
  now rewrite Hc1, Hc2, Hc3.
Qed.

(** What the loop of appendString writes keeps the scanner inside the
    literal. *)
Lemma stays_appendString_loop (escapeHTML : bool) (src : string) :
  forall (skip : nat) (copy : bool),
  high_prefix skip src = true ->
  stays (appendString_loop src skip copy escapeHTML).
Proof.
  induction src as [|b r IH]; intros skip copy Hh; [apply stays_nil|].
  cbn [appendString_loop]. destruct skip as [|k].
  - destruct (byte_of b <? utf8.RuneSelf) eqn:Hb.
    + destruct (htmlSafeSet b || negb escapeHTML && safeSet b) eqn:Hs.
      * apply stays_cons; [|now apply IH]. apply stays_safe.
        unfold htmlSafeSet in Hs.
        destruct (safeSet b); [reflexivity|].
        cbn in Hs. now rewrite andb_false_r in Hs.
      * apply stays_app; [apply stays_escapeByte|now apply IH].
    + destruct (utf8.DecodeRuneInString (strings.take 4 (String b r)))
        as [c size] eqn:Hd.
      pose proof (decode_high b r c size Hd) as Hk.
      destruct ((c =? utf8.RuneError) && (size =? 1)).
      * apply (stays_app (String bsl "ufffd")); [|now apply IH].
        apply (stays_u "f" "f" "f" "d"); reflexivity.
      * destruct ((c =? 0x2028) || (c =? 0x2029)).
        -- apply (stays_app (String bsl ("u202" +:+ str (hexdigit (Z.land c 0xF)))));
             [|now apply IH].
           apply (stays_u "2" "0" "2"); try reflexivity. apply hexdigit_is_hex.
        -- apply stays_cons; [|now apply IH]. apply stays_high.
           apply Z.ltb_ge in Hb. exact Hb.
  - cbn [high_prefix] in Hh. apply andb_true_iff in Hh as [Hb Hh].
    destruct copy.
    + apply stays_cons; [|now apply IH]. apply stays_high. now apply Z.leb_le.
    + now apply IH.
Qed.

(** A string literal written by appendString, where a key (in the state
    [f] of the two that begin a key) or a value is expected. *)
Lemma feed_appendString (src : string) (f : stateFn) (ps : list parseKind) (n : Z) :
  f = stateBeginString \/ f = stateBeginStringOrEmpty \/ f = stateBeginValue ->
  exists n',
    feed (at_state f ps n) (appendString src true) = Some (at_state stateEndValue ps n').
Proof.
  intros Hf. unfold appendString.
  destruct (stays_appendString_loop true src 0 true eq_refl ps (n + 1)) as [n1 H1].
  exists (n1 + 1).
  change (String dq (appendString_loop src 0 true true) +:+ str dq)
    with (str dq +:+ (appendString_loop src 0 true true +:+ str dq)).
  rewrite feed_app.
  assert (H0 : feed (at_state f ps n) (str dq) = Some (at_state stateInString ps (n + 1))).
  { destruct Hf as [-> | [-> | ->]]; reflexivity. }
  rewrite H0, feed_app, H1. reflexivity.
Qed.

(** The members of an object, from the state after the opening brace or
    after a member. *)
Lemma feed_members (sv : list (string * string)) :
  forall (i n : Z) (f : stateFn) (k : parseKind),
  (i = 0 /\ f = stateBeginStringOrEmpty /\ k = parseObjectKey)
  \/ (0 < i /\ f = stateEndValue /\ k = parseObjectValue) ->
  exists n',
    feed (at_state f [k] n) (members sv i true) =
      Some (match sv with
            | [] => at_state f [k] n'
            | _ => at_state stateEndValue [parseObjectValue] n'
            end).
Proof.
  induction sv as [|[key val] sv IH]; intros i n f k Hi; [now exists n|].
  cbn [members fst snd].
  assert (H0 : exists n0,
    feed (at_state f [k] n) (if 0 <? i then ","%string else EmptyString)
      = Some (at_state (if 0 <? i then stateBeginString else stateBeginStringOrEmpty)
                [parseObjectKey] n0)).
  { destruct Hi as [(-> & -> & ->)|(Hlt & -> & ->)].
    - now exists n.
    - apply Z.ltb_lt in Hlt. rewrite Hlt. now exists (n + 1). }
  destruct H0 as [n0 H0].
  destruct (feed_appendString key
              (if 0 <? i then stateBeginString else stateBeginStringOrEmpty)
              [parseObjectKey] n0) as [n1 H1].
  { destruct (0 <? i); auto. }
  destruct (feed_appendString val stateBeginValue [parseObjectValue] (n1 + 1))
    as [n2 H2]; [auto|].
  destruct (IH (i + 1) n2 stateEndValue parseObjectValue) as [n3 H3].
  { right. split; [|auto]. destruct Hi as [(-> & _)|(Hlt & _)]; lia. }
  exists (match sv with [] => n2 | _ => n3 end).
  assert (Hc : feed (at_state stateEndValue [parseObjectKey] n1) ":"
               = Some (at_state stateBeginValue [parseObjectValue] (n1 + 1)))
    by reflexivity.
  rewrite feed_app, H0, feed_app, H1, feed_app, Hc, feed_app, H2, H3.
  destruct sv; [|reflexivity].
  injection H3 as <-. reflexivity.
Qed.

(** The encoding of a map is accepted by the scanner. *)
Lemma mapEncoder_valid (iter : list (string * string)) :
  Valid (mapEncoder_encode iter true) = true.
Proof.
  unfold Valid, checkValid, mapEncoder_encode.
  set (sv := merge_sort key_le iter).
  destruct (feed_members sv 0 1 stateBeginStringOrEmpty parseObjectKey) as [n1 H1];
    [left; auto|].
  assert (H : exists n,
    feed newScanner ("{" +:+ members sv 0 true +:+ "}")
      = Some (mkScanner stateEndTop true [] None n)).
  { exists (match sv with [] => n1 + 1 | _ => n1 + 1 end).
    change ("{" +:+ members sv 0 true +:+ "}")
      with (String "{" (members sv 0 true +:+ "}")).
    change (feed newScanner (String "{" (members sv 0 true +:+ "}")))
      with (feed (at_state stateBeginStringOrEmpty [parseObjectKey] 1)
              (members sv 0 true +:+ "}")).
    rewrite feed_app, H1. destruct sv; reflexivity. }
  destruct H as [n H]. rewrite (feed_checkValid _ _ _ H). reflexivity.
Qed.

Lemma Marshal_valid (v : option (gmap string string)) :
  Valid (fst (Marshal v)) = true.
Proof.
  destruct v as [m|]; [|reflexivity].
  apply mapEncoder_valid.
Qed.

(** Text that appendString copies as it is: ASCII from the space on,
    without the quote, the backslash, and the three bytes escaped for HTML. *)
Fixpoint plain (s : string) : bool :=
  match s with
  | EmptyString => true
  | String b r => htmlSafeSet b && plain r
  end.

Lemma htmlSafe_ascii (b : ascii) : htmlSafeSet b = true -> (byte_of b <? utf8.RuneSelf) = true.
Proof.
  unfold htmlSafeSet, safeSet. intros H.
  apply andb_true_iff in H as [H _]. apply andb_true_iff in H as [H _].
  apply andb_true_iff in H as [H _]. apply andb_true_iff in H as [_ H]. exact H.
Qed.

Lemma appendString_loop_plain (a r : string) :
  plain a = true ->
  appendString_loop (a +:+ r) 0 true true = a +:+ appendString_loop r 0 true true.
Proof.
  induction a as [|b a IH]; [reflexivity|].
  cbn [plain]. intros [Hb Ha]%andb_true_iff.
  cbn [String.append appendString_loop].
  rewrite (htmlSafe_ascii b Hb), Hb. cbn [orb]. now rewrite IH.
Qed.

(** A byte below 0x80 outside the safe set is written as its escape. *)
Lemma appendString_loop_escaped (b : ascii) (r : string) :
  (byte_of b <? utf8.RuneSelf) = true -> htmlSafeSet b = false ->
  appendString_loop (String b r) 0 true true
    = escapeByte b +:+ appendString_loop r 0 true true.
Proof. intros H1 H2. cbn [appendString_loop]. now rewrite H1, H2. Qed.

(** The members of an object as text. *)
Fixpoint joined (sv : list (string * string)) (first : bool) : string :=
  match sv with
  | [] => EmptyString
  | kv :: rest =>
      (if first then EmptyString else ","%string)
      +:+ marshal_facts.quoted kv.1 +:+ ":" +:+ marshal_facts.quoted kv.2
      +:+ joined rest false
  end.

Lemma appendString_plain (s : string) :
  plain s = true -> appendString s true = marshal_facts.quoted s.
Proof.
  intros H. unfold appendString, marshal_facts.quoted.
  rewrite <- (strings_facts.app_nil_r s) at 1.
  rewrite (appendString_loop_plain s EmptyString H).
  now rewrite strings_facts.app_nil_r.
Qed.

Lemma members_plain (sv : list (string * string)) :
  forall i, 0 <= i ->
  Forall (fun kv => plain kv.1 = true /\ plain kv.2 = true) sv ->
  members sv i true = joined sv (i =? 0).
Proof.
  induction sv as [|[k v] sv IH]; intros i Hi Hall; [reflexivity|].
  apply Forall_cons in Hall as [[Hk Hv] Hall]. cbn [fst snd] in Hk, Hv.
  cbn [members joined fst snd].
  rewrite (appendString_plain k Hk), (appendString_plain v Hv).
  rewrite (IH (i + 1)) by (auto; lia).
  replace (i + 1 =? 0) with false by (symmetry; apply Z.eqb_neq; lia).
  destruct (Z.eqb_spec i 0) as [->|Hne]; [reflexivity|].
  replace (0 <? i) with true by (symmetry; apply Z.ltb_lt; lia). reflexivity.
Qed.

End payload_facts.

(** What run sends is valid JSON.  Marshal of every map of strings, and of
    the nil map, gives text that json.Valid accepts; so the payload of every
    WriteMessage of a run is the encoding of the data of the options, it is
    valid, and printMessage prints such a frame, when the peer sends it back,
    in the indented form. *)
Theorem payload_is_valid_json :
  (forall v : option (gmap string string), scanner.Valid (fst (json.Marshal v)) = true)
  /\ (forall (opts : options) (inputs : list input) (st : state)
             (mt : Z) (payload : string) (r : option error),
        run opts inputs = Some st ->
        EvWriteMessage mt payload r ∈ trace st ->
        payload = fst (json.Marshal (data opts))
        /\ scanner.Valid payload = true
        /\ exists formatted,
             printMessage payload = "recv:" +:+ nl +:+ formatted +:+ nl).
Proof.
  split; [exact payload_facts.Marshal_valid|].
  intros opts inputs st mt payload r He Hin.
  destruct (exec_inv opts inputs st He) as [_ [_ _ _ F4 _] _ _ _].
  destruct (F4 mt payload r Hin) as (_ & u & d & Hp).
  apply run_prepare_ok in Hp as (_ & -> & _).
  split; [reflexivity|].
  pose proof (payload_facts.Marshal_valid (data opts)) as Hv.
  split; [exact Hv|].
  apply (scanner_facts.Indent_valid _ EmptyString "  ") in Hv.
  unfold printMessage.
  destruct (scanner.Indent (fst (json.Marshal (data opts))) EmptyString "  ")
    as [formatted e].
  cbn [snd] in Hv. subst e. now exists formatted.
Qed.

(** The bytes of the payload.  Names and values made of ASCII from the space
    on, without the quote, the backslash and the bytes <, > and &, are written
    as they are, between quotes, as the members of one object sorted by name.
    Each of <, > and & in a name or value is written as a u-escape, the quote
    and the backslash with a backslash before them, and a control character as
    its short escape or a u-escape. *)
Theorem payload_text :
  (forall m : gmap string string,
     map_Forall (fun k v => payload_facts.plain k = true
                            /\ payload_facts.plain v = true) m ->
     exists sv,
       sv ≡ₚ map_to_list m /\ StronglySorted json.key_le sv
       /\ json.Marshal (Some m) = ("{" +:+ payload_facts.joined sv true +:+ "}", None))
  /\ (forall (a r : string) (b : ascii),
        payload_facts.plain a = true ->
        (byte_of b <? 0x80) = true -> json.htmlSafeSet b = false ->
        json.appendString (a +:+ String b r) true =
          String dq (a +:+ json.escapeByte b +:+ json.appendString_loop r 0 true true)
          +:+ str dq)
  /\ json.escapeByte "<" = String bsl "u003c"
  /\ json.escapeByte ">" = String bsl "u003e"
  /\ json.escapeByte "&" = String bsl "u0026"
  /\ json.escapeByte dq = String bsl (str dq)
  /\ json.escapeByte bsl = String bsl (str bsl)
  /\ json.escapeByte ch_nl = String bsl "n"
  /\ json.escapeByte "000" = String bsl "u0000".
Proof.
  split; [|split; [|repeat apply conj; reflexivity]].
  - intros m Hm. exists (merge_sort json.key_le (map_to_list m)).
    split; [apply merge_sort_Permutation|].
    split; [apply StronglySorted_merge_sort; apply _|].
    unfold json.Marshal, json.Marshal_iter, json.mapEncoder_encode.
    cbn [fmap option_fmap option_map].
    rewrite payload_facts.members_plain; [reflexivity|lia|].
    apply Forall_forall. intros [k v] Hin.
    rewrite merge_sort_Permutation in Hin. apply elem_of_map_to_list in Hin.
    exact (Hm k v Hin).
  - intros a r b Ha Hb Hs. unfold json.appendString.
    rewrite (payload_facts.appendString_loop_plain a (String b r) Ha).
    now rewrite (payload_facts.appendString_loop_escaped b r Hb Hs).
Qed.

(** ** buildURL: the parts of the URL (lines 164-171) *)

Module url_more.
Import strings url url_facts.

Lemma Contains_nil (c : ascii) : Contains EmptyString (str c) = false.
Proof. reflexivity. Qed.

Lemma Contains_cons (c d : ascii) (r : string) :
  Contains (String d r) (str c) = Ascii.eqb d c || Contains r (str c).
Proof.
  unfold Contains. rewrite strings_facts.Index_byte_cons.
  destruct (Ascii.eqb d c); [reflexivity|]. cbv zeta. cbn [orb].
  pose proof (strings_facts.Index_range r (str c)).
  destruct (Z.ltb_spec (Index r (str c)) 0).
  - symmetry. apply Z.leb_gt. lia.
  - transitivity true; [apply Z.leb_le; lia|symmetry; apply Z.leb_le; lia].
Qed.

Lemma Contains_app (c : ascii) (a b : string) :
  Contains (a +:+ b) (str c) = Contains a (str c) || Contains b (str c).
Proof.
  induction a as [|d a IH]; [reflexivity|].
  cbn [String.append]. rewrite !Contains_cons, IH. apply orb_assoc.
Qed.

Lemma one_of_false (c d : ascii) (set : string) :
  one_of c set = false -> one_of d set = true -> Ascii.eqb d c = false.
Proof.
  intros Hc Hd. apply Ascii.eqb_neq. intros ->. congruence.
Qed.

Lemma hexdigit_upper (i : Z) : one_of (hexdigit i) upperhex = true.
Proof.
  unfold hexdigit. generalize (Z.to_nat i). intros k.
  do 16 (destruct k as [|k]; [reflexivity|]). reflexivity.
Qed.

(** The bytes that [escape] may add. *)
Definition escape_bytes : string := "%+" +:+ upperhex.

Lemma upper_escape_bytes (d : ascii) :
  one_of d upperhex = true -> one_of d escape_bytes = true.
Proof.
  intros H. unfold escape_bytes.
  change (one_of d ("%+" +:+ upperhex))
    with (Ascii.eqb d "%" || (Ascii.eqb d "+" || one_of d upperhex)).
  rewrite H. now rewrite !orb_true_r.
Qed.

(** A byte that [mode] escapes, other than the bytes of an escape, does not
    occur in the escaped text. *)
Lemma escape_free (c : ascii) (s : string) (mode : encoding) :
  shouldEscape c mode = true -> one_of c escape_bytes = false ->
  Contains (escape s mode) (str c) = false.
Proof.
  intros Hc Hs. rewrite escape_eq.
  induction s as [|d r IH]; [reflexivity|]. cbn [escape_build].
  destruct (Ascii.eqb d " " && encoding_eqb mode encodeQueryComponent).
  - rewrite Contains_cons, IH.
    rewrite (one_of_false c "+" escape_bytes Hs eq_refl). reflexivity.
  - destruct (shouldEscape d mode) eqn:Hd.
    + rewrite !Contains_cons, IH.
      rewrite (one_of_false c "%" escape_bytes Hs eq_refl).
      rewrite !(one_of_false c (hexdigit _) escape_bytes Hs)
        by (apply upper_escape_bytes, hexdigit_upper).
      reflexivity.
    + rewrite Contains_cons, IH.
      destruct (Ascii.eqb_spec d c) as [->|]; [congruence|reflexivity].
Qed.

(** The bytes that [validEncoded] lets pass in every mode. *)
Definition encoded_bytes : string := "!$&'()*+,;=:@[]%".

Lemma validEncoded_free (c : ascii) (s : string) (mode : encoding) :
  shouldEscape c mode = true -> one_of c encoded_bytes = false ->
  validEncoded s mode = true -> Contains s (str c) = false.
Proof.
  intros Hc Hs. induction s as [|d r IH]; [reflexivity|].
  cbn [validEncoded]. change "!$&'()*+,;=:@[]%"%string with encoded_bytes.
  rewrite Contains_cons.
  destruct (one_of d encoded_bytes) eqn:Hd.
  - intros H. rewrite (IH H), (one_of_false c d encoded_bytes Hs Hd). reflexivity.
  - destruct (shouldEscape d mode) eqn:He; [discriminate|].
    intros H. rewrite (IH H).
    destruct (Ascii.eqb_spec d c) as [->|]; [congruence|reflexivity].
Qed.

(** The bytes that end the path of a URL. *)
Definition ends_path (c : ascii) : Prop := c = "?"%char \/ c = "#"%char.

Lemma EscapedPath_free (c : ascii) (u : URL) :
  ends_path c -> Path u <> "*" -> Contains (EscapedPath u) (str c) = false.
Proof.
  intros Hc Hp.
  assert (H1 : shouldEscape c encodePath = true) by (destruct Hc as [-> | ->]; reflexivity).
  assert (H2 : one_of c escape_bytes = false) by (destruct Hc as [-> | ->]; reflexivity).
  assert (H3 : one_of c encoded_bytes = false) by (destruct Hc as [-> | ->]; reflexivity).
  unfold EscapedPath.
  destruct (negb (String.eqb (RawPath u) EmptyString)
            && validEncoded (RawPath u) encodePath) eqn:Hv.
  - apply andb_true_iff in Hv as [_ Hv].
    destruct (unescape (RawPath u) encodePath) as [p|e].
    + destruct (String.eqb p (Path u)).
      * now apply (validEncoded_free c _ encodePath).
      * apply String.eqb_neq in Hp. rewrite Hp. now apply escape_free.
    + apply String.eqb_neq in Hp. rewrite Hp. now apply escape_free.
  - apply String.eqb_neq in Hp. rewrite Hp. now apply escape_free.
Qed.

Lemma userinfo_free (c : ascii) (usr : option Userinfo) :
  ends_path c -> Contains (userinfo_at usr) (str c) = false.
Proof.
  intros Hc.
  assert (H1 : shouldEscape c encodeUserPassword = true)
    by (destruct Hc as [-> | ->]; reflexivity).
  assert (H2 : one_of c escape_bytes = false) by (destruct Hc as [-> | ->]; reflexivity).
  destruct usr as [ui|]; [|reflexivity]. unfold userinfo_at, Userinfo_String.
  destruct (passwordSet ui); rewrite !Contains_app, !escape_free by assumption;
    destruct Hc as [-> | ->]; reflexivity.
Qed.

Lemma host_free (c : ascii) (host : string) :
  ends_path c -> Contains (escape host encodeHost) (str c) = false.
Proof.
  intros Hc. apply escape_free; destruct Hc as [-> | ->]; reflexivity.
Qed.

(** *** Hostname *)

Lemma HasSuffix_bracket (h : string) : HasSuffix ("[" +:+ h +:+ "]") "]" = true.
Proof.
  unfold HasSuffix, len, slice_from.
  rewrite !strings_facts.length_app. cbn [String.length].
  replace (Z.to_nat (Z.of_nat (1 + (String.length h + 1)) - Z.of_nat 1))
    with (String.length ("[" +:+ h)) by (rewrite strings_facts.length_app; simpl; lia).
  rewrite <- strings_facts.app_assoc, strings_facts.drop_app.
  apply andb_true_iff. split; [apply Z.leb_le; lia|reflexivity].
Qed.

Lemma slice_bracket (h : string) :
  slice ("[" +:+ h +:+ "]") 1 (len ("[" +:+ h +:+ "]") - 1) = h.
Proof.
  unfold slice, slice_to, slice_from, len.
  rewrite !strings_facts.length_app. cbn [String.length].
  replace (Z.to_nat (Z.of_nat (1 + (String.length h + 1)) - 1))
    with (String.length ("[" +:+ h)) by (rewrite strings_facts.length_app; simpl; lia).
  rewrite <- strings_facts.app_assoc, strings_facts.take_app. reflexivity.
Qed.

Lemma splitHostPort_host (x d : string) :
  all_digits d = true ->
  fst (splitHostPort (x +:+ ":" +:+ d)) =
    if HasPrefix x "[" && HasSuffix x "]" then slice x 1 (len x - 1) else x.
Proof.
  intros Hd. unfold splitHostPort. rewrite (LastIndex_app_colon x d Hd).
  unfold len at 1 2 3, slice_from at 1, slice_to at 1.
  destruct (Z.eqb_spec (Z.of_nat (String.length x)) (-1)); [lia|].
  rewrite Nat2Z.id, strings_facts.drop_app, strings_facts.take_app.
  change (validOptionalPort (":" +:+ d)) with (all_digits d). rewrite Hd.
  cbn [negb andb fst]. reflexivity.
Qed.

(** The host name of the result of [JoinHostPort]. *)
Lemma JoinHostPort_hostname (h d : string) :
  all_digits d = true ->
  Contains h ":" = true \/ HasPrefix h "[" = false \/ HasSuffix h "]" = false ->
  fst (splitHostPort (JoinHostPort h d)) = h.
Proof.
  intros Hd Hh. unfold JoinHostPort. fold (Contains h ":").
  destruct (Contains h ":") eqn:Hc.
  - replace ("[" +:+ h +:+ "]:" +:+ d) with (("[" +:+ h +:+ "]") +:+ ":" +:+ d)
      by (rewrite !strings_facts.app_assoc; reflexivity).
    rewrite (splitHostPort_host _ d Hd), HasSuffix_bracket.
    change (HasPrefix ("[" +:+ h +:+ "]") "[") with true.
    cbn [andb]. apply slice_bracket.
  - rewrite (splitHostPort_host h d Hd).
    destruct Hh as [Hh|[Hh|Hh]]; [discriminate|now rewrite Hh|].
    rewrite Hh. now rewrite andb_false_r.
Qed.

End url_more.

(** The -path argument stays in the path.  In the URL that buildURL returns
    the text before the query and the fragment of the base URL (the scheme, the
    authority, and the path built from the argument) contains neither [?] nor
    [#], whatever the argument contains: those bytes are escaped.  So the
    result has a query or a fragment only when the base URL has one, and it is
    that one. *)
Theorem buildURL_path_confined (rawURL path : string) (port : Z) (u : url.URL) :
  url.Parse rawURL = Ok u ->
  url.Scheme u = "ws" \/ url.Scheme u = "wss" ->
  url.Host u <> EmptyString ->
  exists front,
    buildURL rawURL path port =
      (front +:+ url_facts.query_part u +:+ url_facts.fragment_part u, None)
    /\ strings.Contains front "?" = false
    /\ strings.Contains front "#" = false
    /\ (url.ForceQuery u = false -> url.RawQuery u = EmptyString ->
        url.Fragment u = EmptyString ->
        buildURL rawURL path port = (front, None)).
Proof.
  intros Hp Hs Hh.
  destruct (url_facts.Parse_host rawURL u Hp Hh) as [Ho Hr].
  destruct (built_facts u path port) as (Bs & Bo & Bu & Bp & Bq & Bf & Bh).
  assert (Hpre : strings.HasPrefix (url.EscapedPath (url.set_Path u (rooted path))) "/"
                 = true).
  { apply url_facts.EscapedPath_prefix; [apply rooted_prefix|exact Hr]. }
  pose proof (buildURL_ok rawURL path port u Hp Hs Hh) as Hb.
  rewrite url_facts.URL_String_shape in Hb;
    [|rewrite Bs; exact Hs|rewrite Bo; exact Ho|exact (Bh Hh)|rewrite Bp; exact Hpre].
  rewrite Bs, Bu, Bp, Bq, Bf in Hb.
  set (front := url.Scheme u +:+ "://" +:+ url_facts.userinfo_at (url.User u)
                +:+ url.escape (url.Host (built u path port)) url.encodeHost
                +:+ url.EscapedPath (url.set_Path u (rooted path))).
  assert (Hfree : forall c, url_more.ends_path c -> strings.Contains front (str c) = false).
  { intros c Hc. unfold front.
    rewrite !url_more.Contains_app, url_more.userinfo_free, url_more.host_free,
      url_more.EscapedPath_free by
      (try exact Hc; cbn [url.Path url.set_Path]; intros E;
       pose proof (rooted_prefix path) as Hx; rewrite E in Hx; discriminate Hx).
    destruct Hs as [-> | ->]; destruct Hc as [-> | ->]; reflexivity. }
  exists front. repeat apply conj.
  - rewrite Hb. unfold front. now rewrite !strings_facts.app_assoc.
  - apply (Hfree "?"%char). now left.
  - apply (Hfree "#"%char). now right.
  - intros Hf Hq Hg. rewrite Hb. unfold front, url_facts.query_part, url_facts.fragment_part.
    rewrite Hf, Hq, Hg. cbn [String.eqb negb orb].
    now rewrite !strings_facts.app_nil_r.
Qed.

(** A path argument with a question mark and a hash, at the base URL of the
    README. *)
Lemma buildURL_path_confined_witness :
  exists front,
    buildURL "ws://localhost" "a?b#c" 9000 = (front +:+ EmptyString +:+ EmptyString, None)
    /\ strings.Contains front "?" = false
    /\ strings.Contains front "#" = false
    /\ (false = false -> EmptyString = EmptyString -> EmptyString = EmptyString ->
        buildURL "ws://localhost" "a?b#c" 9000 = (front, None)).
Proof.
  apply (buildURL_path_confined "ws://localhost" "a?b#c" 9000
           (url.mkURL "ws" EmptyString None "localhost" EmptyString EmptyString
                      false false EmptyString EmptyString EmptyString)).
  - reflexivity.
  - now left.
  - discriminate.
Defined.

(** The port override changes the port only.  With a port argument above
    zero the host of the URL built is the host name of the base URL, in
    brackets when it has a colon, followed by the port argument: a port in the
    base URL is replaced, and the host name is kept, unless it is itself a text
    in brackets without a colon, which loses them. *)
Theorem buildURL_port_override (rawURL path : string) (port : Z) (u : url.URL) :
  url.Parse rawURL = Ok u ->
  url.Scheme u = "ws" \/ url.Scheme u = "wss" ->
  url.Host u <> EmptyString ->
  0 < port ->
  strings.Contains (url.Hostname u) ":" = true
  \/ strings.HasPrefix (url.Hostname u) "[" = false
  \/ strings.HasSuffix (url.Hostname u) "]" = false ->
  buildURL rawURL path port = (url.URL_String (built u path port), None)
  /\ url.Hostname (built u path port) = url.Hostname u
  /\ url.Port (built u path port) = Itoa port
  /\ url.Host (built u path port) =
       (if strings.Contains (url.Hostname u) ":"
        then "[" +:+ url.Hostname u +:+ "]" else url.Hostname u)
       +:+ ":" +:+ Itoa port.
Proof.
  intros Hp Hs Hne Hlt Hh. split; [now apply buildURL_ok|].
  unfold built. destruct (Z.ltb_spec 0 port); [|lia].
  pose proof (url_facts.Itoa_digits port Hlt) as Hd.
  change (url.Hostname (url.set_Path u (rooted path))) with (url.Hostname u).
  unfold url.Hostname at 1, url.Port. cbn [url.Host url.set_Host].
  split; [now apply url_more.JoinHostPort_hostname|].
  destruct (url_facts.JoinHostPort_shape (url.Hostname u) (Itoa port)) as (x & Hj & _).
  split; [rewrite Hj; now apply url_facts.splitHostPort_port|].
  unfold JoinHostPort. fold (strings.Contains (url.Hostname u) ":").
  destruct (strings.Contains (url.Hostname u) ":");
    now rewrite ?strings_facts.app_assoc.
Qed.

(** A base URL with an IPv6 address and a port. *)
Lemma buildURL_port_override_witness :
  buildURL "ws://[::1]:8080/x" "/chat" 9000 = ("ws://[::1]:9000/chat", None)
  /\ url.Hostname (built (url.mkURL "ws" EmptyString None "[::1]:8080" "/x"
                            EmptyString false false EmptyString EmptyString
                            EmptyString)
                    "/chat" 9000) = "::1"
  /\ url.Port (built (url.mkURL "ws" EmptyString None "[::1]:8080" "/x"
                        EmptyString false false EmptyString EmptyString EmptyString)
                 "/chat" 9000) = "9000"
  /\ url.Host (built (url.mkURL "ws" EmptyString None "[::1]:8080" "/x"
                        EmptyString false false EmptyString EmptyString EmptyString)
                 "/chat" 9000) = "[::1]:9000".
Proof.
  apply (buildURL_port_override "ws://[::1]:8080/x" "/chat" 9000
           (url.mkURL "ws" EmptyString None "[::1]:8080" "/x"
                      EmptyString false false EmptyString EmptyString EmptyString)).
  - reflexivity.
  - now left.
  - discriminate.
  - lia.
  - left. reflexivity.
Defined.

(** ** parseFlags: the names it refuses (line 72) *)

Module names_facts.
Import strings.

(** Every byte of [s] satisfies [P]. *)
Fixpoint all_bytes (P : Z -> bool) (s : string) : bool :=
  match s with
  | EmptyString => true
  | String c r => P (byte_of c) && all_bytes P r
  end.

Definition is_ascii (b : Z) : bool := b <? utf8.RuneSelf.

Lemma asciiSpace_ascii (b : Z) : asciiSpace b = true -> (utf8.RuneSelf <=? b) = false.
Proof.
  unfold asciiSpace, utf8.RuneSelf. intros H. apply Z.leb_gt.
  repeat (apply orb_true_iff in H as [H|H]); apply Z.eqb_eq in H; lia.
Qed.

Lemma slice_empty (s : string) (n : nat) : drop n (take n s) = EmptyString.
Proof. revert s. induction n as [|n IH]; intros [|c r]; cbn; auto. Qed.

Lemma length_take (s : string) (n : nat) :
  (n <= String.length s)%nat -> String.length (take n s) = n.
Proof.
  revert s. induction n as [|n IH]; intros [|c r]; cbn; intros H; auto; try lia.
  rewrite IH; lia.
Qed.

Lemma length_drop (s : string) (n : nat) :
  String.length (drop n s) = (String.length s - n)%nat.
Proof. revert s. induction n as [|n IH]; intros [|c r]; cbn; auto. Qed.

Lemma slice_nonempty (s : string) (lo hi : Z) :
  0 <= lo < hi -> hi <= len s -> slice s lo hi <> EmptyString.
Proof.
  unfold slice, slice_from, slice_to, len. intros H1 H2 E.
  apply (f_equal String.length) in E. rewrite length_drop, length_take in E by lia.
  cbn in E. lia.
Qed.

Lemma at_cons (c : ascii) (r : string) (i : Z) :
  0 < i -> at_ (String c r) i = at_ r (i - 1).
Proof.
  intros H. unfold at_. replace (Z.to_nat i) with (S (Z.to_nat (i - 1))) by lia.
  reflexivity.
Qed.

Lemma at_ascii (s : string) (i : Z) :
  all_bytes is_ascii s = true -> (utf8.RuneSelf <=? at_ s i) = false.
Proof.
  unfold at_. generalize (Z.to_nat i). intros n. revert n.
  induction s as [|c r IH]; intros n H; [now destruct n|].
  cbn [all_bytes] in H. apply andb_true_iff in H as [Hc Hr].
  destruct n as [|n]; cbn [String.get].
  - unfold is_ascii in Hc. apply Z.ltb_lt in Hc. apply Z.leb_gt. exact Hc.
  - now apply IH.
Qed.

(** The first loop of TrimSpace over ASCII text: it stops at the end when
    every byte is a space, and at the first byte that is not otherwise. *)
Lemma TrimSpace_start_ascii (rest : string) :
  forall start, all_bytes is_ascii rest = true ->
  exists k,
    TrimSpace_start rest start = inl k
    /\ (all_bytes asciiSpace rest = true /\ k = start + len rest
        \/ all_bytes asciiSpace rest = false /\ start <= k < start + len rest
           /\ asciiSpace (at_ rest (k - start)) = false).
Proof.
  induction rest as [|c r IH]; intros start H.
  - exists start. split; [reflexivity|]. left. unfold len. cbn. split; [reflexivity|lia].
  - cbn [all_bytes] in H. apply andb_true_iff in H as [Hc Hr].
    cbn [TrimSpace_start all_bytes].
    unfold is_ascii in Hc. apply Z.ltb_lt in Hc.
    destruct (Z.leb_spec utf8.RuneSelf (byte_of c)); [lia|].
    destruct (asciiSpace (byte_of c)) eqn:Hs; cbn [andb].
    + destruct (IH (start + 1) Hr) as (k & Hk & Hcase). exists k. split; [exact Hk|].
      unfold len in *. cbn [String.length].
      destruct Hcase as [[Ha ->]|(Ha & Hrange & Hat)]; [left|right].
      * split; [exact Ha|lia].
      * split; [exact Ha|]. split; [lia|].
        rewrite at_cons by lia. now replace (k - start - 1) with (k - (start + 1)) by lia.
    + exists start. split; [reflexivity|]. right. split; [reflexivity|].
      unfold len. cbn [String.length]. split; [lia|].
      replace (start - start) with 0 by lia. exact Hs.
Qed.

(** The second loop, when a byte that is not a space stands at [start]. *)
Lemma TrimSpace_stop_ascii (s : string) (start : Z) (fuel : nat) :
  forall stop,
  all_bytes is_ascii s = true -> asciiSpace (at_ s start) = false ->
  0 <= start < stop -> stop <= len s ->
  TrimSpace_stop fuel s start stop <> EmptyString.
Proof.
  induction fuel as [|fuel IH]; intros stop Ha Hs H1 H2; cbn [TrimSpace_stop].
  - now apply slice_nonempty.
  - destruct (Z.leb_spec stop start); [lia|].
    rewrite (at_ascii s (stop - 1) Ha).
    destruct (asciiSpace (at_ s (stop - 1))) eqn:Hc; [|now apply slice_nonempty].
    apply IH; auto; [|lia].
    assert (stop - 1 <> start) by (intros E; rewrite E in Hc; congruence). lia.
Qed.

(** TrimSpace of ASCII text is empty exactly when every byte is a space. *)
Lemma TrimSpace_empty_iff (s : string) :
  all_bytes is_ascii s = true ->
  (TrimSpace s = EmptyString <-> all_bytes asciiSpace s = true).
Proof.
  intros Ha. unfold TrimSpace.
  destruct (TrimSpace_start_ascii s 0 Ha) as (k & -> & [[Hb ->]|(Hb & Hr & Hat)]).
  - split; [intros _; exact Hb|intros _].
    replace (0 + len s) with (len s) by lia.
    destruct (String.length s) eqn:E; cbn [TrimSpace_stop].
    + unfold slice, slice_from, slice_to. apply slice_empty.
    + destruct (Z.leb_spec (len s) (len s)); [|lia].
      unfold slice, slice_from, slice_to. apply slice_empty.
  - rewrite Hb. split; [|discriminate]. intros E. exfalso.
    replace (k - 0) with k in Hat by lia.
    apply (TrimSpace_stop_ascii s k (String.length s) (len s)); auto; lia.
Qed.

Lemma blank_no_eq (s : string) :
  all_bytes asciiSpace s = true -> Contains s "=" = false.
Proof.
  induction s as [|c r IH]; [reflexivity|].
  cbn [all_bytes]. intros [Hc Hr]%andb_true_iff.
  change "="%string with (str eq_sign). rewrite url_more.Contains_cons.
  change (str eq_sign) with "="%string. rewrite (IH Hr).
  destruct (Ascii.eqb_spec c eq_sign) as [->|]; [discriminate Hc|reflexivity].
Qed.

Lemma blank_ascii (s : string) :
  all_bytes asciiSpace s = true -> all_bytes is_ascii s = true.
Proof.
  induction s as [|c r IH]; [reflexivity|].
  cbn [all_bytes]. intros [Hc Hr]%andb_true_iff. rewrite (IH Hr).
  apply asciiSpace_ascii in Hc. unfold is_ascii.
  apply Z.leb_gt in Hc. apply andb_true_iff. split; [now apply Z.ltb_lt|reflexivity].
Qed.

End names_facts.

(** The names that parseFlags refuses.  An argument whose text before the
    first [=] is empty or consists of the ASCII white space bytes (tab, line
    feed, vertical tab, form feed, carriage return, space) is refused with the
    missing-name error.  Among the names made of ASCII bytes these are the only
    ones refused: a name with a byte that is not white space is stored, as it
    is written. *)
Theorem parseFlags_blank_names :
  (forall (d : gmap string string) (name value : string) (rest : list string),
     names_facts.all_bytes strings.asciiSpace name = true ->
     parseFlags_loop d (token name value :: rest)
       = Some (d, Some (Errorf_missing_name (token name value))))
  /\ (forall (d : gmap string string) (name value : string) (rest : list string),
        names_facts.all_bytes names_facts.is_ascii name = true ->
        strings.Contains name "=" = false ->
        names_facts.all_bytes strings.asciiSpace name = false ->
        good_name name
        /\ parseFlags_loop d (token name value :: rest)
             = parseFlags_loop (<[name := value]> d) rest).
Proof.
  split.
  - intros d name value rest Hb.
    rewrite parseFlags_loop_token by (now apply names_facts.blank_no_eq).
    pose proof (names_facts.TrimSpace_empty_iff name (names_facts.blank_ascii name Hb)) as H.
    rewrite (proj2 H Hb). reflexivity.
  - intros d name value rest Ha Hn Hb.
    pose proof (names_facts.TrimSpace_empty_iff name Ha) as H.
    assert (Ht : strings.TrimSpace name <> EmptyString).
    { intros E. apply H in E. congruence. }
    split; [split; assumption|].
    rewrite parseFlags_loop_token by exact Hn.
    apply String.eqb_neq in Ht. now rewrite Ht.
Qed.

(** ** The command line (lines 44-57) *)

Section flag_facts.
Import strings.
Variable ParseInt : string -> option Z.
Variable ParseDuration : string -> option Z.

Abbreviation parseOne := (flag.parseOne ParseInt ParseDuration).
Abbreviation Parse_loop := (flag.Parse_loop ParseInt ParseDuration).
Abbreviation Parse := (flag.Parse ParseInt ParseDuration).

(** An argument that [parseOne] takes for a flag: two bytes or more, the
    first a minus sign. *)
Definition flag_like (s : string) : bool :=
  negb ((len s <? 2) || negb (at_ s 0 =? byte_of "-")).

(** The arguments start with one that is not taken for a flag, or there is
    none. *)
Definition data_first (args : list string) : Prop :=
  match args with
  | [] => True
  | d :: _ => flag_like d = false
  end.

Ltac parseOne_cases H :=
  unfold flag.parseOne in H;
  repeat match type of H with
         | context [if ?b then _ else _] => destruct b eqn:?
         | context [match ?x with _ => _ end] => destruct x eqn:?
         end;
  try discriminate H.

(** A round that sees a flag takes one argument or two. *)
Lemma parseOne_seen (o o' : options) (args args' : list string) :
  parseOne o args = inl (true, o', args') ->
  (exists s, args = s :: args') \/ (exists s v, args = s :: v :: args').
Proof.
  intros H. parseOne_cases H; injection H as <- <-; eauto.
Qed.

(** A round that sees no flag leaves the options as they are, and the
    arguments too unless the first is the terminator. *)
Lemma parseOne_stop (o o' : options) (args args' : list string) :
  parseOne o args = inl (false, o', args') ->
  o' = o /\ (args' = args /\ data_first args \/ args = "--"%string :: args').
Proof.
  intros H. destruct args as [|s rest]; unfold flag.parseOne in H.
  - injection H as <- <-. split; [reflexivity|]. left. now split.
  - destruct ((len s <? 2) || negb (at_ s 0 =? byte_of "-")) eqn:E.
    + injection H as <- <-. split; [reflexivity|]. left. split; [reflexivity|].
      cbn. unfold flag_like. now rewrite E.
    + apply orb_false_iff in E as [E1 E2]. apply negb_false_iff in E2.
      destruct (at_ s 1 =? byte_of "-") eqn:E3.
      * change (2 =? 2) with true in H.
        destruct (len s =? 2) eqn:E4; cbn [andb] in H.
        -- injection H as <- <-. split; [reflexivity|]. right. f_equal.
           destruct s as [|a [|b [|c r]]].
           ++ discriminate E1.
           ++ discriminate E1.
           ++ unfold at_ in E2, E3. cbn [String.get Z.to_nat Pos.to_nat Pos.iter_op]
                in E2, E3.
              apply Z.eqb_eq in E2, E3.
              assert (Hinj : forall x y, byte_of x = byte_of y -> x = y).
              { intros x y Hxy. unfold byte_of in Hxy. apply Z2N.inj_iff in Hxy; try lia.
                rewrite !N2Z.id in Hxy. apply (f_equal ascii_of_N) in Hxy.
                now rewrite !ascii_N_embedding in Hxy. }
              apply Hinj in E2, E3. now subst.
           ++ unfold len in E4. cbn [String.length] in E4.
              apply Z.eqb_eq in E4. lia.
        -- parseOne_cases H.
      * change (1 =? 2) with false in H. cbn [andb] in H. parseOne_cases H.
Qed.

(** With fuel above the number of arguments the loop returns, and more
    fuel changes nothing. *)
Lemma Parse_loop_fuel (fuel : nat) :
  forall (o : options) (args : list string) (fuel' : nat),
  (length args < fuel)%nat -> (length args < fuel')%nat ->
  Parse_loop fuel o args <> None
  /\ Parse_loop fuel o args = Parse_loop fuel' o args.
Proof.
  induction fuel as [|fuel IH]; intros o args fuel' H1 H2; [lia|].
  destruct fuel' as [|fuel']; [lia|]. cbn [flag.Parse_loop].
  destruct (parseOne o args) as [[[[|] o'] args']|e] eqn:E;
    [|split; [discriminate|reflexivity]..].
  apply parseOne_seen in E as [(s & ->)|(s & v & ->)];
    apply IH; cbn [length] in *; lia.
Qed.

Lemma Parse_returns (o : options) (args : list string) : Parse o args <> None.
Proof. apply (Parse_loop_fuel _ o args (S (length args))); lia. Qed.

Lemma Parse_step (o : options) (args : list string) :
  Parse o args =
    match parseOne o args with
    | inl (true, o', args') => Parse o' args'
    | inl (false, o', args') => Some (inl (o', args'))
    | inr e => Some (inr e)
    end.
Proof.
  unfold flag.Parse at 1. cbn [flag.Parse_loop].
  destruct (parseOne o args) as [[[[|] o'] args']|e] eqn:E; try reflexivity.
  unfold flag.Parse.
  apply parseOne_seen in E as [(s & ->)|(s & v & ->)];
    apply Parse_loop_fuel; cbn [length]; lia.
Qed.

(** A round that sees a flag does not depend on the arguments after
    those it takes. *)
Lemma parseOne_app (o o' : options) (flags flags' more : list string) :
  parseOne o flags = inl (true, o', flags') ->
  parseOne o (flags ++ more) = inl (true, o', flags' ++ more).
Proof.
  intros H. unfold flag.parseOne in *. destruct flags as [|s rest]; [discriminate|].
  cbn [app].
  repeat match type of H with
         | context [if ?b then _ else _] => destruct b eqn:?
         | context [match ?x with _ => _ end] => destruct x eqn:?
         end;
    try discriminate H; injection H as <- <-; subst; cbn [app];
    repeat match goal with
           | E : ?x = _ |- context [?x] => rewrite E
           end;
    reflexivity.
Qed.

Lemma parseOne_data (o : options) (args : list string) :
  data_first args -> parseOne o args = inl (false, o, args).
Proof.
  destruct args as [|d rest]; [reflexivity|]. cbn. unfold flag_like.
  intros H%negb_false_iff. unfold flag.parseOne. now rewrite H.
Qed.

Lemma Parse_data (o : options) (args : list string) :
  data_first args -> Parse o args = Some (inl (o, args)).
Proof. intros H. now rewrite Parse_step, parseOne_data. Qed.

(** When [flag.Parse] takes every argument of [flags], what follows them is
    parsed next, from the options they gave, unless the terminator was among
    them, in which case what follows is left as it is. *)
Lemma Parse_app (n : nat) :
  forall (flags : list string) (o0 o : options) (more : list string),
  (length flags <= n)%nat ->
  Parse o0 flags = Some (inl (o, [])) ->
  Parse o0 (flags ++ more) = Parse o more
  \/ (Parse o0 (flags ++ more) = Some (inl (o, more)) /\ "--"%string ∈ flags).
Proof.
  induction n as [|n IH]; intros flags o0 o more Hn H.
  - destruct flags; [|cbn in Hn; lia].
    rewrite Parse_step in H. cbn in H. injection H as <-. now left.
  - rewrite Parse_step in H.
    destruct (parseOne o0 flags) as [[[[|] o'] flags']|e] eqn:E; [| |discriminate].
    + rewrite Parse_step, (parseOne_app o0 o' flags flags' more E).
      assert (Hlen : (length flags' <= n)%nat).
      { apply parseOne_seen in E as [(s & ->)|(s & v & ->)]; cbn in Hn; lia. }
      destruct (IH flags' o' o more Hlen H) as [Hl|[Hr Hin]]; [now left|].
      right. split; [exact Hr|].
      apply parseOne_seen in E as [(s & ->)|(s & v & ->)];
        repeat (apply elem_of_cons; right); exact Hin.
    + injection H as <- ->.
      apply parseOne_stop in E as [-> [[E _]|E]].
      * subst flags. now left.
      * subst flags. right. split; [|apply elem_of_cons; now left].
        now rewrite Parse_step.
Qed.

End flag_facts.

(** The command line is cut at the first argument that is not taken for a
    flag.  When the arguments [flags] are all taken by [flag.Parse], and [data]
    is empty or starts with an argument that does not begin with a minus sign
    (or is a single byte), then on [flags] followed by [data] the options are
    the ones that [flags] give and [flag.Args()] is [data], whatever the later
    elements of [data] look like; parseFlags then goes over [data], and main
    behaves as on these options and arguments. *)
Theorem command_line_split (ParseInt ParseDuration : string -> option Z)
    (flags data : list string) (opts : options) :
  flag.Parse ParseInt ParseDuration defaults flags = Some (inl (opts, [])) ->
  data_first data ->
  flag.Parse ParseInt ParseDuration defaults (flags ++ data) = Some (inl (opts, data))
  /\ parseFlags_argv ParseInt ParseDuration (flags ++ data)
       = option_map inl (parseFlags opts data)
  /\ forall inputs,
       main_argv ParseInt ParseDuration (flags ++ data) inputs = main opts data inputs.
Proof.
  intros H Hd.
  assert (Hp : flag.Parse ParseInt ParseDuration defaults (flags ++ data)
               = Some (inl (opts, data))).
  { destruct (Parse_app ParseInt ParseDuration (length flags) flags defaults opts data
                (le_n _) H) as [Hl|[Hr _]]; [|exact Hr].
    rewrite Hl. now apply Parse_data. }
  split; [exact Hp|]. split.
  - unfold parseFlags_argv. rewrite Hp. now destruct (parseFlags opts data).
  - intros inputs. unfold main_argv. now rewrite Hp.
Qed.

(** The command line of the README's example, with a second data argument
    that looks like a flag. *)
Lemma command_line_split_witness :
  flag.Parse (fun _ => Some 9000) (fun _ => None) defaults
    (["-url"; "ws://localhost"; "-path"; "/chat"; "-port"; "9000"]
     ++ ["user=alice"; "-port=1"])
    = Some (inl (example_opts, ["user=alice"; "-port=1"]))
  /\ parseFlags_argv (fun _ => Some 9000) (fun _ => None)
       (["-url"; "ws://localhost"; "-path"; "/chat"; "-port"; "9000"]
        ++ ["user=alice"; "-port=1"])
       = option_map inl (parseFlags example_opts ["user=alice"; "-port=1"])
  /\ forall inputs,
       main_argv (fun _ => Some 9000) (fun _ => None)
         (["-url"; "ws://localhost"; "-path"; "/chat"; "-port"; "9000"]
          ++ ["user=alice"; "-port=1"]) inputs
       = main example_opts ["user=alice"; "-port=1"] inputs.
Proof.
  apply (command_line_split (fun _ => Some 9000) (fun _ => None)
           ["-url"; "ws://localhost"; "-path"; "/chat"; "-port"; "9000"]
           ["user=alice"; "-port=1"] example_opts).
  - reflexivity.
  - reflexivity.
Defined.

(** A flag of type bool takes no value from the next argument.  After
    -insecure-skip-verify the next argument is parsed on its own: when it is
    not a flag, it is the first data argument, so a value such as false or true
    written after the flag is refused by parseFlags as invalid data, and main
    exits with status 2. *)
Theorem bool_flag_takes_no_value (ParseInt ParseDuration : string -> option Z)
    (flags : list string) (opts : options) (v : string) (rest : list string) :
  flag.Parse ParseInt ParseDuration defaults flags = Some (inl (opts, [])) ->
  "--"%string ∉ flags ->
  flag_like v = false ->
  flag.Parse ParseInt ParseDuration defaults
    (flags ++ "-insecure-skip-verify"%string :: v :: rest)
    = Some (inl (flag.set_insecureTLS opts true, v :: rest))
  /\ (baseURL opts <> EmptyString -> path opts <> EmptyString ->
      strings.Contains v "=" = false ->
      parseFlags_argv ParseInt ParseDuration
        (flags ++ "-insecure-skip-verify"%string :: v :: rest)
        = Some (inl (set_data (flag.set_insecureTLS opts true) ∅,
                     Some (Errorf_invalid_data v)))
      /\ forall inputs,
           main_argv ParseInt ParseDuration
             (flags ++ "-insecure-skip-verify"%string :: v :: rest) inputs = Some 2).
Proof.
  intros H Hnot Hv.
  assert (Hp : flag.Parse ParseInt ParseDuration defaults
                 (flags ++ "-insecure-skip-verify"%string :: v :: rest)
               = Some (inl (flag.set_insecureTLS opts true, v :: rest))).
  { destruct (Parse_app ParseInt ParseDuration (length flags) flags defaults opts
                ("-insecure-skip-verify"%string :: v :: rest) (le_n _) H)
      as [Hl|[_ Hin]]; [|contradiction].
    rewrite Hl, Parse_step.
    change (flag.parseOne ParseInt ParseDuration opts
              ("-insecure-skip-verify"%string :: v :: rest))
      with (@inl _ flag.flagError (true, flag.set_insecureTLS opts true, v :: rest)).
    now apply Parse_data. }
  split; [exact Hp|]. intros Hu Hpath Hc.
  assert (Hf : parseFlags (flag.set_insecureTLS opts true) (v :: rest)
               = Some (set_data (flag.set_insecureTLS opts true) ∅,
                       Some (Errorf_invalid_data v))).
  { unfold parseFlags. cbn [baseURL path flag.set_insecureTLS].
    apply String.eqb_neq in Hu, Hpath. rewrite Hu, Hpath.
    now rewrite parseFlags_loop_no_eq. }
  split.
  - unfold parseFlags_argv. now rewrite Hp, Hf.
  - intros inputs. unfold main_argv, main. now rewrite Hp, Hf.
Qed.

(** The example of the README with the value false after the flag. *)
Lemma bool_flag_takes_no_value_witness :
  flag.Parse (fun _ => None) (fun _ => None) defaults
    (["-url"; "wss://example.com"; "-path"; "/ws"]
     ++ "-insecure-skip-verify"%string :: "false"%string :: ["user=alice"])
    = Some (inl (flag.set_insecureTLS
                   (mkOptions "wss://example.com" "/ws" 0 (10 * Second) (10 * Second)
                      None false) true,
                 ["false"; "user=alice"])).
Proof.
  apply (bool_flag_takes_no_value (fun _ => None) (fun _ => None)
           ["-url"; "wss://example.com"; "-path"; "/ws"]
           (mkOptions "wss://example.com" "/ws" 0 (10 * Second) (10 * Second) None false)
           "false" ["user=alice"]).
  - reflexivity.
  - intros Hin. repeat (apply elem_of_cons in Hin as [Hin|Hin]; [discriminate Hin|]).
    now apply elem_of_nil in Hin.
  - reflexivity.
Defined.
Section flag_syntax.
Import strings.
Variable ParseInt : string -> option Z.
Variable ParseDuration : string -> option Z.

Lemma len_two (a b : ascii) (r : string) : (len (String a (String b r)) <? 2) = false.
Proof. apply Z.ltb_ge. unfold len. cbn [String.length]. lia. Qed.

Lemma len_three (a b c : ascii) (r : string) :
  (len (String a (String b (String c r))) =? 2) = false.
Proof. apply Z.eqb_neq. unfold len. cbn [String.length]. lia. Qed.

Lemma len_one (a : ascii) (r : string) : (len (String a r) =? 0) = false.
Proof. apply Z.eqb_neq. unfold len. cbn [String.length]. lia. Qed.

Lemma at_0 (a : ascii) (r : string) : at_ (String a r) 0 = byte_of a.
Proof. reflexivity. Qed.

Lemma at_1 (a b : ascii) (r : string) : at_ (String a (String b r)) 1 = byte_of b.
Proof. reflexivity. Qed.

Lemma slice_from_1 (a : ascii) (r : string) : slice_from (String a r) 1 = r.
Proof. reflexivity. Qed.

Lemma slice_from_2 (a b : ascii) (r : string) :
  slice_from (String a (String b r)) 2 = r.
Proof. reflexivity. Qed.

(** The names of the flags. *)
Lemma formal_names (n : string) (k : flag.kind) :
  flag.formal n = Some k ->
  n = "url"%string \/ n = "path"%string \/ n = "port"%string
  \/ n = "dial-timeout"%string \/ n = "read-timeout"%string
  \/ n = "insecure-skip-verify"%string.
Proof.
  unfold flag.formal.
  repeat match goal with
         | |- context [String.eqb n ?x] => destruct (String.eqb_spec n x); [tauto|]
         end.
  discriminate.
Qed.

Ltac closed_tests :=
  match goal with
  | |- context [byte_of ?a =? byte_of ?b] =>
      let r := eval vm_compute in (byte_of a =? byte_of b) in
      change (byte_of a =? byte_of b) with r
  | |- context [1 =? 2] => change (1 =? 2) with false
  | |- context [2 =? 2] => change (2 =? 2) with true
  end.

Ltac one_round :=
  unfold flag.parseOne; cbn [String.append];
  repeat first
    [ rewrite len_two | rewrite len_three | rewrite len_one
    | rewrite at_0 | rewrite at_1 | rewrite slice_from_1 | rewrite slice_from_2
    | closed_tests
    | progress cbn [andb orb negb]
    | progress cbv iota ];
  vm_compute; try reflexivity.

Lemma parseOne_eq_form (o : options) (n v : string) (k : flag.kind) (rest : list string) :
  flag.formal n = Some k ->
  let r :=
    match flag.Value_Set ParseInt ParseDuration o n v with
    | Some o' => inl (true, o', rest)
    | None =>
        inr (match k with
             | flag.KBool => flag.InvalidBool v n
             | _ => flag.InvalidValue v n
             end)
    end in
  flag.parseOne ParseInt ParseDuration o (("-" +:+ n +:+ "=" +:+ v) :: rest) = r
  /\ flag.parseOne ParseInt ParseDuration o (("--" +:+ n +:+ "=" +:+ v) :: rest) = r
  /\ (k <> flag.KBool ->
      flag.parseOne ParseInt ParseDuration o (("-" +:+ n) :: v :: rest) = r
      /\ flag.parseOne ParseInt ParseDuration o (("--" +:+ n) :: v :: rest) = r
      /\ flag.parseOne ParseInt ParseDuration o [("-" +:+ n)]
           = inr (flag.NeedsArgument n)).
Proof.
  intros Hk. pose proof (formal_names n k Hk) as Hn.
  destruct Hn as [-> | [-> | [-> | [-> | [-> | ->]]]]]; injection Hk as <-;
    intros r; subst r;
    (split; [one_round|]); (split; [one_round|]); intros Hb;
    try (exfalso; apply Hb; reflexivity);
    (split; [one_round|]); (split; one_round).
Qed.

End flag_syntax.

(** The forms of a flag.  For each flag that parseFlags defines, the value
    may be attached with [=] or, unless the flag is of type bool, be the next
    argument; one minus sign or two make no difference.  The next argument is
    taken as the value whatever it is, also when it begins with a minus sign;
    when there is no next argument flag.Parse fails.  A value that the flag
    does not accept makes flag.Parse fail; otherwise the parse goes on after
    it, from the options with the value stored. *)
Theorem flag_forms (ParseInt ParseDuration : string -> option Z)
    (o : options) (n v : string) (k : flag.kind) (rest : list string) :
  flag.formal n = Some k ->
  let r :=
    match flag.Value_Set ParseInt ParseDuration o n v with
    | Some o' => flag.Parse ParseInt ParseDuration o' rest
    | None =>
        Some (inr (match k with
                   | flag.KBool => flag.InvalidBool v n
                   | _ => flag.InvalidValue v n
                   end))
    end in
  flag.Parse ParseInt ParseDuration o (("-" +:+ n +:+ "=" +:+ v) :: rest) = r
  /\ flag.Parse ParseInt ParseDuration o (("--" +:+ n +:+ "=" +:+ v) :: rest) = r
  /\ (k <> flag.KBool ->
      flag.Parse ParseInt ParseDuration o (("-" +:+ n) :: v :: rest) = r
      /\ flag.Parse ParseInt ParseDuration o (("--" +:+ n) :: v :: rest) = r
      /\ flag.Parse ParseInt ParseDuration o [("-" +:+ n)]
           = Some (inr (flag.NeedsArgument n))).
Proof.
  intros Hk r.
  destruct (parseOne_eq_form ParseInt ParseDuration o n v k rest Hk) as (H1 & H2 & H3).
  assert (Hr : forall args,
    flag.parseOne ParseInt ParseDuration o args =
      match flag.Value_Set ParseInt ParseDuration o n v with
      | Some o' => inl (true, o', rest)
      | None =>
          inr (match k with
               | flag.KBool => flag.InvalidBool v n
               | _ => flag.InvalidValue v n
               end)
      end ->
    flag.Parse ParseInt ParseDuration o args = r).
  { intros args H. rewrite Parse_step, H. subst r.
    now destruct (flag.Value_Set ParseInt ParseDuration o n v). }
  split; [now apply Hr|]. split; [now apply Hr|]. intros Hb.
  destruct (H3 Hb) as (H4 & H5 & H6).
  split; [now apply Hr|]. split; [now apply Hr|].
  now rewrite Parse_step, H6.
Qed.

(** The flag -url with the value -path. *)
Lemma flag_forms_witness :
  flag.Parse (fun _ => None) (fun _ => None) defaults ["-url"; "-path"; "/ws"]
    = flag.Parse (fun _ => None) (fun _ => None)
        (flag.set_baseURL defaults "-path") ["/ws"].
Proof.
  refine (proj1 (proj2 (proj2 (flag_forms (fun _ => None) (fun _ => None) defaults
                                 "url" "-path" flag.KString ["/ws"] eq_refl)) _)).
  discriminate.
Defined.

(** ** buildURL: the URL built parses back (lines 167-171 and 102) *)

Module reparse.
Import strings url url_facts url_more.

(** *** unescape after escape *)

Lemma unhex2_hexdigit (c : ascii) :
  unhex2 (hexdigit (Z.shiftr (byte_of c) 4)) (hexdigit (Z.land (byte_of c) 15)) = c.
Proof.
  destruct c as [[] [] [] [] [] [] [] []]; vm_compute; reflexivity.
Qed.

Lemma ishex_hexdigit (i : Z) : ishex (hexdigit i) = true.
Proof.
  unfold hexdigit. generalize (Z.to_nat i). intros k.
  do 16 (destruct k as [|k]; [reflexivity|]). reflexivity.
Qed.

(** The bytes of a host that [escape] and [unescape] take back and forth:
    those that are not escaped in a host, the percent sign, and the bytes from
    0x80 on. *)
Definition host_byte (c : ascii) : bool :=
  negb (shouldEscape c encodeHost) || Ascii.eqb c "%" || (0x80 <=? byte_of c).

Fixpoint all_chars (P : ascii -> bool) (s : string) : bool :=
  match s with
  | EmptyString => true
  | String c r => P c && all_chars P r
  end.

(** The modes in which every text goes back and forth, and the texts that
    do in the mode of the host. *)
Definition mode_ok (mode : encoding) (s : string) : Prop :=
  match mode with
  | encodePath | encodeUserPassword | encodeFragment => True
  | encodeHost => all_chars host_byte s = true
  | _ => False
  end.

Lemma mode_ok_cons (mode : encoding) (c : ascii) (r : string) :
  mode_ok mode (String c r) ->
  mode_ok mode r
  /\ encoding_eqb mode encodeQueryComponent = false
  /\ encoding_eqb mode encodeZone = false
  /\ (encoding_eqb mode encodeHost = true -> host_byte c = true).
Proof.
  destruct mode; cbn; try tauto; try (intros _; repeat split; discriminate).
  intros [H1 H2]%andb_true_iff. auto.
Qed.

Lemma percent_escaped (mode : encoding) : shouldEscape "%" mode = true.
Proof. now destruct mode. Qed.

Lemma host_escape_high (c : ascii) :
  host_byte c = true -> shouldEscape c encodeHost = true ->
  (unhex (hexdigit (Z.shiftr (byte_of c) 4)) <? 8) = false \/ c = "%"%char.
Proof.
  intros H Hs. unfold host_byte in H. rewrite Hs in H. cbn [negb orb] in H.
  apply orb_true_iff in H as [H|H].
  - right. now apply Ascii.eqb_eq.
  - left. revert H. destruct c as [[] [] [] [] [] [] [] []]; vm_compute; congruence.
Qed.

(** The first loop of [unescape] on escaped text: it counts the escapes. *)
Lemma scan_escape (mode : encoding) (s : string) :
  forall n, mode_ok mode s ->
  unescape_scan (escape_build s mode) mode n false
    = Ok (n + snd (escape_count s mode), false).
Proof.
  induction s as [|c r IH]; intros n Hok.
  - cbn. now rewrite Z.add_0_r.
  - apply mode_ok_cons in Hok as (Hr & Hq & Hz & Hh).
    cbn [escape_build escape_count]. rewrite Hq, andb_false_r.
    destruct (escape_count r mode) as [sp hx] eqn:Hc. cbn [snd] in IH.
    destruct (shouldEscape c mode) eqn:Hs.
    + cbn [unescape_scan snd]. change (Ascii.eqb "%" "%") with true. cbv iota.
      rewrite !ishex_hexdigit. cbn [negb orb]. rewrite Hz. cbn [andb].
      assert (Hhost : encoding_eqb mode encodeHost
                      && (unhex (hexdigit (Z.shiftr (byte_of c) 4)) <? 8)
                      && negb (String.eqb
                                 (take 3 (String "%"
                                    (String (hexdigit (Z.shiftr (byte_of c) 4))
                                       (String (hexdigit (Z.land (byte_of c) 15))
                                          (escape_build r mode))))) "%25") = false).
      { destruct (encoding_eqb mode encodeHost) eqn:Hm; [|reflexivity].
        assert (mode = encodeHost) as -> by (destruct mode; try discriminate; reflexivity).
        destruct (host_escape_high c (Hh eq_refl) Hs) as [E| ->].
        - now rewrite E.
        - reflexivity. }
      rewrite Hhost. rewrite IH by exact Hr. f_equal. f_equal. lia.
    + cbn [unescape_scan snd].
      destruct (Ascii.eqb_spec c "%") as [->|Hp]; [now rewrite percent_escaped in Hs|].
      rewrite Hq.
      destruct (Ascii.eqb c "+"); [now apply IH|].
      assert (Hhost : (encoding_eqb mode encodeHost || encoding_eqb mode encodeZone)
                      && (byte_of c <? 128) && shouldEscape c encodeHost = false).
      { rewrite Hz, orb_false_r.
        destruct (encoding_eqb mode encodeHost) eqn:Hm; [|reflexivity].
        assert (mode = encodeHost) as -> by (destruct mode; try discriminate; reflexivity).
        rewrite Hs. now rewrite andb_false_r. }
      rewrite Hhost. now apply IH.
Qed.

(** The second loop on escaped text gives the text back. *)
Lemma build_escape (mode : encoding) (s : string) :
  encoding_eqb mode encodeQueryComponent = false ->
  unescape_build (escape_build s mode) mode = s.
Proof.
  intros Hq. induction s as [|c r IH]; [reflexivity|].
  cbn [escape_build]. rewrite Hq, andb_false_r.
  destruct (shouldEscape c mode) eqn:Hs.
  - cbn [unescape_build]. change (Ascii.eqb "%" "%") with true. cbv iota.
    now rewrite unhex2_hexdigit, IH.
  - cbn [unescape_build].
    destruct (Ascii.eqb_spec c "%") as [->|Hp]; [now rewrite percent_escaped in Hs|].
    rewrite Hq. destruct (Ascii.eqb_spec c "+") as [->|]; now rewrite IH.
Qed.

Lemma unescape_escape (mode : encoding) (s : string) :
  mode_ok mode s -> unescape (escape s mode) mode = Ok s.
Proof.
  intros Hok. rewrite escape_eq. unfold unescape.
  rewrite (scan_escape mode s 0 Hok). cbn [bind fst snd negb andb].
  assert (Hq : encoding_eqb mode encodeQueryComponent = false)
    by (destruct mode; try reflexivity; contradiction).
  pose proof (escape_count_nonneg s mode) as [Hsp Hhx].
  destruct (Z.eqb_spec (0 + snd (escape_count s mode)) 0) as [E|E]; cbn [andb].
  - f_equal. apply escape_build_id.
    destruct (escape_count s mode) as [sp hx] eqn:Hc. cbn [fst snd] in *.
    assert (hx = 0) as -> by lia. f_equal.
    (* no space is counted outside the mode of a query *)
    clear - Hc Hq. revert sp Hc. induction s as [|c r IH]; intros sp Hc.
    + now injection Hc as <-.
    + cbn [escape_count] in Hc. rewrite Hq, andb_false_r in Hc.
      destruct (escape_count r mode) as [sp' hx'] eqn:Hr.
      pose proof (escape_count_nonneg r mode) as [_ Hn]. rewrite Hr in Hn. cbn in Hn.
      destruct (shouldEscape c mode); injection Hc as <- Hx; [lia|].
      subst hx'. now apply IH.
  - f_equal. now apply build_escape.
Qed.

(** *** Cutting a text at a byte *)

Lemma Cut_found (c : ascii) (a b : string) :
  Contains a (str c) = false ->
  Cut (a +:+ String c b) (str c) = (a, b, true).
Proof.
  intros H. unfold Cut. rewrite (strings_facts.Index_app_first c a b H).
  unfold len, slice_to, slice_from. cbn [String.length str].
  destruct (Z.leb_spec 0 (Z.of_nat (String.length a))); [|lia].
  rewrite Nat2Z.id, strings_facts.take_app.
  replace (Z.to_nat (Z.of_nat (String.length a) + Z.of_nat 1))
    with (String.length (a +:+ str c)) by (rewrite strings_facts.length_app; simpl; lia).
  replace (a +:+ String c b) with ((a +:+ str c) +:+ b)
    by (rewrite strings_facts.app_assoc; reflexivity).
  now rewrite strings_facts.drop_app.
Qed.

Lemma Cut_none (c : ascii) (s : string) :
  Contains s (str c) = false -> Cut s (str c) = (s, EmptyString, false).
Proof. unfold Cut, Contains. now intros ->. Qed.

Lemma LastIndex_none (c : ascii) (s : string) :
  Contains s (str c) = false -> LastIndex s (str c) = -1.
Proof.
  induction s as [|d r IH]; [reflexivity|].
  rewrite Contains_cons. intros [Hd Hr]%orb_false_iff.
  cbn [LastIndex]. rewrite (IH Hr). change (0 <=? -1) with false. cbv iota.
  change (HasPrefix (String d r) (str c)) with (Ascii.eqb d c && true).
  now rewrite Hd.
Qed.

Lemma LastIndex_app_last (c : ascii) (a b : string) :
  Contains b (str c) = false ->
  LastIndex (a +:+ String c b) (str c) = len a.
Proof.
  intros H. unfold len. induction a as [|d r IH].
  - cbn [String.append LastIndex]. rewrite (LastIndex_none c b H).
    change (0 <=? -1) with false. cbv iota.
    change (HasPrefix (String c b) (str c)) with (Ascii.eqb c c && true).
    now rewrite Ascii.eqb_refl.
  - cbn [String.append LastIndex]. rewrite IH.
    destruct (Z.leb_spec 0 (Z.of_nat (String.length r))); [|lia].
    cbn [String.length]. lia.
Qed.

Lemma HasSuffix_cons (c d : ascii) (r : string) :
  HasSuffix (String d r) (str c) =
    match r with
    | EmptyString => Ascii.eqb d c
    | _ => HasSuffix r (str c)
    end.
Proof.
  unfold HasSuffix, len, slice_from. cbn [String.length str].
  destruct r as [|e r'].
  - change (Z.of_nat (String.length (String d EmptyString))) with 1.
    change (Z.of_nat 1 <=? 1) with true.
    change (Z.to_nat (1 - Z.of_nat 1)) with 0%nat. cbn [drop andb].
    destruct (Ascii.eqb_spec d c) as [->|Hne]; [apply String.eqb_refl|].
    apply String.eqb_neq. unfold str. intros [= E]. contradiction.
  - cbn [String.length].
    replace (Z.to_nat (Z.of_nat (S (S (String.length r'))) - Z.of_nat 1))
      with (S (Z.to_nat (Z.of_nat (S (String.length r')) - Z.of_nat 1))) by lia.
    cbn [drop].
    replace (Z.of_nat 1 <=? Z.of_nat (S (S (String.length r')))) with true
      by (symmetry; apply Z.leb_le; lia).
    replace (Z.of_nat 1 <=? Z.of_nat (S (String.length r'))) with true
      by (symmetry; apply Z.leb_le; lia).
    reflexivity.
Qed.

Lemma HasSuffix_none (c : ascii) (s : string) :
  Contains s (str c) = false -> HasSuffix s (str c) = false.
Proof.
  induction s as [|d r IH]; [reflexivity|].
  rewrite Contains_cons, HasSuffix_cons. intros [Hd Hr]%orb_false_iff.
  destruct r; [exact Hd|now apply IH].
Qed.

Lemma HasSuffix_app (c : ascii) (a b : string) :
  b <> EmptyString -> HasSuffix (a +:+ b) (str c) = HasSuffix b (str c).
Proof.
  intros Hb. induction a as [|d r IH]; [reflexivity|].
  cbn [String.append]. rewrite HasSuffix_cons.
  destruct (r +:+ b) eqn:E; [|exact IH].
  destruct r; [cbn in E; congruence|discriminate E].
Qed.

Lemma CountByte_nonneg (c : ascii) (s : string) : 0 <= CountByte s c.
Proof. induction s as [|d r IH]; cbn; [lia|]. destruct (Ascii.eqb d c); lia. Qed.

Lemma CountByte_app (c : ascii) (a b : string) :
  CountByte (a +:+ b) c = CountByte a c + CountByte b c.
Proof. induction a as [|d r IH]; cbn; [reflexivity|]. rewrite IH. lia. Qed.

Lemma CountByte_none (c : ascii) (s : string) :
  Contains s (str c) = false -> CountByte s c = 0.
Proof.
  induction s as [|d r IH]; [reflexivity|].
  rewrite Contains_cons. intros [Hd Hr]%orb_false_iff.
  cbn. now rewrite Hd, IH.
Qed.

Lemma HasSuffix_count (c : ascii) (s : string) :
  HasSuffix s (str c) = true -> 1 <= CountByte s c.
Proof.
  induction s as [|d r IH]; [discriminate|].
  rewrite HasSuffix_cons. pose proof (CountByte_nonneg c r). cbn [CountByte].
  destruct r.
  - intros ->. cbn. lia.
  - intros H1. specialize (IH H1). destruct (Ascii.eqb d c); lia.
Qed.

Lemma CTL_app (a b : string) :
  stringContainsCTLByte (a +:+ b) = stringContainsCTLByte a || stringContainsCTLByte b.
Proof.
  induction a as [|d r IH]; [reflexivity|].
  cbn [String.append stringContainsCTLByte]. rewrite IH. now rewrite !orb_assoc.
Qed.

(** A control byte. *)
Definition ctl (c : ascii) : bool := (byte_of c <? byte_of " ") || (byte_of c =? 0x7f).

Lemma ctl_escaped (c : ascii) (mode : encoding) : ctl c = true -> shouldEscape c mode = true.
Proof.
  destruct mode; revert c; intros [[] [] [] [] [] [] [] []]; vm_compute; congruence.
Qed.

Lemma hexdigit_no_ctl (i : Z) : ctl (hexdigit i) = false.
Proof.
  unfold hexdigit. generalize (Z.to_nat i). intros k.
  do 16 (destruct k as [|k]; [reflexivity|]). reflexivity.
Qed.

Lemma escape_no_ctl (s : string) (mode : encoding) :
  stringContainsCTLByte (escape s mode) = false.
Proof.
  rewrite escape_eq. induction s as [|c r IH]; [reflexivity|]. cbn [escape_build].
  destruct (Ascii.eqb c " " && encoding_eqb mode encodeQueryComponent).
  - cbn [stringContainsCTLByte]. now rewrite IH.
  - destruct (shouldEscape c mode) eqn:Hs.
    + cbn [stringContainsCTLByte]. rewrite IH.
      fold (ctl (hexdigit (Z.shiftr (byte_of c) 4))).
      fold (ctl (hexdigit (Z.land (byte_of c) 15))).
      now rewrite !hexdigit_no_ctl.
    + cbn [stringContainsCTLByte]. rewrite IH. fold (ctl c).
      destruct (ctl c) eqn:Hc; [|reflexivity].
      rewrite (ctl_escaped c mode Hc) in Hs. discriminate.
Qed.

Lemma validEncoded_no_ctl (s : string) (mode : encoding) :
  validEncoded s mode = true -> stringContainsCTLByte s = false.
Proof.
  induction s as [|c r IH]; [reflexivity|]. cbn [validEncoded stringContainsCTLByte].
  fold (ctl c). destruct (one_of c "!$&'()*+,;=:@[]%") eqn:Ho.
  - intros H. rewrite (IH H). 
    assert (ctl c = false) as ->; [|reflexivity].
    revert Ho. clear. destruct c as [[] [] [] [] [] [] [] []]; vm_compute; congruence.
  - destruct (shouldEscape c mode) eqn:Hs; [discriminate|].
    intros H. rewrite (IH H). destruct (ctl c) eqn:Hc; [|reflexivity].
    rewrite (ctl_escaped c mode Hc) in Hs. discriminate.
Qed.

(** A byte that is not in the text and is not a byte of an escape is not in
    the escaped text. *)
Lemma escape_keeps_out (c : ascii) (s : string) (mode : encoding) :
  Contains s (str c) = false -> one_of c escape_bytes = false ->
  Contains (escape s mode) (str c) = false.
Proof.
  intros Hc Hs. rewrite escape_eq.
  induction s as [|d r IH]; [reflexivity|]. cbn [escape_build].
  rewrite Contains_cons in Hc. apply orb_false_iff in Hc as [Hd Hr].
  destruct (Ascii.eqb d " " && encoding_eqb mode encodeQueryComponent).
  - rewrite Contains_cons, (IH Hr).
    rewrite (one_of_false c "+" escape_bytes Hs eq_refl). reflexivity.
  - destruct (shouldEscape d mode) eqn:He.
    + rewrite !Contains_cons, (IH Hr).
      rewrite (one_of_false c "%" escape_bytes Hs eq_refl).
      rewrite !(one_of_false c (hexdigit _) escape_bytes Hs)
        by (apply upper_escape_bytes, hexdigit_upper).
      reflexivity.
    + now rewrite Contains_cons, (IH Hr), Hd.
Qed.

(** *** What Parse leaves in the query and the user *)

Lemma drop_drop (s : string) (n m : nat) : drop n (drop m s) = drop (m + n) s.
Proof.
  revert s. induction m as [|m IH]; intros s; [reflexivity|].
  destruct s as [|c r]; [now destruct n|]. cbn. apply IH.
Qed.

Lemma Contains_drop (c : ascii) (s : string) (n : nat) :
  Contains s (str c) = false -> Contains (drop n s) (str c) = false.
Proof.
  revert s. induction n as [|n IH]; intros s H; [exact H|].
  destruct s as [|d r]; [reflexivity|]. cbn [drop].
  rewrite Contains_cons in H. apply orb_false_iff in H as [_ H]. now apply IH.
Qed.

Lemma CTL_drop (s : string) (n : nat) :
  stringContainsCTLByte s = false -> stringContainsCTLByte (drop n s) = false.
Proof.
  revert s. induction n as [|n IH]; intros s H; [exact H|].
  destruct s as [|d r]; [reflexivity|]. cbn [drop].
  cbn [stringContainsCTLByte] in H. apply orb_false_iff in H as [_ H]. now apply IH.
Qed.

Lemma getScheme_loop_suffix (rawURL : string) (rest : string) :
  forall i sch r,
  getScheme_loop rest i rawURL = Ok (sch, r) -> exists n, r = drop n rawURL.
Proof.
  induction rest as [|c rest IH]; intros i sch r; cbn [getScheme_loop].
  - intros [= _ <-]. now exists 0%nat.
  - destruct (between "a" "z" c || between "A" "Z" c); [apply IH|].
    destruct (between "0" "9" c || one_of c "+-.").
    + destruct (i =? 0); [intros [= _ <-]; now exists 0%nat|apply IH].
    + destruct (Ascii.eqb c ":").
      * destruct (i =? 0); [discriminate|]. intros [= _ <-]. now eexists.
      * intros [= _ <-]. now exists 0%nat.
Qed.

(** A query without hash and control bytes, forced only when empty, and a
    user whose password is empty when it is not set. *)
Definition tidy (u : URL) : Prop :=
  Contains (RawQuery u) "#" = false
  /\ stringContainsCTLByte (RawQuery u) = false
  /\ (ForceQuery u = true -> RawQuery u = EmptyString)
  /\ (forall ui, User u = Some ui -> passwordSet ui = false -> password ui = EmptyString).

Lemma tidy_same (u u' : URL) :
  RawQuery u' = RawQuery u -> ForceQuery u' = ForceQuery u -> User u' = User u ->
  tidy u -> tidy u'.
Proof. unfold tidy. intros -> -> ->. tauto. Qed.

Lemma setPath_tidy (u u' : URL) (p : string) : setPath u p = Ok u' -> tidy u -> tidy u'.
Proof.
  unfold setPath. destruct (unescape p encodePath) as [q|e]; cbn [bind]; [|discriminate].
  destruct (String.eqb p _); intros [= <-]; now apply tidy_same.
Qed.

Lemma setFragment_tidy (u u' : URL) (f : string) :
  setFragment u f = Ok u' -> tidy u -> tidy u'.
Proof.
  unfold setFragment. destruct (unescape f encodeFragment) as [q|e]; cbn [bind];
    [|discriminate].
  destruct (String.eqb f _); intros [= <-]; now apply tidy_same.
Qed.

Lemma parseAuthority_user (authority : string) (usr : option Userinfo) (h : string) :
  parseAuthority authority = Ok (usr, h) ->
  forall ui, usr = Some ui -> passwordSet ui = false -> password ui = EmptyString.
Proof.
  unfold parseAuthority.
  destruct (if LastIndex authority "@" <? 0 then _ else _) as [host|e]; cbn [bind];
    [|discriminate].
  destruct (LastIndex authority "@" <? 0); [intros [= <- _] ui [=]|].
  destruct (negb (validUserinfo _)); [discriminate|].
  destruct (negb (Contains _ ":")).
  - destruct (unescape _ encodeUserPassword) as [x|e]; cbn [bind]; [|discriminate].
    intros [= <- _] ui [= <-] _. reflexivity.
  - destruct (Cut _ ":") as [[un pw] f].
    destruct (unescape un encodeUserPassword) as [x|e]; cbn [bind]; [|discriminate].
    destruct (unescape pw encodeUserPassword) as [y|e]; cbn [bind]; [|discriminate].
    intros [= <- _] ui [= <-]. discriminate.
Qed.

Lemma parse_tidy (rawURL : string) (u : URL) :
  Contains rawURL "#" = false -> parse rawURL false = Ok u -> tidy u.
Proof.
  intros Hh. unfold parse.
  destruct (stringContainsCTLByte rawURL) eqn:Hctl; [discriminate|].
  rewrite andb_false_r.
  destruct (String.eqb rawURL "*");
    [intros [= <-]; repeat split; try reflexivity; try discriminate|].
  destruct (getScheme rawURL) as [[scheme rest0]|e] eqn:Hg; cbn [bind fst snd];
    [|discriminate].
  destruct (getScheme_loop_suffix rawURL rawURL 0 scheme rest0 Hg) as [n ->].
  set (url0 := set_Scheme empty (ToLower scheme)).
  destruct (if HasSuffix (drop n rawURL) "?" && (CountByte (drop n rawURL) "?" =? 1)
            then _ else _) as [rest url1] eqn:E.
  assert (H1 : tidy url1 /\ User url1 = None).
  { destruct (HasSuffix (drop n rawURL) "?" && (CountByte (drop n rawURL) "?" =? 1)).
    - injection E as <- <-. split; [|reflexivity]. repeat split; try reflexivity.
      intros ui [=].
    - unfold Cut in E. destruct (0 <=? Index (drop n rawURL) "?").
      + injection E as <- <-. split; [|reflexivity]. unfold slice_from.
        cbn [RawQuery set_RawQuery ForceQuery User url0 set_Scheme empty].
        rewrite drop_drop. repeat split; try discriminate.
        * now apply (Contains_drop "#").
        * now apply CTL_drop.
      + injection E as <- <-. split; [|reflexivity]. repeat split; try reflexivity;
          try discriminate. }
  destruct H1 as [Ht Hu]. clear E.
  destruct (negb (HasPrefix rest "/") && negb (String.eqb (Scheme url1) EmptyString)).
  { intros [= <-]. now apply (tidy_same url1). }
  rewrite andb_false_r.
  destruct (negb (HasPrefix rest "/") && Contains _ ":"); [discriminate|].
  change (negb false) with true. rewrite andb_true_l.
  destruct ((negb (String.eqb (Scheme url1) EmptyString) || negb (HasPrefix rest "///"))
            && HasPrefix rest "//").
  - destruct (if 0 <=? Index (slice_from rest 2) "/" then _ else _) as [authority rest'].
    destruct (parseAuthority authority) as [[usr h]|e] eqn:Hpa; cbn [bind fst snd];
      [|discriminate].
    intros Hs. apply setPath_tidy in Hs; [exact Hs|].
    destruct Ht as (T1 & T2 & T3 & _). repeat split; try assumption.
    cbn [User set_User_Host]. now apply (parseAuthority_user authority usr h).
  - destruct (negb (String.eqb (Scheme url1) EmptyString) && HasPrefix rest "/");
      cbn [bind fst snd]; intros Hs; apply setPath_tidy in Hs; try exact Hs;
      now apply (tidy_same url1).
Qed.

Lemma Cut_first_free (c : ascii) (s : string) :
  Contains (Cut s (str c)).1.1 (str c) = false.
Proof.
  destruct (Contains s (str c)) eqn:E.
  - destruct (strings_facts.Contains_split c s E) as (a & b & -> & Ha).
    now rewrite (Cut_found c a b Ha).
  - now rewrite (Cut_none c s E).
Qed.

Lemma Parse_tidy (rawURL : string) (u : URL) : Parse rawURL = Ok u -> tidy u.
Proof.
  unfold Parse. pose proof (Cut_first_free "#" rawURL) as Hc.
  change (str "#") with "#"%string in Hc.
  destruct (Cut rawURL "#") as [[raw frag] found]. cbn [fst] in Hc.
  destruct (parse raw false) as [url1|e] eqn:Hp; [|discriminate].
  apply (parse_tidy raw url1 Hc) in Hp.
  destruct (String.eqb frag EmptyString); [now intros [= <-]|].
  destruct (setFragment url1 frag) as [url2|e] eqn:Hf; [|discriminate].
  intros [= <-]. now apply (setFragment_tidy url1 url2 frag).
Qed.

Lemma slice_to_app (a b : string) : slice_to (a +:+ b) (len a) = a.
Proof. unfold slice_to, len. rewrite Nat2Z.id. apply strings_facts.take_app. Qed.

Lemma slice_from_app (a b : string) : slice_from (a +:+ b) (len a) = b.
Proof. unfold slice_from, len. rewrite Nat2Z.id. apply strings_facts.drop_app. Qed.

Lemma slice_from_app1 (a b : string) (c : ascii) :
  slice_from (a +:+ String c b) (len a + 1) = b.
Proof.
  unfold slice_from, len.
  replace (Z.to_nat (Z.of_nat (String.length a) + 1))
    with (String.length (a +:+ str c)) by (rewrite strings_facts.length_app; simpl; lia).
  replace (a +:+ String c b) with ((a +:+ str c) +:+ b)
    by (rewrite strings_facts.app_assoc; reflexivity).
  apply strings_facts.drop_app.
Qed.

Lemma len_nonneg (a : string) : (len a <? 0) = false.
Proof. apply Z.ltb_ge. unfold len. lia. Qed.

(** *** The authority *)

(** Rewriting with a lemma stated with [str c]. *)
Ltac rw H := let E := fresh in pose proof H as E; unfold str in E; rewrite E; clear E.

(** A host that is a name without colon and without opening bracket,
    maybe followed by a colon and digits. *)
Definition name_ok (name : string) : Prop :=
  all_chars host_byte name = true /\ Contains name ":" = false
  /\ HasPrefix name "[" = false.

Definition host_shape (h : string) : Prop :=
  exists name,
    name_ok name
    /\ (h = name \/ exists d, all_digits d = true /\ h = name +:+ ":" +:+ d).

Lemma all_chars_app (P : ascii -> bool) (a b : string) :
  all_chars P (a +:+ b) = all_chars P a && all_chars P b.
Proof.
  induction a as [|c r IH]; [reflexivity|]. cbn [String.append all_chars].
  now rewrite IH, andb_assoc.
Qed.

Lemma digits_host (d : string) : all_digits d = true -> all_chars host_byte d = true.
Proof.
  induction d as [|c r IH]; [reflexivity|]. cbn [all_digits all_chars].
  intros [Hc Hr]%andb_true_iff. rewrite (IH Hr), andb_true_r.
  unfold host_byte. now rewrite (digit_not_escaped c encodeHost Hc).
Qed.

Lemma host_shape_bytes (h : string) : host_shape h -> all_chars host_byte h = true.
Proof.
  intros (name & (Hn & _ & _) & [-> | (d & Hd & ->)]); [exact Hn|].
  rewrite !all_chars_app, Hn, (digits_host d Hd). reflexivity.
Qed.

Lemma escape_no_bracket (s : string) (mode : encoding) :
  HasPrefix s "[" = false -> HasPrefix (escape s mode) "[" = false.
Proof.
  rewrite escape_eq. destruct s as [|c r]; [reflexivity|].
  change (HasPrefix (String c r) "[") with (Ascii.eqb c "[" && true).
  rewrite andb_true_r. intros Hc. cbn [escape_build].
  destruct (Ascii.eqb c " " && encoding_eqb mode encodeQueryComponent); [reflexivity|].
  destruct (shouldEscape c mode); [reflexivity|].
  change (HasPrefix (String c (escape_build r mode)) "[") with (Ascii.eqb c "[" && true).
  now rewrite Hc.
Qed.

Lemma parseHost_escape (h : string) :
  host_shape h -> parseHost (escape h encodeHost) = Ok h.
Proof.
  intros Hs. pose proof (host_shape_bytes h Hs) as Hb.
  destruct Hs as (name & (Hn & Hc & Hp) & [-> | (d & Hd & ->)]).
  - unfold parseHost. rewrite (escape_no_bracket name encodeHost Hp).
    rw (LastIndex_none ":" (escape name encodeHost)
          (escape_keeps_out ":" name encodeHost Hc eq_refl)).
    change (-1 =? -1) with true. cbn [negb andb].
    now apply unescape_escape.
  - unfold parseHost. rewrite (escape_no_bracket _ encodeHost).
    2:{ destruct name as [|c r]; [reflexivity|exact Hp]. }
    rewrite (escape_host_port name d Hd), (LastIndex_app_colon _ d Hd).
    unfold len at 1 2, slice_from.
    destruct (Z.eqb_spec (Z.of_nat (String.length (escape name encodeHost))) (-1)); [lia|].
    rewrite Nat2Z.id, strings_facts.drop_app.
    change (validOptionalPort (":" +:+ d)) with (all_digits d). rewrite Hd.
    cbn [negb andb]. rewrite <- (escape_host_port name d Hd).
    now apply unescape_escape.
Qed.

Lemma validUserinfo_app (a b : string) :
  validUserinfo (a +:+ b) = validUserinfo a && validUserinfo b.
Proof.
  induction a as [|c r IH]; [reflexivity|]. cbn [String.append validUserinfo].
  now rewrite IH, andb_assoc.
Qed.

Lemma hexdigit_alnum (i : Z) : isAlnum (hexdigit i) = true.
Proof.
  unfold hexdigit. generalize (Z.to_nat i). intros k.
  do 16 (destruct k as [|k]; [reflexivity|]). reflexivity.
Qed.

Lemma validUserinfo_escape (s : string) :
  validUserinfo (escape s encodeUserPassword) = true.
Proof.
  rewrite escape_eq. induction s as [|c r IH]; [reflexivity|]. cbn [escape_build].
  rewrite andb_false_r.
  destruct (shouldEscape c encodeUserPassword) eqn:Hs.
  - cbn [validUserinfo]. rewrite IH, !hexdigit_alnum. reflexivity.
  - cbn [validUserinfo]. rewrite IH, andb_true_r.
    revert Hs. destruct c as [[] [] [] [] [] [] [] []]; vm_compute; congruence.
Qed.

Lemma colon_escaped (s : string) :
  Contains (escape s encodeUserPassword) ":" = false.
Proof. now apply (escape_free ":"). Qed.

Lemma at_escaped (s : string) (mode : encoding) :
  mode = encodeUserPassword \/ mode = encodeHost ->
  Contains (escape s mode) "@" = false.
Proof. intros [-> | ->]; now apply (escape_free "@"). Qed.

Lemma slash_escaped (s : string) (mode : encoding) :
  mode = encodeUserPassword \/ mode = encodeHost ->
  Contains (escape s mode) "/" = false.
Proof. intros [-> | ->]; now apply (escape_free "/"). Qed.

(** The authority that String writes is read back by parseAuthority. *)
Lemma parseAuthority_written (usr : option Userinfo) (h : string) :
  host_shape h ->
  (forall ui, usr = Some ui -> passwordSet ui = false -> password ui = EmptyString) ->
  parseAuthority (userinfo_at usr +:+ escape h encodeHost) = Ok (usr, h).
Proof.
  intros Hh Hpw. unfold parseAuthority.
  destruct usr as [[un pw [|]]|]; cbn [userinfo_at Userinfo_String username password
                                        passwordSet].
  - set (US := escape un encodeUserPassword +:+ ":" +:+ escape pw encodeUserPassword).
    rewrite strings_facts.app_assoc.
    change ("@" +:+ escape h encodeHost) with (String "@" (escape h encodeHost)).
    rw (LastIndex_app_last "@" US _ (at_escaped h encodeHost (or_intror eq_refl))).
    rewrite len_nonneg, slice_from_app1, !slice_to_app, (parseHost_escape h Hh).
    cbn [bind].
    assert (Hv : validUserinfo US = true).
    { unfold US. rewrite !validUserinfo_app, !validUserinfo_escape. reflexivity. }
    rewrite Hv. cbn [negb].
    assert (Hc : Contains US ":" = true).
    { unfold US. apply (strings_facts.Contains_app_byte ":"). }
    rewrite Hc. cbn [negb].
    unfold US. change (":" +:+ escape pw encodeUserPassword)
      with (String ":" (escape pw encodeUserPassword)).
    rw (Cut_found ":" _ (escape pw encodeUserPassword) (colon_escaped un)).
    rewrite !unescape_escape by exact I. reflexivity.
  - set (US := escape un encodeUserPassword).
    rewrite strings_facts.app_assoc.
    change ("@" +:+ escape h encodeHost) with (String "@" (escape h encodeHost)).
    rw (LastIndex_app_last "@" US _ (at_escaped h encodeHost (or_intror eq_refl))).
    rewrite len_nonneg, slice_from_app1, !slice_to_app, (parseHost_escape h Hh).
    cbn [bind].
    unfold US. rewrite validUserinfo_escape, colon_escaped. cbn [negb].
    rewrite unescape_escape by exact I. cbn [bind].
    rewrite <- (Hpw _ eq_refl eq_refl). reflexivity.
  - cbn [String.append].
    rw (LastIndex_none "@" _ (at_escaped h encodeHost (or_intror eq_refl))).
    change (-1 <? 0) with true. cbv iota.
    now rewrite (parseHost_escape h Hh).
Qed.

(** *** The text of a URL value, parsed *)

Lemma escape_nonempty (s : string) (mode : encoding) :
  s <> EmptyString -> escape s mode <> EmptyString.
Proof.
  rewrite escape_eq. destruct s as [|c r]; [congruence|]. intros _. cbn [escape_build].
  destruct (Ascii.eqb c " " && encoding_eqb mode encodeQueryComponent); [discriminate|].
  destruct (shouldEscape c mode); discriminate.
Qed.

Lemma unescape_EscapedPath (b : URL) :
  Path b <> "*" -> unescape (EscapedPath b) encodePath = Ok (Path b).
Proof.
  intros Hp. destruct (EscapedPath_cases b) as [->|[[E _]|(_ & -> & H)]].
  - now apply unescape_escape.
  - contradiction.
  - exact H.
Qed.

Lemma unescape_EscapedFragment (b : URL) :
  unescape (EscapedFragment b) encodeFragment = Ok (Fragment b)
  /\ (Fragment b <> EmptyString -> EscapedFragment b <> EmptyString).
Proof.
  unfold EscapedFragment.
  destruct (String.eqb_spec (RawFragment b) EmptyString) as [E|E]; cbn [negb andb].
  - split; [now apply unescape_escape|apply escape_nonempty].
  - destruct (validEncoded (RawFragment b) encodeFragment).
    + destruct (unescape (RawFragment b) encodeFragment) as [q|e] eqn:Hu.
      * destruct (String.eqb_spec q (Fragment b)) as [->|].
        -- split; [exact Hu|auto].
        -- split; [now apply unescape_escape|apply escape_nonempty].
      * split; [now apply unescape_escape|apply escape_nonempty].
    + split; [now apply unescape_escape|apply escape_nonempty].
Qed.

Lemma EscapedPath_no_ctl (b : URL) :
  Path b <> "*" -> stringContainsCTLByte (EscapedPath b) = false.
Proof.
  intros Hp. unfold EscapedPath.
  destruct (negb (String.eqb (RawPath b) EmptyString)
            && validEncoded (RawPath b) encodePath) eqn:Hv.
  - apply andb_true_iff in Hv as [_ Hv].
    destruct (unescape (RawPath b) encodePath) as [p|e].
    + destruct (String.eqb p (Path b)).
      * now apply (validEncoded_no_ctl _ encodePath).
      * apply String.eqb_neq in Hp. rewrite Hp. apply escape_no_ctl.
    + apply String.eqb_neq in Hp. rewrite Hp. apply escape_no_ctl.
  - apply String.eqb_neq in Hp. rewrite Hp. apply escape_no_ctl.
Qed.

Section written.
Variable b : URL.
Hypothesis Hs : Scheme b = "ws"%string \/ Scheme b = "wss"%string.
Hypothesis Hh : host_shape (Host b).
Hypothesis Hp : HasPrefix (Path b) "/" = true.
Hypothesis Hr : RawPath b = EmptyString \/ HasPrefix (RawPath b) "/" = true.
Hypothesis Ht : tidy b.

(** The authority and the path as String writes them. *)
Definition auth : string := userinfo_at (User b) +:+ escape (Host b) encodeHost.
Definition rest_text : string := "//" +:+ auth +:+ EscapedPath b.

Lemma Path_not_star : Path b <> "*".
Proof. intros E. rewrite E in Hp. discriminate. Qed.

Lemma EscapedPath_rooted : exists ep, EscapedPath b = String "/" ep.
Proof.
  pose proof (EscapedPath_prefix b Hp Hr) as H.
  destruct (EscapedPath b) as [|c ep]; [discriminate|].
  change (HasPrefix (String c ep) "/") with (Ascii.eqb c "/" && true) in H.
  rewrite andb_true_r in H. apply Ascii.eqb_eq in H as ->. now exists ep.
Qed.

Lemma auth_free (c : ascii) :
  ends_path c \/ c = "/"%char -> Contains auth (str c) = false.
Proof.
  intros Hc. unfold auth. rewrite Contains_app.
  assert (H1 : Contains (userinfo_at (User b)) (str c) = false).
  { destruct Hc as [Hc| ->]; [now apply userinfo_free|].
    destruct (User b) as [ui|]; [|reflexivity]. unfold userinfo_at, Userinfo_String.
    destruct (passwordSet ui); rewrite !Contains_app; unfold str;
      rewrite ?(slash_escaped (username ui) encodeUserPassword (or_introl eq_refl)),
        ?(slash_escaped (password ui) encodeUserPassword (or_introl eq_refl));
      reflexivity. }
  rewrite H1. destruct Hc as [Hc| ->]; [now apply host_free|].
  apply (slash_escaped (Host b) encodeHost). now right.
Qed.

Lemma rest_text_free (c : ascii) : ends_path c -> Contains rest_text (str c) = false.
Proof.
  intros Hc. unfold rest_text. rewrite !Contains_app.
  rewrite (auth_free c (or_introl Hc)), (EscapedPath_free c b Hc Path_not_star).
  destruct Hc as [-> | ->]; reflexivity.
Qed.

Lemma auth_no_ctl : stringContainsCTLByte auth = false.
Proof.
  unfold auth. rewrite CTL_app, escape_no_ctl, orb_false_r.
  destruct (User b) as [ui|]; [|reflexivity]. unfold userinfo_at, Userinfo_String.
  destruct (passwordSet ui); rewrite !CTL_app, !escape_no_ctl; reflexivity.
Qed.

(** The URL value under construction after the scheme and the query. *)
Definition after_query : URL :=
  mkURL (Scheme b) EmptyString None EmptyString EmptyString EmptyString false
        (ForceQuery b) (RawQuery b) EmptyString EmptyString.

(** The cut of the query (the lines of [parse] after [getScheme]). *)
Lemma split_query :
  (if HasSuffix (rest_text +:+ query_part b) "?"
      && (CountByte (rest_text +:+ query_part b) "?" =? 1)
   then (slice_to (rest_text +:+ query_part b) (len (rest_text +:+ query_part b) - 1),
         set_ForceQuery (set_Scheme empty (Scheme b)) true)
   else let '(before, after, _) := Cut (rest_text +:+ query_part b) "?" in
        (before, set_RawQuery (set_Scheme empty (Scheme b)) after))
  = (rest_text, after_query).
Proof.
  pose proof (rest_text_free "?" (or_introl eq_refl)) as Hq.
  destruct Ht as (_ & _ & Tf & _). unfold query_part, after_query.
  destruct (ForceQuery b) eqn:Hf.
  - rewrite (Tf eq_refl). cbn [orb].
    change ("?" +:+ EmptyString) with "?"%string.
    rw (HasSuffix_app "?" rest_text "?" ltac:(discriminate)).
    rewrite CountByte_app, (CountByte_none "?" rest_text Hq).
    change (HasSuffix "?" "?") with true. cbn [andb CountByte Ascii.eqb Bool.eqb].
    change (0 + (1 + 0) =? 1) with true. cbv iota.
    f_equal. unfold slice_to, len. rewrite strings_facts.length_app. cbn [String.length].
    replace (Z.to_nat (Z.of_nat (String.length rest_text + 1) - 1))
      with (String.length rest_text) by lia.
    apply strings_facts.take_app.
  - cbn [orb]. destruct (String.eqb_spec (RawQuery b) EmptyString) as [E|E]; cbn [negb].
    + rewrite E, strings_facts.app_nil_r.
      rw (HasSuffix_none "?" rest_text Hq). cbn [andb].
      rw (Cut_none "?" rest_text Hq). reflexivity.
    + assert (Hc : HasSuffix (rest_text +:+ "?" +:+ RawQuery b) "?"
                   && (CountByte (rest_text +:+ "?" +:+ RawQuery b) "?" =? 1) = false).
      { destruct (HasSuffix (rest_text +:+ "?" +:+ RawQuery b) "?") eqn:Hsuf;
          [|reflexivity]. cbn [andb]. apply Z.eqb_neq.
        pose proof (HasSuffix_app "?" rest_text ("?" +:+ RawQuery b) ltac:(discriminate))
          as E1. unfold str in E1. rewrite E1 in Hsuf.
        change ("?" +:+ RawQuery b) with (String "?" (RawQuery b)) in Hsuf.
        pose proof (HasSuffix_cons "?" "?" (RawQuery b)) as E2. unfold str in E2.
        rewrite E2 in Hsuf.
        destruct (RawQuery b) as [|c r] eqn:Eq; [congruence|].
        pose proof (HasSuffix_count "?" (String c r)) as E3. unfold str in E3.
        specialize (E3 Hsuf).
        rewrite !CountByte_app, (CountByte_none "?" rest_text Hq).
        change (CountByte "?" "?") with 1. lia. }
      rewrite Hc.
      change ("?" +:+ RawQuery b) with (String "?" (RawQuery b)).
      rw (Cut_found "?" rest_text (RawQuery b) Hq). reflexivity.
Qed.

(** The URL value that [parse] gives for the text without fragment. *)
Definition parsed : URL :=
  mkURL (Scheme b) EmptyString (User b) (Host b) (Path b)
        (if String.eqb (EscapedPath b) (escape (Path b) encodePath)
         then EmptyString else EscapedPath b)
        false (ForceQuery b) (RawQuery b) EmptyString EmptyString.

Definition body : string := Scheme b +:+ ":" +:+ rest_text +:+ query_part b.

Lemma query_part_clean :
  stringContainsCTLByte (query_part b) = false /\ Contains (query_part b) "#" = false.
Proof.
  destruct Ht as (T1 & T2 & _). unfold query_part.
  destruct (ForceQuery b || negb (String.eqb (RawQuery b) EmptyString)); [|now split].
  split.
  - rewrite CTL_app, T2. reflexivity.
  - pose proof (Contains_app "#" "?" (RawQuery b)) as E. unfold str in E.
    rewrite E, T1. reflexivity.
Qed.

Lemma body_no_ctl : stringContainsCTLByte body = false.
Proof.
  unfold body, rest_text.
  rewrite !CTL_app, auth_no_ctl, (EscapedPath_no_ctl b Path_not_star),
    (proj1 query_part_clean).
  destruct Hs as [-> | ->]; reflexivity.
Qed.

Lemma body_no_hash : Contains body "#" = false.
Proof.
  unfold body.
  pose proof (Contains_app "#" (Scheme b) (":" +:+ rest_text +:+ query_part b)) as E1.
  pose proof (Contains_app "#" ":" (rest_text +:+ query_part b)) as E2.
  pose proof (Contains_app "#" rest_text (query_part b)) as E3.
  pose proof (rest_text_free "#" (or_intror eq_refl)) as E4.
  unfold str in *. rewrite E1, E2, E3, E4, (proj2 query_part_clean).
  destruct Hs as [-> | ->]; reflexivity.
Qed.

Lemma len_nonneg' (a : string) : (0 <=? len a) = true.
Proof. apply Z.leb_le. unfold len. lia. Qed.

Lemma parse_written : parse body false = Ok parsed.
Proof.
  unfold parse. rewrite body_no_ctl, andb_false_r.
  assert (Hstar : String.eqb body "*" = false)
    by (unfold body; destruct Hs as [-> | ->]; reflexivity).
  assert (Hg : getScheme body = Ok (Scheme b, rest_text +:+ query_part b)).
  { unfold body. destruct Hs as [-> | ->].
    - apply (proj1 (getScheme_ws _)).
    - apply (proj2 (getScheme_ws _)). }
  assert (Hl : ToLower (Scheme b) = Scheme b) by (destruct Hs as [-> | ->]; reflexivity).
  assert (Hne : String.eqb (Scheme b) EmptyString = false)
    by (destruct Hs as [-> | ->]; reflexivity).
  rewrite Hstar, Hg. cbn [bind fst snd]. rewrite Hl, split_query.
  change (HasPrefix rest_text "/") with true.
  change (HasPrefix rest_text "//") with true.
  cbn [negb andb orb Scheme after_query]. rewrite Hne. cbn [negb andb orb].
  change (slice_from rest_text 2) with (auth +:+ EscapedPath b).
  destruct EscapedPath_rooted as [ep Hep]. rewrite Hep.
  rw (strings_facts.Index_app_first "/" auth ep (auth_free "/" (or_intror eq_refl))).
  rewrite len_nonneg', slice_to_app, slice_from_app.
  unfold auth at 1.
  rewrite (parseAuthority_written (User b) (Host b) Hh (proj2 (proj2 (proj2 Ht)))).
  cbn [bind fst snd]. unfold setPath. rewrite <- Hep.
  rewrite (unescape_EscapedPath b Path_not_star). cbn [bind]. unfold parsed.
  destruct (String.eqb (EscapedPath b) (escape (Path b) encodePath)); reflexivity.
Qed.

(** [Parse] of the text with its fragment. *)
Lemma Parse_written :
  exists u',
    Parse (body +:+ fragment_part b) = Ok u'
    /\ Scheme u' = Scheme b /\ Opaque u' = EmptyString /\ User u' = User b
    /\ Host u' = Host b /\ Path u' = Path b /\ RawQuery u' = RawQuery b
    /\ ForceQuery u' = ForceQuery b /\ Fragment u' = Fragment b.
Proof.
  unfold Parse, fragment_part.
  destruct (String.eqb_spec (Fragment b) EmptyString) as [E|E]; cbn [negb].
  - rewrite strings_facts.app_nil_r. rw (Cut_none "#" body body_no_hash).
    rewrite parse_written. cbn [String.eqb]. exists parsed.
    rewrite E. repeat apply conj; reflexivity.
  - change ("#" +:+ EscapedFragment b) with (String "#" (EscapedFragment b)).
    rw (Cut_found "#" body (EscapedFragment b) body_no_hash).
    rewrite parse_written.
    destruct (unescape_EscapedFragment b) as [Hu Hne].
    specialize (Hne E). apply String.eqb_neq in Hne. rewrite Hne.
    unfold setFragment. rewrite Hu. cbn [bind].
    destruct (String.eqb (EscapedFragment b) (escape (Fragment b) encodeFragment));
      eexists; (split; [reflexivity|]); repeat apply conj; reflexivity.
Qed.

End written.

(** The host name of a host of this shape is its name. *)
Lemma host_shape_hostname (h : string) :
  host_shape h -> exists name, name_ok name /\ fst (splitHostPort h) = name.
Proof.
  intros (name & Hn & [-> | (d & Hd & ->)]); exists name; (split; [exact Hn|]);
    destruct Hn as (_ & Hc & Hp).
  - unfold splitHostPort. rw (LastIndex_none ":" name Hc).
    change (-1 =? -1) with true. cbn [negb andb fst]. now rewrite Hp.
  - rewrite (splitHostPort_host name d Hd). now rewrite Hp.
Qed.

Lemma JoinHostPort_name (name d : string) :
  Contains name ":" = false -> JoinHostPort name d = name +:+ ":" +:+ d.
Proof. unfold JoinHostPort. fold (Contains name ":"). now intros ->. Qed.

End reparse.

(** The URL that buildURL returns parses back to what it was built from.
    For a base URL whose host is a name without colon and opening bracket,
    maybe followed by a port, [url.Parse] accepts the text that buildURL
    returns and gives the scheme, the user, the query and the fragment of the
    base URL, the path argument with its leading slash, and the host that
    buildURL set: the host of the base URL when the port argument is not above
    zero, and its host name with the port argument otherwise.  So the dial of
    line 102, which parses the text again, goes to that host, port and
    path. *)
Theorem buildURL_parses_back (rawURL path : string) (port : Z) (u : url.URL) :
  url.Parse rawURL = Ok u ->
  url.Scheme u = "ws" \/ url.Scheme u = "wss" ->
  url.Host u <> EmptyString ->
  reparse.host_shape (url.Host u) ->
  exists u',
    url.Parse (fst (buildURL rawURL path port)) = Ok u'
    /\ url.Scheme u' = url.Scheme u /\ url.Opaque u' = EmptyString
    /\ url.User u' = url.User u
    /\ url.Path u' = rooted path
    /\ url.RawQuery u' = url.RawQuery u /\ url.ForceQuery u' = url.ForceQuery u
    /\ url.Fragment u' = url.Fragment u
    /\ (port <= 0 -> url.Host u' = url.Host u)
    /\ (0 < port ->
        url.Hostname u' = url.Hostname u /\ url.Port u' = Itoa port
        /\ url.Host u' = url.Hostname u +:+ ":" +:+ Itoa port).
Proof.
  intros Hp Hs Hne Hh.
  destruct (url_facts.Parse_host rawURL u Hp Hne) as [Ho Hr].
  destruct (built_facts u path port) as (Bs & Bo & Bu & Bp & Bq & Bf & Bh).
  set (b := built u path port) in *.
  assert (Hpath : url.Path b = rooted path)
    by (unfold b, built; destruct (0 <? port); reflexivity).
  assert (Hraw : url.RawPath b = url.RawPath u)
    by (unfold b, built; destruct (0 <? port); reflexivity).
  assert (Hq : url.RawQuery b = url.RawQuery u /\ url.ForceQuery b = url.ForceQuery u
               /\ url.Fragment b = url.Fragment u)
    by (unfold b, built; destruct (0 <? port); repeat split; reflexivity).
  destruct Hq as (Hq1 & Hq2 & Hq3).
  destruct (reparse.host_shape_hostname _ Hh) as (name & Hn & Hname).
  fold (url.Hostname u) in Hname.
  assert (Hhost : (port <= 0 -> url.Host b = url.Host u)
                  /\ (0 < port -> url.Host b = url.Hostname u +:+ ":" +:+ Itoa port)).
  { unfold b, built. destruct (Z.ltb_spec 0 port); split; intros; try lia;
      try reflexivity.
    cbn [url.Host url.set_Host].
    change (url.Hostname (url.set_Path u (rooted path))) with (url.Hostname u).
    rewrite Hname. apply reparse.JoinHostPort_name. apply Hn. }
  assert (Hshape : reparse.host_shape (url.Host b)).
  { destruct (Z.ltb_spec 0 port) as [Hlt|Hle].
    - rewrite (proj2 Hhost Hlt), Hname. exists name. split; [exact Hn|]. right.
      exists (Itoa port). split; [now apply url_facts.Itoa_digits|reflexivity].
    - now rewrite (proj1 Hhost Hle). }
  assert (Hprefix : strings.HasPrefix (url.Path b) "/" = true)
    by (rewrite Hpath; apply rooted_prefix).
  assert (Hrb : url.RawPath b = EmptyString
                \/ strings.HasPrefix (url.RawPath b) "/" = true)
    by (now rewrite Hraw).
  assert (Htidy : reparse.tidy b).
  { apply (reparse.tidy_same u); auto. now apply reparse.Parse_tidy with rawURL. }
  assert (Hsb : url.Scheme b = "ws" \/ url.Scheme b = "wss") by (now rewrite Bs).
  assert (Htext : fst (buildURL rawURL path port)
                  = reparse.body b +:+ url_facts.fragment_part b).
  { rewrite (buildURL_ok rawURL path port u Hp Hs Hne). cbn [fst]. fold b.
    rewrite url_facts.URL_String_shape;
      [|exact Hsb|now rewrite Bo|now apply Bh
       |now apply url_facts.EscapedPath_prefix].
    unfold reparse.body, reparse.rest_text, reparse.auth.
    destruct Hsb as [-> | ->]; cbn [String.append];
      now rewrite ?strings_facts.app_assoc. }
  destruct (reparse.Parse_written b Hsb Hshape Hprefix Hrb Htidy)
    as (u' & HP & P1 & P2 & P3 & P4 & P5 & P6 & P7 & P8).
  exists u'. rewrite Htext. split; [exact HP|].
  repeat apply conj; try congruence.
  - intros Hle. rewrite P4. now apply Hhost.
  - intros Hlt. unfold url.Hostname at 1, url.Port. rewrite P4, (proj2 Hhost Hlt).
    pose proof (url_facts.Itoa_digits port Hlt) as Hd.
    rewrite (url_more.splitHostPort_host _ _ Hd), (url_facts.splitHostPort_port _ _ Hd).
    rewrite Hname. destruct Hn as (_ & _ & Hb). rewrite Hb. auto.
Qed.

(** The base URL, path and port of the README's example. *)
Lemma buildURL_parses_back_witness :
  exists u',
    url.Parse (fst (buildURL "ws://localhost" "chat" 9000)) = Ok u'
    /\ url.Scheme u' = "ws" /\ url.Opaque u' = EmptyString
    /\ url.User u' = None
    /\ url.Path u' = rooted "chat"
    /\ url.RawQuery u' = EmptyString /\ url.ForceQuery u' = false
    /\ url.Fragment u' = EmptyString
    /\ (9000 <= 0 -> url.Host u' = "localhost")
    /\ (0 < 9000 ->
        url.Hostname u' = "localhost" /\ url.Port u' = Itoa 9000
        /\ url.Host u' = "localhost" +:+ ":" +:+ Itoa 9000).
Proof.
  apply (buildURL_parses_back "ws://localhost" "chat" 9000
           (url.mkURL "ws" EmptyString None "localhost" EmptyString EmptyString
                      false false EmptyString EmptyString EmptyString)).
  - reflexivity.
  - now left.
  - discriminate.
  - exists "localhost"%string. split; [|now left]. repeat split; reflexivity.
Defined.

(** *** The flags that a command line does not name *)

Section flag_frame.
Import strings.
Variable ParseInt : string -> option Z.
Variable ParseDuration : string -> option Z.

(** The argument [s] starts with the flag [n], after one minus sign or
    two. *)
Definition mentions (s n : string) : bool :=
  HasPrefix s ("-" +:+ n) || HasPrefix s ("--" +:+ n).

(** The options [o'] have the value of [o] for the flag [n], and the same
    map. *)
Definition unnamed (n : string) (argv : list string) : Prop :=
  Forall (fun s => mentions s n = false) argv.

Definition keeps (n : string) (o o' : options) : Prop :=
  data o' = data o
  /\ (n = "url"%string -> baseURL o' = baseURL o)
  /\ (n = "path"%string -> path o' = path o)
  /\ (n = "port"%string -> port o' = port o)
  /\ (n = "dial-timeout"%string -> dialTimeout o' = dialTimeout o)
  /\ (n = "read-timeout"%string -> readTimeout o' = readTimeout o)
  /\ (n = "insecure-skip-verify"%string -> insecureTLS o' = insecureTLS o).

Lemma keeps_refl (n : string) (o : options) : keeps n o o.
Proof. unfold keeps. tauto. Qed.

Lemma keeps_trans (n : string) (o1 o2 o3 : options) :
  keeps n o1 o2 -> keeps n o2 o3 -> keeps n o1 o3.
Proof. unfold keeps. intros A B. intuition congruence. Qed.

(** Setting the flag [name] leaves the value of every other flag. *)
Lemma Value_Set_keeps (o o' : options) (name v n : string) :
  flag.Value_Set ParseInt ParseDuration o name v = Some o' -> name <> n -> keeps n o o'.
Proof.
  unfold flag.Value_Set. intros H Hn.
  repeat match type of H with
         | context [String.eqb name ?x] =>
             destruct (String.eqb_spec name x); [subst name|]
         end;
    try discriminate H;
    try (injection H as <-);
    try (destruct (ParseInt v); [|discriminate H]; injection H as <-);
    try (destruct (ParseDuration v); [|discriminate H]; injection H as <-);
    try (destruct (flag.ParseBool v); [|discriminate H]; injection H as <-);
    unfold keeps; cbn; intuition congruence.
Qed.

Lemma HasPrefix_take (s : string) (n : nat) : HasPrefix s (take n s) = true.
Proof.
  revert s. induction n as [|n IH]; intros [|c r]; cbn; auto.
  now rewrite Ascii.eqb_refl, IH.
Qed.

Lemma HasPrefix_refl (s : string) : HasPrefix s s = true.
Proof. induction s as [|c r IH]; cbn; [reflexivity|]. now rewrite Ascii.eqb_refl. Qed.

(** The name that the loop of [parseOne] cuts is a prefix of the text after
    the minus signs. *)
Lemma value_loop_prefix (name rest : string) :
  forall i nm val, flag.value_loop name rest i = (nm, val) -> HasPrefix name nm = true.
Proof.
  induction rest as [|c r IH]; intros i nm val; cbn [flag.value_loop].
  - intros [= <- _]. apply HasPrefix_refl.
  - destruct (Ascii.eqb c "="); [|apply IH].
    intros [= <- _]. apply HasPrefix_take.
Qed.

Lemma byte_of_inj (x y : ascii) : byte_of x = byte_of y -> x = y.
Proof.
  unfold byte_of. intros H. apply Z2N.inj_iff in H; try lia.
  rewrite !N2Z.id in H. apply (f_equal ascii_of_N) in H.
  now rewrite !ascii_N_embedding in H.
Qed.

(** A round that sees a flag has set the flag whose name its argument
    holds after one or two minus signs. *)
Lemma parseOne_sets (o o' : options) (s : string) (rest args' : list string) :
  flag.parseOne ParseInt ParseDuration o (s :: rest) = inl (true, o', args') ->
  exists name0 nm val v,
    (s = String "-" name0 \/ s = String "-" (String "-" name0))
    /\ flag.value_loop name0 (slice_from name0 1) 1 = (nm, val)
    /\ flag.Value_Set ParseInt ParseDuration o nm v = Some o'.
Proof.
  intros H.
  destruct s as [|a [|b r]]; [discriminate H|discriminate H|].
  unfold flag.parseOne in H. rewrite len_two, at_0, at_1 in H. cbn [orb] in H.
  destruct (byte_of a =? byte_of "-") eqn:Ea; cbn [negb] in H; [|discriminate H].
  apply Z.eqb_eq, byte_of_inj in Ea. subst a.
  destruct (byte_of b =? byte_of "-") eqn:Eb.
  - apply Z.eqb_eq, byte_of_inj in Eb. subst b.
    change (2 =? 2) with true in H. cbn [andb] in H.
    destruct (len (String "-" (String "-" r)) =? 2); [discriminate H|].
    rewrite slice_from_2 in H.
    destruct ((len r =? 0) || (at_ r 0 =? byte_of "-") || (at_ r 0 =? byte_of "="));
      [discriminate H|].
    destruct (flag.value_loop r (slice_from r 1) 1) as [nm val] eqn:Hv.
    exists r, nm.
    repeat match type of H with
           | context [match ?x with _ => _ end] => destruct x eqn:?
           end; try discriminate H; injection H as <- <-; eauto 8.
  - change (1 =? 2) with false in H. cbn [andb] in H.
    rewrite slice_from_1 in H.
    destruct ((len (String b r) =? 0) || (at_ (String b r) 0 =? byte_of "-")
              || (at_ (String b r) 0 =? byte_of "=")); [discriminate H|].
    destruct (flag.value_loop (String b r) (slice_from (String b r) 1) 1)
      as [nm val] eqn:Hv.
    exists (String b r), nm.
    repeat match type of H with
           | context [match ?x with _ => _ end] => destruct x eqn:?
           end; try discriminate H; injection H as <- <-; eauto 8.
Qed.

Lemma parseOne_keeps (o o' : options) (s n : string) (rest args' : list string) :
  flag.parseOne ParseInt ParseDuration o (s :: rest) = inl (true, o', args') ->
  mentions s n = false -> keeps n o o'.
Proof.
  intros H Hm.
  destruct (parseOne_sets o o' s rest args' H) as (name0 & nm & val & v & Hs & Hv & Hset).
  apply (Value_Set_keeps o o' nm v n Hset). intros ->.
  apply value_loop_prefix in Hv. unfold mentions in Hm.
  apply orb_false_iff in Hm as [H1 H2].
  destruct Hs as [-> | ->].
  - change (HasPrefix (String "-" name0) ("-" +:+ n))
      with (Ascii.eqb "-" "-" && HasPrefix name0 n) in H1.
    rewrite Hv in H1. discriminate H1.
  - change (HasPrefix (String "-" (String "-" name0)) ("--" +:+ n))
      with (Ascii.eqb "-" "-" && (Ascii.eqb "-" "-" && HasPrefix name0 n)) in H2.
    rewrite Hv in H2. discriminate H2.
Qed.

Lemma parseOne_keeps_data (o o' : options) (s : string) (rest args' : list string) :
  flag.parseOne ParseInt ParseDuration o (s :: rest) = inl (true, o', args') ->
  data o' = data o.
Proof.
  intros H.
  destruct (parseOne_sets o o' s rest args' H) as (name0 & nm & val & v & _ & _ & Hset).
  destruct (String.eqb_spec nm "") as [->|Hne]; [discriminate Hset|].
  apply (Value_Set_keeps o o' nm v "" Hset Hne).
Qed.

(** What every round that sees a flag keeps, [flag.Parse] keeps. *)
Lemma Parse_invariant (R : options -> options -> Prop) (P : string -> Prop) :
  (forall o, R o o) ->
  (forall o1 o2 o3, R o1 o2 -> R o2 o3 -> R o1 o3) ->
  (forall o o' s rest args',
     flag.parseOne ParseInt ParseDuration o (s :: rest) = inl (true, o', args') ->
     P s -> R o o') ->
  forall (k : nat) (o o' : options) (args rest : list string),
  (length args <= k)%nat ->
  flag.Parse ParseInt ParseDuration o args = Some (inl (o', rest)) ->
  Forall P args -> R o o'.
Proof.
  intros Hrefl Htrans Hone.
  induction k as [|k IH]; intros o o' args rest Hk H Hall.
  - destruct args; [|cbn in Hk; lia]. rewrite Parse_step in H. cbn in H.
    injection H as <- _. apply Hrefl.
  - rewrite Parse_step in H.
    destruct (flag.parseOne ParseInt ParseDuration o args)
      as [[[[|] o1] args1]|e] eqn:E; [| |discriminate].
    + pose proof (parseOne_seen ParseInt ParseDuration o o1 args args1 E) as Hseen.
      assert (Hhead : exists s tl, args = s :: tl)
        by (destruct Hseen as [(s & ->)|(s & v & ->)]; eauto).
      destruct Hhead as (s & tl & ->).
      apply Forall_cons in Hall as [Hs Htl].
      apply (Htrans o o1 o').
      * now apply (Hone o o1 s tl args1).
      * apply (IH o1 o' args1 rest); [|exact H|].
        -- destruct Hseen as [(s' & [= _ ->])|(s' & v & [= _ ->])]; cbn in Hk |- *; lia.
        -- destruct Hseen as [(s' & [= _ ->])|(s' & v & [= _ ->])]; [exact Htl|].
           now apply Forall_cons in Htl as [_ Htl].
    + injection H as <- _.
      apply (parseOne_stop ParseInt ParseDuration) in E as [-> _]. apply Hrefl.
Qed.

Lemma Parse_keeps (n : string) (o o' : options) (args rest : list string) :
  flag.Parse ParseInt ParseDuration o args = Some (inl (o', rest)) ->
  unnamed n args -> keeps n o o'.
Proof.
  intros H Hall.
  apply (Parse_invariant (keeps n) (fun s => mentions s n = false)
           (keeps_refl n) (keeps_trans n)
           (fun o1 o2 s tl a E Hs => parseOne_keeps o1 o2 s n tl a E Hs)
           (length args) o o' args rest (le_n _) H Hall).
Qed.

Lemma Parse_keeps_data (o o' : options) (args rest : list string) :
  flag.Parse ParseInt ParseDuration o args = Some (inl (o', rest)) ->
  data o' = data o.
Proof.
  intros H.
  apply (Parse_invariant (fun a b => data b = data a) (fun _ => True)
           (fun _ => eq_refl) (fun a b c E1 E2 => eq_trans E2 E1)
           (fun o1 o2 s tl a E _ => parseOne_keeps_data o1 o2 s tl a E)
           (length args) o o' args rest (le_n _) H).
  apply Forall_forall. auto.
Qed.

End flag_frame.

(** The defaults of lines 46-51.  After [flag.Parse], a flag that no argument
    of the command line starts with (after one or two minus signs) holds its
    default: the empty string for -url and -path, 0 for -port, ten seconds for
    each of the two timeouts, false for -insecure-skip-verify.  The map of the
    data is still nil: only parseFlags makes it. *)
Theorem flag_defaults (ParseInt ParseDuration : string -> option Z)
    (argv args : list string) (opts : options) :
  flag.Parse ParseInt ParseDuration defaults argv = Some (inl (opts, args)) ->
  data opts = None
  /\ (unnamed "url" argv -> baseURL opts = EmptyString)
  /\ (unnamed "path" argv -> path opts = EmptyString)
  /\ (unnamed "port" argv -> port opts = 0)
  /\ (unnamed "dial-timeout" argv -> dialTimeout opts = 10 * Second)
  /\ (unnamed "read-timeout" argv -> readTimeout opts = 10 * Second)
  /\ (unnamed "insecure-skip-verify" argv -> insecureTLS opts = false).
Proof.
  intros H.
  split; [exact (Parse_keeps_data ParseInt ParseDuration _ _ _ _ H)|].
  repeat apply conj; intros Hall;
    destruct (Parse_keeps ParseInt ParseDuration _ _ _ _ _ H Hall)
      as (_ & K1 & K2 & K3 & K4 & K5 & K6);
    [ apply K1 | apply K2 | apply K3 | apply K4 | apply K5 | apply K6 ]; reflexivity.
Qed.

Lemma flag_defaults_witness :
  let argv := ["-url"; "ws://h"; "--path=/p"; "-insecure-skip-verify"; "a=b"]%string in
  let opts := mkOptions "ws://h" "/p" 0 (10 * Second) (10 * Second) None true in
  flag.Parse (fun _ => None) (fun _ => None) defaults argv
    = Some (inl (opts, ["a=b"]%string))
  /\ unnamed "port" argv /\ unnamed "read-timeout" argv
  /\ data opts = None /\ port opts = 0 /\ readTimeout opts = 10 * Second.
Proof.
  cbv zeta.
  assert (Hp : unnamed "port"
                 ["-url"; "ws://h"; "--path=/p"; "-insecure-skip-verify"; "a=b"]%string)
    by (repeat constructor).
  assert (Hr : unnamed "read-timeout"
                 ["-url"; "ws://h"; "--path=/p"; "-insecure-skip-verify"; "a=b"]%string)
    by (repeat constructor).
  destruct (flag_defaults (fun _ => None) (fun _ => None)
    ["-url"; "ws://h"; "--path=/p"; "-insecure-skip-verify"; "a=b"]%string
    ["a=b"]%string
    (mkOptions "ws://h" "/p" 0 (10 * Second) (10 * Second) None true) eq_refl)
    as (W0 & _ & _ & W3 & _ & W5 & _).
  repeat apply conj;
    [reflexivity | exact Hp | exact Hr | exact W0 | exact (W3 Hp) | exact (W5 Hr)].
Defined.

(** A command line on which no argument starts with -url or --url does not
    reach run: the process ends with status 2, from [flag.Parse] or from the
    check of line 59, or with status 0 when [flag.Parse] met -h or -help;
    this under every schedule. *)
Theorem no_url_no_run (ParseInt ParseDuration : string -> option Z)
    (argv : list string) (inputs : list input) :
  unnamed "url" argv ->
  main_argv ParseInt ParseDuration argv inputs = Some 2
  \/ (flag.Parse ParseInt ParseDuration defaults argv = Some (inr flag.ErrHelp)
      /\ main_argv ParseInt ParseDuration argv inputs = Some 0).
Proof.
  intros Hall. unfold main_argv.
  destruct (flag.Parse ParseInt ParseDuration defaults argv) as [[[opts args]|e]|] eqn:Hr.
  - left.
    destruct (Parse_keeps ParseInt ParseDuration _ _ _ _ _ Hr Hall) as (_ & K & _).
    unfold main, parseFlags. now rewrite (K eq_refl).
  - destruct e; cbn; auto.
  - now apply Parse_returns in Hr.
Qed.

Lemma no_url_no_run_witness :
  unnamed "url" ["-path"; "/p"; "k=v"]%string
  /\ main_argv (fun _ => None) (fun _ => None) ["-path"; "/p"; "k=v"]%string
       [IMain; IMain] = Some 2.
Proof.
  split; [repeat constructor|].
  destruct (no_url_no_run (fun _ => None) (fun _ => None)
              ["-path"; "/p"; "k=v"]%string [IMain; IMain]) as [H|[H _]].
  - repeat constructor.
  - exact H.
  - discriminate H.
Defined.

(** ** The embedded library functions on known values *)

Module examples.

Definition nbsp : string := String (ascii_of 0xC2) (str (ascii_of 0xA0)).

Example TrimSpace_ascii : strings.TrimSpace "  a b  " = "a b".
Proof. reflexivity. Qed.

Example TrimSpace_nbsp : strings.TrimSpace (nbsp +:+ " x " +:+ nbsp) = "x".
Proof. reflexivity. Qed.

Example TrimSpace_blank : strings.TrimSpace (" " +:+ nbsp +:+ str ch_tab) = EmptyString.
Proof. reflexivity. Qed.

Example SplitN_first : strings.SplitN "a=b=c" "=" 2 = ["a"; "b=c"].
Proof. reflexivity. Qed.

Example SplitN_none : strings.SplitN "novalue" "=" 2 = ["novalue"].
Proof. reflexivity. Qed.

Example Parse_full :
  url.Parse "WSS://user:pw@[::1]:80/a%2Fb?x=1#frag" =
    Ok (url.mkURL "wss" EmptyString (Some (url.mkUserinfo "user" "pw" true))
                  "[::1]:80" "/a/b" "/a%2Fb" false false "x=1" "frag" EmptyString).
Proof. reflexivity. Qed.

Example Parse_opaque :
  url.Parse "ws:localhost" =
    Ok (url.mkURL "ws" "localhost" None EmptyString EmptyString EmptyString
                  false false EmptyString EmptyString EmptyString).
Proof. reflexivity. Qed.

Example Parse_space_in_host :
  url.Parse "ws://local host" =
    Err (url_Error "parse" "ws://local host" (InvalidHostError " ")).
Proof. reflexivity. Qed.

Example buildURL_ipv6 :
  buildURL "wss://user:pw@[::1]:80/a%2Fb?x=1#frag" "c d" 443 =
    ("wss://user:pw@[::1]:443/c%20d?x=1#frag", None).
Proof. reflexivity. Qed.

Example buildURL_keeps_port : buildURL "ws://example.com:8080" "/ws" 0 =
  ("ws://example.com:8080/ws", None).
Proof. reflexivity. Qed.

Example buildURL_question_mark : buildURL "ws://h" "a?b" 0 = ("ws://h/a%3Fb", None).
Proof. reflexivity. Qed.

Example Marshal_escapes :
  json.Marshal (Some {["a<b" := String ch_nl (String dq "x")]}) =
    ("{" +:+ marshal_facts.quoted ("a" +:+ String bsl "u003cb") +:+ ":"
     +:+ marshal_facts.quoted (String bsl "n" +:+ String bsl (str dq) +:+ "x") +:+ "}",
     None).
Proof. vm_compute. reflexivity. Qed.

Example Marshal_empty : json.Marshal (Some ∅) = ("{}", None).
Proof. reflexivity. Qed.

Example Indent_nested :
  scanner.Indent "[1,{},[ ],true]" EmptyString "  " =
    ("[" +:+ nl +:+ "  1," +:+ nl +:+ "  {}," +:+ nl +:+ "  []," +:+ nl
     +:+ "  true" +:+ nl +:+ "]", None).
Proof. vm_compute. reflexivity. Qed.

Example Indent_trailing_garbage :
  scanner.Indent "[1] x" EmptyString "  " =
    (EmptyString, Some (SyntaxError (Some "x"%char) "after top-level value" 5)).
Proof. vm_compute. reflexivity. Qed.

Example FormatCloseMessage_timeout :
  websocket.FormatCloseMessage websocket.CloseNormalClosure "timeout" =
    String (ascii_of 0x03) (String (ascii_of 0xE8) "timeout").
Proof. reflexivity. Qed.

Example main_peer_closes : main example_opts ["user=alice"] peer_closes = Some 0.
Proof. vm_compute. reflexivity. Qed.

Example main_timeout : main example_opts ["user=alice"] peer_silent = Some 0.
Proof. vm_compute. reflexivity. Qed.

Example main_failed_send : main example_opts ["user=alice"] failed_send = Some 1.
Proof. vm_compute. reflexivity. Qed.

Example main_bad_argument : main example_opts ["novalue"] [] = Some 2.
Proof. vm_compute. reflexivity. Qed.

End examples.
